(** * knack-openapi-generator: a shallow embedding of the transformation
      from a Knack application schema to an OpenAPI 3.1 document.

    The development follows the source files:
    - [types/knackSchema.ts]            the input data model,
    - [utils/fieldTypeMapper.ts]        field type to schema fragment,
    - [utils/viewSecurityAnalyzer.ts]   public / authenticated verdicts,
    - [utils/pageHelpers.ts]            child pages and parent parameters,
    - [generators/viewsToComponents.ts] view schemas and field lookup,
    - [generators/objectsToComponents.ts], [generators/objectsToPaths.ts],
      [generators/viewsToPaths.ts], [generators/paginationToComponents.ts]
      and the assembling part of [index.ts].

    JavaScript strings are modelled as [string] (sequences of bytes, with
    [toLowerCase] acting on the ASCII letters), objects used as dictionaries
    as [gmap string _], the [Set<string>] of extracted field keys as an
    insertion-ordered duplicate-free list, the [Set<string>] of visited parent
    slugs as a [gset string], optional properties as [option] (absent,
    [undefined] and [null] are all [None]), and the values of type [any] that
    the program inspects as [json] (numbers restricted to the integers). *)

From Stdlib Require Import ZArith Ascii String.
From stdpp Require Import base option list gmap strings.

Set Warnings "-register-all,-clear-no-such-hyp".
Open Scope string_scope.

(** ** JavaScript strings *)

Module Js.

(** [Boolean(s)] on a string: only the empty string is falsy. *)
Definition truthy (s : string) : bool :=
  match s with
  | EmptyString => false
  | String _ _ => true
  end.

(** Truthiness of an optional string property such as [scene.parent]. *)
Definition truthy_opt (o : option string) : bool :=
  match o with
  | Some s => truthy s
  | None => false
  end.

(** [a === b] on strings. *)
Definition str_eq (a b : string) : bool := bool_decide (a = b).

Definition is_upper (c : ascii) : bool :=
  let n := Ascii.N_of_ascii c in (65 <=? n)%N && (n <=? 90)%N.
Definition is_lower (c : ascii) : bool :=
  let n := Ascii.N_of_ascii c in (97 <=? n)%N && (n <=? 122)%N.
Definition is_digit (c : ascii) : bool :=
  let n := Ascii.N_of_ascii c in (48 <=? n)%N && (n <=? 57)%N.

Definition lower_char (c : ascii) : ascii :=
  if is_upper c then Ascii.ascii_of_N (Ascii.N_of_ascii c + 32) else c.

(** [s.toLowerCase()], on the ASCII letters. *)
Fixpoint toLowerCase (s : string) : string :=
  match s with
  | EmptyString => EmptyString
  | String c t => String (lower_char c) (toLowerCase t)
  end.

Fixpoint startsWith (s p : string) : bool :=
  match p, s with
  | EmptyString, _ => true
  | String _ _, EmptyString => false
  | String a p', String b s' => bool_decide (a = b) && startsWith s' p'
  end.

(** [s.includes(sub)]. *)
Fixpoint includes (s sub : string) : bool :=
  startsWith s sub ||
  match s with
  | EmptyString => false
  | String _ t => includes t sub
  end.

(** [s.replace(/[^a-zA-Z0-9]/g, "")]. *)
Fixpoint removeNonAlnum (s : string) : string :=
  match s with
  | EmptyString => EmptyString
  | String c t =>
      if is_upper c || is_lower c || is_digit c
      then String c (removeNonAlnum t)
      else removeNonAlnum t
  end.

(** [s.replace(/\s+/g, "")], on the ASCII white space. *)
Definition is_space (c : ascii) : bool :=
  let n := Ascii.N_of_ascii c in
  (n =? 32)%N || ((9 <=? n)%N && (n <=? 13)%N).

Fixpoint removeSpaces (s : string) : string :=
  match s with
  | EmptyString => EmptyString
  | String c t => if is_space c then removeSpaces t else String c (removeSpaces t)
  end.

End Js.

(** ** Values of type [any] in the input document *)

Inductive json : Type :=
| JNull
| JBool (b : bool)
| JNum (n : Z)
| JStr (s : string)
| JArr (l : list json)
| JObj (l : list (string * json)).

Module Json.

(** Truthiness of a value: [null], [false], [0] and the empty string are
    falsy, arrays and objects are always truthy. *)
Definition truthy (j : json) : bool :=
  match j with
  | JNull => false
  | JBool b => b
  | JNum n => negb (n =? 0)%Z
  | JStr s => Js.truthy s
  | JArr _ | JObj _ => true
  end.

Fixpoint assoc (k : string) (l : list (string * json)) : option json :=
  match l with
  | [] => None
  | (k', v) :: l' => if Js.str_eq k' k then Some v else assoc k l'
  end.

(** Property access [j.k]; on a value that is not an object the
    properties read by this program are [undefined]. *)
Definition prop (j : json) (k : string) : option json :=
  match j with
  | JObj l => assoc k l
  | _ => None
  end.

Definition truthy_opt (o : option json) : bool :=
  match o with
  | Some j => truthy j
  | None => false
  end.

End Json.

(** ** The input data model ([types/knackSchema.ts]) *)

Record KnackRelationship : Type := {
  rel_has : string;
  rel_object : string;
  rel_belongs_to : string;
}.

Record KnackField : Type := {
  field_key : string;
  field_name : string;
  field_type : string;
  field_required : bool;
  field_format : option json;
  field_relationship : option KnackRelationship;
}.

Record KnackInflections : Type := {
  singular : string;
  plural : string;
}.

Record KnackObject : Type := {
  object_key : string;
  object_name : string;
  object_fields : list KnackField;
  object_inflections : KnackInflections;
}.

(** ** The output data model (the part of OpenAPI 3.1 the generators emit) *)

Inductive SchemaObject : Type := MkSchema {
  s_ref : option string;
  s_type : option string;
  s_title : option string;
  s_description : option string;
  s_format : option string;
  s_maxLength : option Z;
  s_readOnly : option bool;
  s_enum : option json;
  s_default : option json;
  s_minimum : option Z;
  s_maximum : option Z;
  s_items : option SchemaObject;
  s_properties : option (gmap string SchemaObject);
  s_required : option (list string);
}.

(** The schema with no key at all. An object literal of the source is
    written as a chain of updates [upd_k v] over it, one per key, and
    [delete schema.required] as [del_required]. *)
Definition emptySchema : SchemaObject :=
  MkSchema None None None None None None None None None
           None None None None None.

Definition upd_ref v (s : SchemaObject) : SchemaObject :=
  MkSchema (Some v) (s_type s) (s_title s) (s_description s)
    (s_format s) (s_maxLength s) (s_readOnly s) (s_enum s) (s_default s)
    (s_minimum s) (s_maximum s) (s_items s) (s_properties s)
    (s_required s).

Definition upd_type v (s : SchemaObject) : SchemaObject :=
  MkSchema (s_ref s) (Some v) (s_title s) (s_description s) (s_format s)
    (s_maxLength s) (s_readOnly s) (s_enum s) (s_default s)
    (s_minimum s) (s_maximum s) (s_items s) (s_properties s)
    (s_required s).

Definition upd_title v (s : SchemaObject) : SchemaObject :=
  MkSchema (s_ref s) (s_type s) (Some v) (s_description s) (s_format s)
    (s_maxLength s) (s_readOnly s) (s_enum s) (s_default s)
    (s_minimum s) (s_maximum s) (s_items s) (s_properties s)
    (s_required s).

Definition upd_description v (s : SchemaObject) : SchemaObject :=
  MkSchema (s_ref s) (s_type s) (s_title s) (Some v) (s_format s)
    (s_maxLength s) (s_readOnly s) (s_enum s) (s_default s)
    (s_minimum s) (s_maximum s) (s_items s) (s_properties s)
    (s_required s).

Definition upd_format v (s : SchemaObject) : SchemaObject :=
  MkSchema (s_ref s) (s_type s) (s_title s) (s_description s) (Some v)
    (s_maxLength s) (s_readOnly s) (s_enum s) (s_default s)
    (s_minimum s) (s_maximum s) (s_items s) (s_properties s)
    (s_required s).

Definition upd_maxLength v (s : SchemaObject) : SchemaObject :=
  MkSchema (s_ref s) (s_type s) (s_title s) (s_description s)
    (s_format s) (Some v) (s_readOnly s) (s_enum s) (s_default s)
    (s_minimum s) (s_maximum s) (s_items s) (s_properties s)
    (s_required s).

Definition upd_readOnly v (s : SchemaObject) : SchemaObject :=
  MkSchema (s_ref s) (s_type s) (s_title s) (s_description s)
    (s_format s) (s_maxLength s) (Some v) (s_enum s) (s_default s)
    (s_minimum s) (s_maximum s) (s_items s) (s_properties s)
    (s_required s).

Definition upd_enum v (s : SchemaObject) : SchemaObject :=
  MkSchema (s_ref s) (s_type s) (s_title s) (s_description s)
    (s_format s) (s_maxLength s) (s_readOnly s) (Some v) (s_default s)
    (s_minimum s) (s_maximum s) (s_items s) (s_properties s)
    (s_required s).

Definition upd_default v (s : SchemaObject) : SchemaObject :=
  MkSchema (s_ref s) (s_type s) (s_title s) (s_description s)
    (s_format s) (s_maxLength s) (s_readOnly s) (s_enum s) (Some v)
    (s_minimum s) (s_maximum s) (s_items s) (s_properties s)
    (s_required s).

Definition upd_minimum v (s : SchemaObject) : SchemaObject :=
  MkSchema (s_ref s) (s_type s) (s_title s) (s_description s)
    (s_format s) (s_maxLength s) (s_readOnly s) (s_enum s) (s_default s)
    (Some v) (s_maximum s) (s_items s) (s_properties s) (s_required s).

Definition upd_maximum v (s : SchemaObject) : SchemaObject :=
  MkSchema (s_ref s) (s_type s) (s_title s) (s_description s)
    (s_format s) (s_maxLength s) (s_readOnly s) (s_enum s) (s_default s)
    (s_minimum s) (Some v) (s_items s) (s_properties s) (s_required s).

Definition upd_items v (s : SchemaObject) : SchemaObject :=
  MkSchema (s_ref s) (s_type s) (s_title s) (s_description s)
    (s_format s) (s_maxLength s) (s_readOnly s) (s_enum s) (s_default s)
    (s_minimum s) (s_maximum s) (Some v) (s_properties s) (s_required s).

Definition upd_properties v (s : SchemaObject) : SchemaObject :=
  MkSchema (s_ref s) (s_type s) (s_title s) (s_description s)
    (s_format s) (s_maxLength s) (s_readOnly s) (s_enum s) (s_default s)
    (s_minimum s) (s_maximum s) (s_items s) (Some v) (s_required s).

Definition upd_required v (s : SchemaObject) : SchemaObject :=
  MkSchema (s_ref s) (s_type s) (s_title s) (s_description s)
    (s_format s) (s_maxLength s) (s_readOnly s) (s_enum s) (s_default s)
    (s_minimum s) (s_maximum s) (s_items s) (s_properties s) (Some v).

Definition del_required (s : SchemaObject) : SchemaObject :=
  MkSchema (s_ref s) (s_type s) (s_title s) (s_description s)
    (s_format s) (s_maxLength s) (s_readOnly s) (s_enum s) (s_default s)
    (s_minimum s) (s_maximum s) (s_items s) (s_properties s) None.

Notation "s |> f" := (f s) (at level 45, left associativity, only parsing).

(** [cond && { ... }] spread into an object literal: the update is applied
    when the condition holds and nothing is added otherwise. *)
Definition when {A} (c : bool) (f : A → A) : A → A :=
  if c then f else id.

(** A [case] label list of a [switch], and [Array.prototype.includes]. *)
Definition one_of (s : string) (labels : list string) : bool :=
  existsb (Js.str_eq s) labels.

(** ** [utils/fieldTypeMapper.ts] *)

Definition baseSchema (field : KnackField) : SchemaObject :=
  emptySchema
  |> upd_title (field_name field)
  |> upd_description (field_name field +:+ " field").

Definition mapFieldTypeToSchema (field : KnackField) : SchemaObject :=
  let t := field_type field in
  if one_of t ["short_text"; "name"; "email"; "password";
               "paragraph_text"; "phone"; "address"] then
    baseSchema field
    |> upd_type "string"
    |> when (Js.str_eq t "email") (upd_format "email")
    |> when (Js.str_eq t "paragraph_text") (upd_maxLength 100000%Z)
  else if Js.str_eq t "number" then
    baseSchema field |> upd_type "number"
  else if Js.str_eq t "auto_increment" then
    baseSchema field |> upd_type "integer" |> upd_readOnly true
  else if Js.str_eq t "currency" then
    baseSchema field |> upd_type "number" |> upd_format "float"
  else if Js.str_eq t "date_time" then
    baseSchema field |> upd_type "string" |> upd_format "date-time"
  else if Js.str_eq t "multiple_choice" then
    match field_format field with
    | Some fmt =>
        match Json.prop fmt "options" with
        | Some options =>
            if Json.truthy fmt && Json.truthy options then
              baseSchema field
              |> upd_type "string"
              |> upd_enum options
              |> match Json.prop fmt "default" with
                 | Some d => when (Json.truthy d) (upd_default d)
                 | None => id
                 end
            else baseSchema field |> upd_type "string"
        | None => baseSchema field |> upd_type "string"
        end
    | None => baseSchema field |> upd_type "string"
    end
  else if Js.str_eq t "boolean" then
    baseSchema field |> upd_type "boolean"
  else if Js.str_eq t "connection" then
    match field_relationship field with
    | Some _ =>
        baseSchema field
        |> upd_type "string"
        |> upd_description ("Reference to a " +:+ field_name field +:+ " object")
        |> upd_format "uuid"
    | None => baseSchema field |> upd_type "string"
    end
  else if one_of t ["file"; "image"] then
    baseSchema field
    |> upd_type "string"
    |> upd_format "uri"
    |> upd_description ("URL to " +:+ t)
  else if Js.str_eq t "signature" then
    baseSchema field
    |> upd_type "string"
    |> upd_format "uri"
    |> upd_description "URL to signature image"
  else if Js.str_eq t "user_roles" then
    baseSchema field
    |> upd_type "array"
    |> upd_items (emptySchema |> upd_type "string")
    |> upd_description "List of user roles"
  else if Js.str_eq t "equation" then
    baseSchema field
    |> upd_type "number"
    |> upd_readOnly true
    |> upd_description "Calculated field value"
  else if Js.str_eq t "timer" then
    baseSchema field
    |> upd_type "number"
    |> upd_description "Timer value in seconds"
  else
    baseSchema field
    |> upd_type "string"
    |> upd_description ("Unknown field type: " +:+ t).

Definition shouldIncludeField (field : KnackField) : bool := true.

(** The members of [KnackFieldType]. *)
Definition KnackFieldTypes : list string :=
  ["short_text"; "name"; "email"; "password"; "auto_increment";
   "paragraph_text"; "number"; "currency"; "date_time"; "multiple_choice";
   "connection"; "address"; "user_roles"; "file"; "image"; "boolean";
   "phone"; "signature"; "equation"; "timer"].

(** ** Views and scenes ([types/knackSchema.ts], continued) *)

Record KnackFieldRef : Type := { ref_key : string }.

Record KnackColumnField : Type := {
  cf_key : option string;
  cf_name : option string;
}.

(** An entry of [KnackColumnGroup.columns]: one field or an array of
    fields. The extractor tolerates [null] in either place. *)
Inductive KnackColumnData : Type :=
| ColumnFields (fields : list (option KnackColumnField))
| ColumnField (field : option KnackColumnField).

Record KnackColumnGroup : Type := {
  cg_columns : option (list KnackColumnData);
}.

Record KnackViewColumn : Type := {
  col_type : string;
  col_field : option KnackFieldRef;
  col_groups : option (list KnackColumnGroup);
}.

Record KnackViewInput : Type := {
  input_key : option string;
  input_field : option KnackFieldRef;
}.

Record KnackViewField : Type := {
  vf_key : option string;
  vf_field : option string;
  vf_name : option string;
}.

Record KnackViewGroupColumn : Type := {
  gc_inputs : option (list KnackViewInput);
  gc_fields : option (list KnackViewField);
}.

Record KnackViewGroup : Type := {
  group_columns : option (list KnackViewGroupColumn);
}.

Record KnackViewResults : Type := {
  results_columns : option (list KnackViewColumn);
}.

Record KnackViewSource : Type := {
  source_object : string;
  source_authenticated_user : option bool;
}.

Record KnackView : Type := {
  view_key : string;
  view_name : string;
  view_type : string;
  view_title : option string;
  view_description : option string;
  view_source : option KnackViewSource;
  view_results : option KnackViewResults;
  view_columns : option (list KnackViewColumn);
  view_groups : option (list KnackViewGroup);
  view_allowed_profiles : option (list string);
  view_limit_profile_access : option bool;
  (** read through [(view as any).action] *)
  view_action : option string;
}.

Record KnackScene : Type := {
  scene_key : string;
  scene_name : string;
  scene_slug : string;
  scene_views : list KnackView;
  scene_parent : option string;
  scene_type : option string;
  scene_allowed_profiles : option (list string);
  scene_limit_profile_access : option bool;
  scene_authenticated : option bool;
}.

Record KnackApplication : Type := {
  app_name : string;
  app_objects : list KnackObject;
  app_scenes : list KnackScene;
}.

Record KnackSchema : Type := {
  application : KnackApplication;
  api_domain : option string;
  api_subdomain : option string;
}.

(** [x === true] on an optional boolean property. *)
Definition is_true (o : option bool) : bool :=
  match o with
  | Some true => true
  | _ => false
  end.

(** [a && Array.isArray(a) && a.length > 0]. *)
Definition non_empty_array {A} (o : option (list A)) : bool :=
  match o with
  | Some (_ :: _) => true
  | _ => false
  end.

(** [view.source?.object]: the object key, when the view has a source. *)
Definition source_object_of (view : KnackView) : option string :=
  source_object <$> view_source view.

(** [Array.prototype.find]. *)
Definition find {A} (p : A → bool) (l : list A) : option A := List.find p l.

(** ** [utils/viewSecurityAnalyzer.ts] *)

Inductive ViewSecurity : Type := PUBLIC | AUTHENTICATED.

Definition securityKeywords : list string :=
  ["profile"; "account"; "dashboard"; "admin"; "secure"; "private"].

Definition checkViewSecurity (view : KnackView) : option ViewSecurity :=
  if one_of (view_type view) ["login"; "register"; "password_reset"] then
    Some PUBLIC
  else if non_empty_array (view_allowed_profiles view) then
    Some AUTHENTICATED
  else if is_true (view_limit_profile_access view) then
    Some AUTHENTICATED
  else if
    match view_source view with
    | Some src => is_true (source_authenticated_user src)
    | None => false
    end
  then Some AUTHENTICATED
  else
    let viewText :=
      Js.toLowerCase
        (view_name view +:+ " " +:+ default "" (view_title view) +:+ " "
         +:+ default "" (view_description view)) in
    if existsb (fun keyword => Js.includes viewText keyword) securityKeywords
    then Some AUTHENTICATED
    else None.

Definition checkSceneSecurity (scene : KnackScene) : option ViewSecurity :=
  if is_true (scene_authenticated scene) then Some AUTHENTICATED
  else if
    match scene_type scene with
    | Some t => Js.str_eq t "authentication"
    | None => false
    end
  then Some PUBLIC
  else if non_empty_array (scene_allowed_profiles scene) then
    Some AUTHENTICATED
  else if is_true (scene_limit_profile_access scene) then
    Some AUTHENTICATED
  else
    let sceneNameLower := Js.toLowerCase (scene_name scene) in
    if existsb (fun keyword => Js.includes sceneNameLower keyword)
         securityKeywords
    then Some AUTHENTICATED
    else None.

(** The recursion of [checkParentScenesSecurity] follows the parent slugs
    and is not structural; [fuel] bounds the number of calls. The outer
    [None] is "fuel exhausted"; the inner option is the verdict, [None]
    being JavaScript's [null]. The mutable set [visited] is threaded
    through the calls. *)
Fixpoint checkParentScenesSecurity_walk (fuel : nat) (scene : KnackScene)
    (schema : KnackSchema) (visited : gset string)
    : option (option ViewSecurity) :=
  match fuel with
  | O => None
  | S fuel' =>
      match scene_parent scene with
      | None => Some None
      | Some parent =>
          if negb (Js.truthy parent) || bool_decide (parent ∈ visited) then
            Some None
          else
            let visited' := {[parent]} ∪ visited in
            match
              find (fun s => Js.str_eq (scene_slug s) parent)
                   (app_scenes (application schema))
            with
            | None => Some None
            | Some parentScene =>
                match checkSceneSecurity parentScene with
                | Some parentSecurity => Some (Some parentSecurity)
                | None =>
                    checkParentScenesSecurity_walk fuel' parentScene schema
                      visited'
                end
            end
      end
  end.

(** One call per scene of the application, and one more, is enough: the
    walk never runs out of this fuel (see [walk_enough_fuel] and
    [walk_result]), so that the [default] below is never used. *)
Definition checkParentScenesSecurity (scene : KnackScene)
    (schema : KnackSchema) : option ViewSecurity :=
  default None
    (checkParentScenesSecurity_walk
       (S (length (app_scenes (application schema)))) scene schema ∅).

Definition determineViewSecurity (view : KnackView) (scene : KnackScene)
    (schema : KnackSchema) : ViewSecurity :=
  match checkViewSecurity view with
  | Some viewSecurity => viewSecurity
  | None =>
      match checkSceneSecurity scene with
      | Some sceneSecurity => sceneSecurity
      | None =>
          match checkParentScenesSecurity scene schema with
          | Some parentSecurity => parentSecurity
          | None =>
              if one_of (view_type view)
                   ["landing"; "menu"; "search"; "rich_text"]
              then PUBLIC
              else AUTHENTICATED
          end
      end
  end.

(** ** [utils/pageHelpers.ts] *)

Definition isChildPage (scene : KnackScene) : bool :=
  Js.truthy_opt (scene_parent scene).

Definition isViewInChildPage (view : KnackView) (scene : KnackScene) : bool :=
  isChildPage scene.

Definition getSceneObjectKey (scene : KnackScene) : option string :=
  match
    find (fun view => Js.truthy_opt (source_object_of view))
         (scene_views scene)
  with
  | Some firstViewWithObject =>
      match source_object_of firstViewWithObject with
      | Some object => if Js.truthy object then Some object else None
      | None => None
      end
  | None => None
  end.

Definition getParentParamSlug (scene : KnackScene) (schema : KnackSchema)
    : option string :=
  if negb (isChildPage scene) then None
  else
    match scene_parent scene with
    | None => None (* not reached: a child page has a parent *)
    | Some parent =>
        match
          find (fun s => Js.str_eq (scene_slug s) parent)
               (app_scenes (application schema))
        with
        | Some parentScene =>
            match getSceneObjectKey parentScene with
            | Some parentObjectKey =>
                if Js.truthy parentObjectKey
                then Some (scene_slug parentScene +:+ "_id")
                else Some (parent +:+ "_id")
            | None => Some (parent +:+ "_id")
            end
        | None => Some (parent +:+ "_id")
        end
    end.

(** [obj.fields.some((field) => field.key === connectionKey)]. *)
Definition has_field_key (connectionKey : string) (obj : KnackObject) : bool :=
  existsb (fun field => Js.str_eq (field_key field) connectionKey)
          (object_fields obj).

Definition findObjectByConnectionKey (connectionKey : string)
    (schema : KnackSchema) : option KnackObject :=
  find (has_field_key connectionKey) (app_objects (application schema)).


(** ** [generators/viewsToComponents.ts] *)

(** [Set<string>] keeps its elements in insertion order, without
    duplicates; [Array.from] returns them in that order. *)
Definition set_add (k : string) (keys : list string) : list string :=
  if bool_decide (k ∈ keys) then keys else keys ++ [k].

(** [if (x?.key) fieldKeys.add(x.key)]: absent and empty keys are skipped. *)
Definition add_key (o : option string) (keys : list string) : list string :=
  match o with
  | Some k => if Js.truthy k then set_add k keys else keys
  | None => keys
  end.

(** [l.forEach(body)] over a state [s]; [l?.forEach(body)] and
    [if (l) l.forEach(body)] on an optional array. *)
Definition forEach {A S} (l : list A) (body : A → S → S) (s : S) : S :=
  foldl (fun acc x => body x acc) s l.

Definition forEach_opt {A S} (l : option (list A)) (body : A → S → S)
    (s : S) : S :=
  match l with
  | Some l => forEach l body s
  | None => s
  end.

Definition add_field_columns (columns : option (list KnackViewColumn))
    : list string → list string :=
  forEach_opt columns (fun column keys =>
    if Js.str_eq (col_type column) "field"
    then add_key (ref_key <$> col_field column) keys
    else keys).

Definition add_form_inputs (groups : option (list KnackViewGroup))
    : list string → list string :=
  forEach_opt groups (fun group =>
    forEach_opt (group_columns group) (fun column =>
      forEach_opt (gc_inputs column) (fun input keys =>
        if Js.truthy_opt (input_key input)
        then add_key (input_key input) keys
        else add_key (ref_key <$> input_field input) keys))).

(** Details, first shape: group, column, field list. *)
Definition add_details_groups (groups : option (list KnackViewGroup))
    : list string → list string :=
  forEach_opt groups (fun group =>
    forEach_opt (group_columns group) (fun column =>
      forEach_opt (gc_fields column) (fun field =>
        add_key (vf_key field)))).

(** Details, alternative shape: column, group, column data. *)
Definition add_column_data (columnData : KnackColumnData)
    : list string → list string :=
  match columnData with
  | ColumnFields fields =>
      forEach fields (fun field => add_key (field ≫= cf_key))
  | ColumnField field => add_key (field ≫= cf_key)
  end.

Definition add_details_columns (columns : option (list KnackViewColumn))
    : list string → list string :=
  forEach_opt columns (fun column =>
    forEach_opt (col_groups column) (fun group =>
      forEach_opt (cg_columns group) add_column_data)).

Definition add_search_filters (groups : option (list KnackViewGroup))
    : list string → list string :=
  forEach_opt groups (fun group =>
    forEach_opt (group_columns group) (fun column =>
      forEach_opt (gc_fields column) (fun field keys =>
        match vf_field field with
        | Some f =>
            if Js.truthy f && negb (Js.str_eq f "keyword_search")
            then set_add f keys
            else keys
        | None => keys
        end))).

Definition extractFieldKeysFromView (view : KnackView) : list string :=
  let t := view_type view in
  if Js.str_eq t "table" then
    [] |> add_field_columns (view_columns view)
  else if Js.str_eq t "form" then
    [] |> add_form_inputs (view_groups view)
  else if Js.str_eq t "details" then
    []
    |> add_details_groups (view_groups view)
    |> add_details_columns (view_columns view)
  else if Js.str_eq t "search" then
    []
    |> add_field_columns (view_results view ≫= results_columns)
    |> add_search_filters (view_groups view)
  else [].

(** [field.relationship?.object], as a string that may be empty. *)
Definition relationship_object (field : KnackField) : option string :=
  rel_object <$> field_relationship field.

Definition findFieldByKey (fieldKey : string) (sourceObject : KnackObject)
    (schema : KnackSchema) : option KnackField :=
  match
    find (fun field => Js.str_eq (field_key field) fieldKey)
         (object_fields sourceObject)
  with
  | Some directField => Some directField
  | None =>
      match
        find (fun field =>
                Js.str_eq (field_type field) "connection"
                && Js.truthy_opt (relationship_object field))
             (object_fields sourceObject)
      with
      | Some connectionField =>
          match relationship_object connectionField with
          | Some target =>
              if Js.truthy target then
                match
                  find (fun obj => Js.str_eq (object_key obj) target)
                       (app_objects (application schema))
                with
                | Some connectedObject =>
                    find (fun field => Js.str_eq (field_key field) fieldKey)
                         (object_fields connectedObject)
                | None => None
                end
              else None
          | None => None
          end
      | None => None
      end
  end.

(** [schema.properties[k] = v] and [schema.required.push(k)], each under
    the source's guard that the key is there. *)
Definition add_property (k : string) (v : SchemaObject) (s : SchemaObject)
    : SchemaObject :=
  match s_properties s with
  | Some props => upd_properties (<[k := v]> props) s
  | None => s
  end.

Definition push_required (k : string) (s : SchemaObject) : SchemaObject :=
  match s_required s with
  | Some req => upd_required (req ++ [k]) s
  | None => s
  end.

(** [if (schema.required && schema.required.length === 0)
     delete schema.required]. *)
Definition drop_empty_required (s : SchemaObject) : SchemaObject :=
  match s_required s with
  | Some [] => del_required s
  | _ => s
  end.

(** [obj.key === view.source?.object]. *)
Definition is_source_of (view : KnackView) (obj : KnackObject) : bool :=
  match source_object_of view with
  | Some k => Js.str_eq (object_key obj) k
  | None => false
  end.

Definition generateViewSchema (view : KnackView) (scene : KnackScene)
    (schema : KnackSchema) : option SchemaObject :=
  match find (is_source_of view) (app_objects (application schema)) with
  | None => None
  | Some sourceObject =>
      let fieldKeys := extractFieldKeysFromView view in
      if (length fieldKeys =? 0)%nat then None
      else
        let viewSchema :=
          emptySchema
          |> upd_type "object"
          |> upd_title (view_name view +:+ " in " +:+ scene_name scene)
          |> upd_description
               ("Schema for " +:+ view_name view +:+ " view in "
                +:+ scene_name scene)
          |> upd_properties ∅
          |> upd_required [] in
        let viewSchema :=
          forEach fieldKeys (fun fieldKey viewSchema =>
            match findFieldByKey fieldKey sourceObject schema with
            | Some field =>
                if shouldIncludeField field then
                  viewSchema
                  |> add_property (field_key field)
                       (mapFieldTypeToSchema field)
                  |> when (field_required field)
                       (push_required (field_key field))
                else viewSchema
            | None => viewSchema
            end) viewSchema in
        if (size (default ∅ (s_properties viewSchema)) =? 0)%nat then None
        else Some (drop_empty_required viewSchema)
  end.

Definition generateViewComponents (schema : KnackSchema)
    : gmap string SchemaObject :=
  forEach (app_scenes (application schema)) (fun scene =>
    forEach (scene_views scene) (fun view schemas =>
      if negb (Js.truthy_opt (source_object_of view)) then schemas
      else
        match generateViewSchema view scene schema with
        | Some viewSchema =>
            <[ "view_" +:+ scene_slug scene +:+ "_" +:+ view_key view
               := viewSchema ]> schemas
        | None => schemas
        end)) ∅.

(** ** [generators/objectsToComponents.ts] *)

Definition objectToSchema (obj : KnackObject) : string * SchemaObject :=
  let schema :=
    emptySchema
    |> upd_type "object"
    |> upd_title (object_name obj)
    |> upd_description (singular (object_inflections obj) +:+ " object")
    |> upd_properties ∅
    |> upd_required [] in
  let schema :=
    forEach (object_fields obj) (fun field schema =>
      if negb (shouldIncludeField field) then schema
      else
        schema
        |> add_property (field_key field) (mapFieldTypeToSchema field)
        |> when (field_required field) (push_required (field_key field)))
      schema in
  (object_key obj, drop_empty_required schema).

(** The [schemas] of the components object the source returns. *)
Definition generateComponents (schema : KnackSchema)
    : gmap string SchemaObject :=
  forEach (app_objects (application schema)) (fun obj schemas =>
    let schemaObject := objectToSchema obj in
    <[ schemaObject.1 := schemaObject.2 ]> schemas) ∅.

(** ** Paths and operations of the output document *)

Record ParameterObject : Type := {
  param_name : string;
  param_in : string;
  param_description : string;
  param_schema : SchemaObject;
  param_required : bool;
}.

Inductive ParameterOrRef : Type :=
| Parameter_ (p : ParameterObject)
| ParameterRef (ref : string).

Record MediaTypeObject : Type := { media_schema : SchemaObject }.

Record ResponseObject : Type := {
  response_description : string;
  response_content : option (gmap string MediaTypeObject);
}.

Record RequestBodyObject : Type := {
  body_description : string;
  body_required : bool;
  body_content : gmap string MediaTypeObject;
}.

Record OperationObject : Type := {
  op_summary : string;
  op_description : string;
  op_operationId : string;
  op_tags : list string;
  op_parameters : option (list ParameterOrRef);
  op_requestBody : option RequestBodyObject;
  op_responses : gmap string ResponseObject;
  (** a list of security requirements, each from scheme name to scopes *)
  op_security : list (gmap string (list string));
}.

Record PathItemObject : Type := {
  path_get : option OperationObject;
  path_put : option OperationObject;
  path_post : option OperationObject;
  path_delete : option OperationObject;
}.

Definition emptyPathItem : PathItemObject :=
  {| path_get := None; path_put := None; path_post := None;
     path_delete := None |}.

Definition json_content (schema : SchemaObject)
    : gmap string MediaTypeObject :=
  {[ "application/json" := {| media_schema := schema |} ]}.

Definition plain_response (description : string) : ResponseObject :=
  {| response_description := description; response_content := None |}.

Definition json_response (description : string) (schema : SchemaObject)
    : ResponseObject :=
  {| response_description := description;
     response_content := Some (json_content schema) |}.

Definition schema_ref (ref : string) : SchemaObject :=
  emptySchema |> upd_ref ref.

(** [operation.operationId = id]. *)
Definition set_operationId (id : string) (op : OperationObject)
    : OperationObject :=
  {| op_summary := op_summary op; op_description := op_description op;
     op_operationId := id; op_tags := op_tags op;
     op_parameters := op_parameters op; op_requestBody := op_requestBody op;
     op_responses := op_responses op; op_security := op_security op |}.

(** [Object.assign(target, source)] and the spread [{...target, ...source}]:
    the keys of [source] win. *)
Definition assign {V} (source target : gmap string V) : gmap string V :=
  source ∪ target.

(** ** [generators/paginationToComponents.ts] *)

Definition createPaginatedResponseSchema (itemSchemaRef : string)
    : SchemaObject :=
  emptySchema
  |> upd_type "object"
  |> upd_properties
       {[ "records" :=
            emptySchema |> upd_type "array"
            |> upd_items (schema_ref itemSchemaRef);
          "total_pages" := emptySchema |> upd_type "integer";
          "total_records" := emptySchema |> upd_type "integer";
          "current_page" := emptySchema |> upd_type "integer" ]}.

Definition generatePaginationParameters : gmap string ParameterObject :=
  {[ "page" :=
       {| param_name := "page"; param_in := "query";
          param_description := "Page number to retrieve";
          param_schema :=
            emptySchema |> upd_type "integer" |> upd_default (JNum 1)
            |> upd_minimum 1%Z;
          param_required := false |};
     "rowsPerPage" :=
       {| param_name := "rows_per_page"; param_in := "query";
          param_description := "Number of records per page";
          param_schema :=
            emptySchema |> upd_type "integer" |> upd_default (JNum 25)
            |> upd_minimum 1%Z |> upd_maximum 1000%Z;
          param_required := false |};
     "sortField" :=
       {| param_name := "sort_field"; param_in := "query";
          param_description := "Field to sort by";
          param_schema := emptySchema |> upd_type "string";
          param_required := false |};
     "sortOrder" :=
       {| param_name := "sort_order"; param_in := "query";
          param_description := "Sort direction";
          param_schema :=
            emptySchema |> upd_type "string"
            |> upd_enum (JArr [JStr "asc"; JStr "desc"])
            |> upd_default (JStr "asc");
          param_required := false |} ]}.

Definition described (type description : string) : SchemaObject :=
  emptySchema |> upd_type type |> upd_description description.

Definition generatePaginationResponseSchemas : gmap string SchemaObject :=
  {[ "PaginationMeta" :=
       described "object" "Pagination metadata for list responses"
       |> upd_properties
            {[ "total_pages" :=
                 described "integer" "Total number of pages available";
               "total_records" :=
                 described "integer"
                   "Total number of records across all pages";
               "current_page" := described "integer" "Current page number" ]};
     "PaginatedResponse" :=
       described "object" "Standard response format for paginated results"
       |> upd_properties
            {[ "records" :=
                 described "array" "Array of records for the current page"
                 |> upd_items
                      (described "object" "Record data (varies by endpoint)");
               "total_pages" :=
                 described "integer" "Total number of pages available";
               "total_records" :=
                 described "integer"
                   "Total number of records across all pages";
               "current_page" := described "integer" "Current page number" ]}
  ]}.

(** ** [generators/objectsToPaths.ts] *)

Definition formatObjectNameForOperationId (name : string) : string :=
  Js.removeSpaces (Js.removeNonAlnum name).

Definition generateUnauthorizedResponse : ResponseObject :=
  plain_response "Unauthorized - Missing or invalid API key".

Definition apiKeyOnly : list (gmap string (list string)) :=
  [ {[ "apiKey" := [] ]} ].

Definition apiKeyAndRest : list (gmap string (list string)) :=
  [ {[ "apiKey" := []; "apiKeyRest" := [] ]} ].

Definition object_ref (obj : KnackObject) : SchemaObject :=
  schema_ref ("#/components/schemas/" +:+ object_key obj).

Definition idParameter (description : string) : ParameterOrRef :=
  Parameter_
    {| param_name := "id"; param_in := "path";
       param_description := description;
       param_schema := emptySchema |> upd_type "string";
       param_required := true |}.

Section ObjectOperations.
Variable obj : KnackObject.

Let one := singular (object_inflections obj).
Let many := plural (object_inflections obj).
Let opId (action : string) : string :=
  object_key obj +:+ "_" +:+ action
  +:+ formatObjectNameForOperationId (object_name obj).

Definition generateObjectSchemaOperation : OperationObject :=
  {| op_summary := "Get " +:+ one +:+ " Structure";
     op_description := "Retrieves the structure definition for " +:+ one;
     op_operationId := opId "getStructure";
     op_tags := [object_name obj; "Builder"];
     op_parameters := None;
     op_requestBody := None;
     op_responses :=
       {[ "200" :=
            json_response ("The structure definition for " +:+ one)
              (object_ref obj);
          "401" := generateUnauthorizedResponse ]};
     op_security := apiKeyOnly |}.

Definition generateListOperation : OperationObject :=
  {| op_summary := "List " +:+ many;
     op_description := "Retrieves a list of " +:+ many;
     op_operationId := opId "list";
     op_tags := [object_name obj];
     op_parameters :=
       Some [ ParameterRef "#/components/parameters/page";
              ParameterRef "#/components/parameters/rowsPerPage";
              ParameterRef "#/components/parameters/sortField";
              ParameterRef "#/components/parameters/sortOrder" ];
     op_requestBody := None;
     op_responses :=
       {[ "200" :=
            json_response ("A list of " +:+ many)
              (createPaginatedResponseSchema
                 ("#/components/schemas/" +:+ object_key obj));
          "401" := generateUnauthorizedResponse ]};
     op_security := apiKeyAndRest |}.

Definition generateGetOperation : OperationObject :=
  {| op_summary := "Get " +:+ one;
     op_description := "Retrieves a specific " +:+ one +:+ " by ID";
     op_operationId := opId "get";
     op_tags := [object_name obj];
     op_parameters :=
       Some [ idParameter ("ID of the " +:+ one +:+ " to retrieve") ];
     op_requestBody := None;
     op_responses :=
       {[ "200" := json_response ("The requested " +:+ one) (object_ref obj);
          "401" := generateUnauthorizedResponse;
          "404" := plain_response "Record not found" ]};
     op_security := apiKeyAndRest |}.

Definition generateCreateOperation : OperationObject :=
  {| op_summary := "Create " +:+ one;
     op_description := "Creates a new " +:+ one;
     op_operationId := opId "create";
     op_tags := [object_name obj];
     op_parameters := None;
     op_requestBody :=
       Some {| body_description := one +:+ " to create";
               body_required := true;
               body_content := json_content (object_ref obj) |};
     op_responses :=
       {[ "201" := json_response ("The created " +:+ one) (object_ref obj);
          "400" := plain_response "Invalid input";
          "401" := generateUnauthorizedResponse ]};
     op_security := apiKeyAndRest |}.

Definition generateUpdateOperation : OperationObject :=
  {| op_summary := "Update " +:+ one;
     op_description := "Updates an existing " +:+ one;
     op_operationId := opId "update";
     op_tags := [object_name obj];
     op_parameters :=
       Some [ idParameter ("ID of the " +:+ one +:+ " to update") ];
     op_requestBody :=
       Some {| body_description := "Updated " +:+ one +:+ " data";
               body_required := true;
               body_content := json_content (object_ref obj) |};
     op_responses :=
       {[ "200" := json_response ("The updated " +:+ one) (object_ref obj);
          "400" := plain_response "Invalid input";
          "401" := generateUnauthorizedResponse;
          "404" := plain_response "Record not found" ]};
     op_security := apiKeyAndRest |}.

Definition generateDeleteOperation : OperationObject :=
  {| op_summary := "Delete " +:+ one;
     op_description := "Deletes a " +:+ one;
     op_operationId := opId "delete";
     op_tags := [object_name obj];
     op_parameters :=
       Some [ idParameter ("ID of the " +:+ one +:+ " to delete") ];
     op_requestBody := None;
     op_responses :=
       {[ "204" := plain_response "Successfully deleted";
          "401" := generateUnauthorizedResponse;
          "404" := plain_response "Record not found" ]};
     op_security := apiKeyAndRest |}.

Definition generateListRecordsOperation : OperationObject :=
  set_operationId (opId "listRecords") generateListOperation.
Definition generateCreateRecordOperation : OperationObject :=
  set_operationId (opId "createRecord") generateCreateOperation.
Definition generateGetRecordOperation : OperationObject :=
  set_operationId (opId "getRecord") generateGetOperation.
Definition generateUpdateRecordOperation : OperationObject :=
  set_operationId (opId "updateRecord") generateUpdateOperation.
Definition generateDeleteRecordOperation : OperationObject :=
  set_operationId (opId "deleteRecord") generateDeleteOperation.

(** Each assignment [paths[p] = {...paths[p], m: op}] rebuilds the path
    item at [p] from the one already there. *)
Definition with_get op (item : PathItemObject) : PathItemObject :=
  {| path_get := Some op; path_put := path_put item;
     path_post := path_post item; path_delete := path_delete item |}.
Definition with_put op (item : PathItemObject) : PathItemObject :=
  {| path_get := path_get item; path_put := Some op;
     path_post := path_post item; path_delete := path_delete item |}.
Definition with_post op (item : PathItemObject) : PathItemObject :=
  {| path_get := path_get item; path_put := path_put item;
     path_post := Some op; path_delete := path_delete item |}.
Definition with_delete op (item : PathItemObject) : PathItemObject :=
  {| path_get := path_get item; path_put := path_put item;
     path_post := path_post item; path_delete := Some op |}.

(** [{...paths[p], m: op}]: spreading an absent item adds nothing. *)
Definition extend (paths : gmap string PathItemObject) (p : string)
    (f : PathItemObject → PathItemObject) : gmap string PathItemObject :=
  <[ p := f (default emptyPathItem (paths !! p)) ]> paths.

Definition generatePathsForObject : gmap string PathItemObject :=
  let basePath := "/objects/" +:+ object_key obj in
  let recordsPath := basePath +:+ "/records" in
  let paths : gmap string PathItemObject := ∅ in
  let paths :=
    <[ basePath := with_get generateObjectSchemaOperation emptyPathItem ]>
      paths in
  let paths :=
    <[ recordsPath := with_get generateListRecordsOperation emptyPathItem ]>
      paths in
  let paths :=
    extend paths recordsPath (with_post generateCreateRecordOperation) in
  let paths :=
    <[ recordsPath +:+ "/{id}" :=
         with_get generateGetRecordOperation emptyPathItem ]> paths in
  let paths :=
    extend paths (recordsPath +:+ "/{id}")
      (with_put generateUpdateRecordOperation) in
  let paths :=
    extend paths (recordsPath +:+ "/{id}")
      (with_delete generateDeleteRecordOperation) in
  paths.

End ObjectOperations.

Definition generateObjectPaths (schema : KnackSchema)
    : gmap string PathItemObject :=
  forEach (app_objects (application schema)) (fun obj paths =>
    assign (generatePathsForObject obj) paths) ∅.

(** ** [generators/viewsToPaths.ts] *)

Definition formatNameForOperationId (name : string) : string :=
  Js.removeSpaces (Js.removeNonAlnum name).

Definition createParentIdParameter (parentParamSlug sceneName : string)
    : ParameterObject :=
  {| param_name := parentParamSlug;
     param_in := "query";
     param_description :=
       "ID of the parent record for this " +:+ sceneName +:+ " view";
     param_schema := emptySchema |> upd_type "string";
     param_required := true |}.

(** [...(isChildPageView && parentParamSlug ? [createParentIdParameter(..)]
    : [])]. *)
Definition parentIdParameters (isChildPageView : bool)
    (parentParamSlug : option string) (sceneName : string)
    : list ParameterOrRef :=
  if isChildPageView && Js.truthy_opt parentParamSlug then
    match parentParamSlug with
    | Some slug => [Parameter_ (createParentIdParameter slug sceneName)]
    | None => []
    end
  else [].

(** The tag of a view operation: the name of the source object, or the
    scene's own tag when the object is not found. *)
Definition viewTagName (view : KnackView) (scene : KnackScene)
    (schema : KnackSchema) : string :=
  match find (is_source_of view) (app_objects (application schema)) with
  | Some sourceObject => object_name sourceObject
  | None => "View: " +:+ scene_name scene
  end.

(** [if (security === ViewSecurity.AUTHENTICATED) { ... }], the same in
    the three operation generators. *)
Definition requireAuthentication (security : ViewSecurity)
    (operation : OperationObject) : OperationObject :=
  match security with
  | AUTHENTICATED =>
      {| op_summary := op_summary operation;
         op_description := op_description operation;
         op_operationId := op_operationId operation;
         op_tags := op_tags operation;
         op_parameters := op_parameters operation;
         op_requestBody := op_requestBody operation;
         op_responses :=
           <[ "401" := plain_response "Unauthorized - Authentication required" ]>
             (op_responses operation);
         op_security := [ {[ "apiKey" := []; "viewAuth" := [] ]} ] |}
  | PUBLIC => operation
  end.

Definition createdIdSchema (description : string) : SchemaObject :=
  emptySchema
  |> upd_type "object"
  |> upd_properties {[ "id" := described "string" description ]}.

Section ViewOperations.
Variables (view : KnackView) (scene : KnackScene) (schema : KnackSchema).
Variables (security : ViewSecurity) (viewSchemaRef : string).
Variables (isChildPageView : bool) (parentParamSlug : option string).

Definition generateViewGetOperation : OperationObject :=
  let isDetailsView := Js.str_eq (view_type view) "details" in
  requireAuthentication security
    {| op_summary := "Access " +:+ view_name view +:+ " records";
       op_description :=
         "Retrieves records from " +:+ view_name view +:+ " view in "
         +:+ scene_name scene +:+ ". "
         +:+ (if isDetailsView then "Returns a single record."
              else if isChildPageView
                   then "Returns a list of records filtered by the parent ID."
                   else "Returns a list of records.");
       op_operationId :=
         view_key view +:+ "_access"
         +:+ formatNameForOperationId (view_name view);
       op_tags := [viewTagName view scene schema];
       op_parameters :=
         Some (parentIdParameters isChildPageView parentParamSlug
                 (scene_name scene)
               ++ (if negb isDetailsView
                   then [ ParameterRef "#/components/parameters/page";
                          ParameterRef "#/components/parameters/rowsPerPage" ]
                   else []))%list;
       op_requestBody := None;
       op_responses :=
         {[ "200" :=
              json_response ("Records from " +:+ view_name view)
                (if isDetailsView then schema_ref viewSchemaRef
                 else createPaginatedResponseSchema viewSchemaRef) ]};
       op_security := apiKeyOnly |}.

Definition generateViewPostOperation : OperationObject :=
  requireAuthentication security
    {| op_summary := "Submit " +:+ view_name view;
       op_description :=
         "Submits data to " +:+ view_name view +:+ " form in "
         +:+ scene_name scene;
       op_operationId :=
         view_key view +:+ "_submit"
         +:+ formatNameForOperationId (view_name view);
       op_tags := [viewTagName view scene schema];
       op_parameters :=
         Some (parentIdParameters isChildPageView parentParamSlug
                 (scene_name scene));
       op_requestBody :=
         Some {| body_description := "Data to submit to " +:+ view_name view;
                 body_required := true;
                 body_content := json_content (schema_ref viewSchemaRef) |};
       op_responses :=
         {[ "201" :=
              json_response "Successfully submitted"
                (createdIdSchema "ID of the created record");
            "400" := plain_response "Invalid input" ]};
       op_security := apiKeyOnly |}.

Definition generateViewPutOperation : OperationObject :=
  requireAuthentication security
    {| op_summary := "Update " +:+ view_name view;
       op_description :=
         "Updates data through " +:+ view_name view +:+ " form in "
         +:+ scene_name scene;
       op_operationId :=
         view_key view +:+ "_update"
         +:+ formatNameForOperationId (view_name view);
       op_tags := [viewTagName view scene schema];
       op_parameters :=
         Some (parentIdParameters isChildPageView parentParamSlug
                 (scene_name scene));
       op_requestBody :=
         Some {| body_description := "Data to update in " +:+ view_name view;
                 body_required := true;
                 body_content := json_content (schema_ref viewSchemaRef) |};
       op_responses :=
         {[ "200" :=
              json_response "Successfully updated"
                (createdIdSchema "ID of the updated record");
            "400" := plain_response "Invalid input" ]};
       op_security := apiKeyOnly |}.

End ViewOperations.

(** The key under which a view's operation is filed. *)
Definition viewRecordsPath (view : KnackView) (scene : KnackScene) : string :=
  "/scenes/" +:+ scene_key scene +:+ "/views/" +:+ view_key view
  +:+ "/records".

Definition generatePathsForView (view : KnackView) (scene : KnackScene)
    (schema : KnackSchema) : gmap string PathItemObject :=
  if negb (Js.truthy_opt (source_object_of view)) then ∅
  else
    let isChildPageView := isViewInChildPage view scene in
    let parentParamSlug :=
      if isChildPageView then getParentParamSlug scene schema else None in
    let recordsPath := viewRecordsPath view scene in
    let security := determineViewSecurity view scene schema in
    let viewSchemaRef :=
      "#/components/schemas/view_" +:+ scene_slug scene +:+ "_"
      +:+ view_key view in
    if Js.str_eq (view_type view) "form" then
      let isUpdateForm :=
        match view_action view with
        | Some action => Js.str_eq action "update"
        | None => false
        end in
      if isUpdateForm then
        {[ recordsPath :=
             with_put
               (generateViewPutOperation view scene schema security
                  viewSchemaRef isChildPageView parentParamSlug)
               emptyPathItem ]}
      else
        {[ recordsPath :=
             with_post
               (generateViewPostOperation view scene schema security
                  viewSchemaRef isChildPageView parentParamSlug)
               emptyPathItem ]}
    else
      {[ recordsPath :=
           with_get
             (generateViewGetOperation view scene schema security
                viewSchemaRef isChildPageView parentParamSlug)
             emptyPathItem ]}.

Definition generateViewPaths (schema : KnackSchema)
    : gmap string PathItemObject :=
  forEach (app_scenes (application schema)) (fun scene =>
    forEach (scene_views scene) (fun view paths =>
      if negb (Js.truthy_opt (source_object_of view)) then paths
      else assign (generatePathsForView view scene schema) paths)) ∅.

(** ** [generators/securitySchemes.ts] *)

Record SecuritySchemeObject : Type := {
  scheme_type : string;
  scheme_in : string;
  scheme_name : string;
  scheme_description : string;
}.

Definition generateSecuritySchemes : gmap string SecuritySchemeObject :=
  {[ "apiKey" :=
       {| scheme_type := "apiKey"; scheme_in := "header";
          scheme_name := "X-Knack-Application-Id";
          scheme_description :=
            "API key for object-based operations. Required for all object-based endpoints." |};
     "apiKeyRest" :=
       {| scheme_type := "apiKey"; scheme_in := "header";
          scheme_name := "X-Knack-REST-API-Key";
          scheme_description :=
            "REST API key for authenticated operations. Required along with the Application ID." |};
     "viewAuth" :=
       {| scheme_type := "apiKey"; scheme_in := "header";
          scheme_name := "Authorization";
          scheme_description :=
            "Bearer token for view-based operations when accessing secure views. Format: 'Bearer {token}'" |} ]}.

(** ** The assembling part of [index.ts] *)

Definition documentPaths (knackSchema : KnackSchema)
    : gmap string PathItemObject :=
  ∅ |> assign (generateObjectPaths knackSchema)
    |> assign (generateViewPaths knackSchema).

Definition documentSchemas (knackSchema : KnackSchema)
    : gmap string SchemaObject :=
  ∅ |> assign (generateComponents knackSchema)
    |> assign (generateViewComponents knackSchema)
    |> assign generatePaginationResponseSchemas.

(** The rest of the document that [generateOpenApi] builds before it writes
    the files: the tags (one for the objects, one per scene) and the
    components. *)
Record TagObject : Type := {
  tag_name : string;
  tag_description : string;
}.

Definition documentTags (knackSchema : KnackSchema) : list TagObject :=
  {| tag_name := "Objects";
     tag_description :=
       "Object-based API endpoints with full access to data" |}
  :: map (fun scene =>
            {| tag_name := "View: " +:+ scene_name scene;
               tag_description :=
                 "Endpoints for " +:+ scene_name scene +:+ " views" |})
         (app_scenes (application knackSchema)).

Definition documentParameters : gmap string ParameterObject :=
  ∅ |> assign generatePaginationParameters.

Definition documentSecuritySchemes : gmap string SecuritySchemeObject :=
  generateSecuritySchemes.

(** * Vocabulary of the properties *)

(** The types of the views that are public by nature. *)
Definition login_types : list string := ["login"; "register"; "password_reset"].

(** The scenes whose slug the walk over the parents has not marked yet:
    the measure that decreases at every recursive call. *)
Definition unvisited (schema : KnackSchema) (visited : gset string) : nat :=
  length (filter (fun s => scene_slug s ∉ visited)
            (app_scenes (application schema))).

(** The scenes the walk can look at from [scene]: its parent, looked up by
    slug, and so on. *)
Inductive ancestor (schema : KnackSchema) : KnackScene → KnackScene → Prop :=
| ancestor_parent scene parent parentScene :
    scene_parent scene = Some parent →
    find (fun s => Js.str_eq (scene_slug s) parent)
         (app_scenes (application schema)) = Some parentScene →
    ancestor schema scene parentScene
| ancestor_step scene middle top :
    ancestor schema scene middle → ancestor schema middle top →
    ancestor schema scene top.

(** The one hop of the field resolver: the connection-typed field of the
    source object that carries a relationship target, and the target's field
    of the key that is looked up. *)
Definition connectedField (fieldKey : string) (sourceObject : KnackObject)
    (schema : KnackSchema) : option KnackField :=
  connectionField ←
    find (fun field =>
            Js.str_eq (field_type field) "connection"
            && Js.truthy_opt (relationship_object field))
         (object_fields sourceObject);
  target ← relationship_object connectionField;
  connectedObject ←
    find (fun obj => Js.str_eq (object_key obj) target)
         (app_objects (application schema));
  find (fun field => Js.str_eq (field_key field) fieldKey)
       (object_fields connectedObject).

(** The parent-slug chain of the application has a cycle: some scene of
    the application is its own ancestor. *)
Definition cyclic (schema : KnackSchema) : Prop :=
  ∃ s, s ∈ app_scenes (application schema) ∧ ancestor schema s s.

(** Adding a sequence of optional keys, one after the other. *)
Definition add_keys (ks : list (option string)) : list string → list string :=
  forEach ks add_key.

(** The field keys a details view lists, entry by entry, in each of its two
    shapes; an entry without a key (or [null]) counts as [None]. *)
Definition details_group_keys (groups : option (list KnackViewGroup))
    : list (option string) :=
  flat_map (fun group =>
    flat_map (fun column => map vf_key (default [] (gc_fields column)))
             (default [] (group_columns group)))
    (default [] groups).

Definition column_data_keys (columnData : KnackColumnData)
    : list (option string) :=
  match columnData with
  | ColumnFields fields => map (fun field => field ≫= cf_key) fields
  | ColumnField field => [field ≫= cf_key]
  end.

Definition details_column_keys (columns : option (list KnackViewColumn))
    : list (option string) :=
  flat_map (fun column =>
    flat_map (fun group =>
                flat_map column_data_keys (default [] (cg_columns group)))
             (default [] (col_groups column)))
    (default [] columns).

(** A schema carries a non-empty [required] list or no [required] key. *)
Definition required_ok (s : SchemaObject) : Prop := s_required s ≠ Some [].

(** The operations a path item carries, by method. *)
Definition operations (item : PathItemObject)
    : list (string * OperationObject) :=
  omap id [ pair "get" <$> path_get item;
            pair "put" <$> path_put item;
            pair "post" <$> path_post item;
            pair "delete" <$> path_delete item ].

(** What is required of the operation emitted for a view: the application-id
    scheme, the bearer token and the 401 response of an authenticated view,
    the parent parameter of a child page. *)
Definition view_operation_ok (view : KnackView) (scene : KnackScene)
    (schema : KnackSchema) (op : OperationObject) : Prop :=
  (∃ requirement,
      op_security op = [requirement] ∧ requirement !! "apiKey" = Some []
      ∧ (determineViewSecurity view scene schema = AUTHENTICATED →
         requirement !! "viewAuth" = Some []))
  ∧ (determineViewSecurity view scene schema = AUTHENTICATED →
     is_Some (op_responses op !! "401"))
  ∧ (isViewInChildPage view scene = true →
     ∃ name parameter,
       getParentParamSlug scene schema = Some name
       ∧ Parameter_ parameter ∈ default [] (op_parameters op)
       ∧ param_name parameter = name
       ∧ param_in parameter = "query"
       ∧ param_required parameter = true).

(** The characters that [/[^a-zA-Z0-9]/] keeps. *)
Definition is_alnum (c : ascii) : bool :=
  Js.is_upper c || Js.is_lower c || Js.is_digit c.

(** The six operations of an object, in the order [generatePathsForObject]
    files them. *)
Definition objectOperations (obj : KnackObject) : list OperationObject :=
  [ generateObjectSchemaOperation obj;
    generateListRecordsOperation obj;
    generateCreateRecordOperation obj;
    generateGetRecordOperation obj;
    generateUpdateRecordOperation obj;
    generateDeleteRecordOperation obj ].

(** The three operations [generatePathsForView] chooses from, with the
    arguments it passes. *)
Definition viewOperations (view : KnackView) (scene : KnackScene)
    (schema : KnackSchema) : list OperationObject :=
  let isChildPageView := isViewInChildPage view scene in
  let parentParamSlug :=
    if isChildPageView then getParentParamSlug scene schema else None in
  let security := determineViewSecurity view scene schema in
  let viewSchemaRef :=
    "#/components/schemas/view_" +:+ scene_slug scene +:+ "_"
    +:+ view_key view in
  [ generateViewGetOperation view scene schema security viewSchemaRef
      isChildPageView parentParamSlug;
    generateViewPostOperation view scene schema security viewSchemaRef
      isChildPageView parentParamSlug;
    generateViewPutOperation view scene schema security viewSchemaRef
      isChildPageView parentParamSlug ].

(** An operation of the output document: filed under some path and method
    of [documentPaths]. *)
Definition emitted (schema : KnackSchema) (op : OperationObject) : Prop :=
  ∃ path item method,
    documentPaths schema !! path = Some item
    ∧ (method, op) ∈ operations item.

(** A key without the path separator. *)
Definition slash_free (key : string) : Prop :=
  "/"%char ∉ list_ascii_of_string key.


(** The key a table or result column contributes: that of its field, when
    the column is of type "field". *)
Definition column_key (column : KnackViewColumn) : option string :=
  if Js.str_eq (col_type column) "field"
  then ref_key <$> col_field column
  else None.

(** The key a form input contributes: its own [key] when that is set and
    not empty, otherwise the key of its [field]. *)
Definition input_key_of (input : KnackViewInput) : option string :=
  if Js.truthy_opt (input_key input)
  then input_key input
  else ref_key <$> input_field input.

(** The key a search filter contributes: its [field], unless that is the
    pseudo-field of the keyword search. *)
Definition filter_key (field : KnackViewField) : option string :=
  match vf_field field with
  | Some f => if Js.str_eq f "keyword_search" then None else Some f
  | None => None
  end.

(** The entries of the nested groups of a view: its inputs (forms) and its
    fields (details, search filters), in order. *)
Definition group_inputs (groups : option (list KnackViewGroup))
    : list KnackViewInput :=
  flat_map (fun group =>
    flat_map (fun column => default [] (gc_inputs column))
             (default [] (group_columns group)))
    (default [] groups).

Definition group_fields (groups : option (list KnackViewGroup))
    : list KnackViewField :=
  flat_map (fun group =>
    flat_map (fun column => default [] (gc_fields column))
             (default [] (group_columns group)))
    (default [] groups).

(** The keys a view lists, entry by entry and in the order in which the
    extractor walks them, for each of the four view types. *)
Definition listed_keys (view : KnackView) : list (option string) :=
  let t := view_type view in
  if Js.str_eq t "table" then
    column_key <$> default [] (view_columns view)
  else if Js.str_eq t "form" then
    input_key_of <$> group_inputs (view_groups view)
  else if Js.str_eq t "details" then
    (details_group_keys (view_groups view)
     ++ details_column_keys (view_columns view))%list
  else if Js.str_eq t "search" then
    ((column_key <$> default [] (view_results view ≫= results_columns))
     ++ (filter_key <$> group_fields (view_groups view)))%list
  else [].


(** The scene the walk over the parents moves to from [scene]: the first
    scene whose slug is the scene's non-empty [parent]. *)
Definition parentScene (schema : KnackSchema) (scene : KnackScene)
    : option KnackScene :=
  match scene_parent scene with
  | Some parent =>
      if Js.truthy parent
      then find (fun s => Js.str_eq (scene_slug s) parent)
                (app_scenes (application schema))
      else None
  | None => None
  end.

(** The ancestors of a scene, nearest first: [nth_parent schema 0 scene] is
    its parent scene, [nth_parent schema 1 scene] the parent of that, and so
    on, as long as the parents are found. On a cycle the sequence never
    ends. *)
Fixpoint nth_parent (schema : KnackSchema) (n : nat) (scene : KnackScene)
    : option KnackScene :=
  match n with
  | O => parentScene schema scene
  | S n' => parentScene schema scene ≫= nth_parent schema n'
  end.

(** The verdict [v] is that of the nearest ancestor of [scene] whose own
    flags are decisive. *)
Definition nearest_verdict (schema : KnackSchema) (scene : KnackScene)
    (v : ViewSecurity) : Prop :=
  ∃ n a,
    nth_parent schema n scene = Some a
    ∧ checkSceneSecurity a = Some v
    ∧ ∀ m b, m < n → nth_parent schema m scene = Some b →
             checkSceneSecurity b = None.

(** The scene a slug stands for: the first scene with that slug. *)
Definition scene_by_slug (schema : KnackSchema) (slug : string)
    : option KnackScene :=
  find (fun s => Js.str_eq (scene_slug s) slug)
       (app_scenes (application schema)).

(** The invariant of the set of visited slugs during the walk: the scenes
    found under the visited slugs have no verdict of their own, and the
    parent scene of any of them other than [current] is again found under a
    visited slug. *)
Definition visited_closed (schema : KnackSchema) (visited : gset string)
    (current : KnackScene) : Prop :=
  ∀ p t,
    p ∈ visited →
    scene_by_slug schema p = Some t →
    checkSceneSecurity t = None
    ∧ (t = current
       ∨ ∀ u, parentScene schema t = Some u →
              ∃ q, q ∈ visited ∧ scene_by_slug schema q = Some u).

(** The view types that are public by default. *)
Definition safe_types : list string :=
  ["landing"; "menu"; "search"; "rich_text"].

(** One of the restrictions that [checkViewSecurity] looks for on a view:
    allowed profiles, the limit flag, the authenticated-user flag of the
    source, or a security keyword in the lower-cased name, title or
    description. *)
Definition view_restricted (view : KnackView) : Prop :=
  non_empty_array (view_allowed_profiles view) = true
  ∨ view_limit_profile_access view = Some true
  ∨ (∃ source, view_source view = Some source
               ∧ source_authenticated_user source = Some true)
  ∨ (∃ keyword text,
       keyword ∈ securityKeywords
       ∧ text ∈ [ view_name view; default "" (view_title view);
                  default "" (view_description view) ]
       ∧ Js.includes (Js.toLowerCase text) keyword = true).

(** A string without the space character: none of the security keywords
    has one. *)
Definition space_free (s : string) : bool :=
  forallb (fun c => negb (bool_decide (c = " "%char)))
          (list_ascii_of_string s).

(** A scene that its own flags declare public: a scene of type
    "authentication" whose [authenticated] flag is not [true]. *)
Definition scene_declared_public (scene : KnackScene) : Prop :=
  scene_type scene = Some "authentication"
  ∧ scene_authenticated scene ≠ Some true.


(** Some field of the object has the key. *)
Definition has_field (key : string) (obj : KnackObject) : Prop :=
  ∃ field, field ∈ object_fields obj ∧ field_key field = key.

(** The names of the tags the document declares. *)
Definition declaredTags (schema : KnackSchema) : list string :=
  tag_name <$> documentTags schema.


(** The property schemas of an object schema. *)
Definition properties_of (s : SchemaObject) : gmap string SchemaObject :=
  default ∅ (s_properties s).

(** * Example applications *)

(** A field of a type the mapper does not know. *)
Definition mystery_field : KnackField :=
  {| field_key := "field_9"; field_name := "Rating"; field_type := "rating";
     field_required := false; field_format := None;
     field_relationship := None |}.

Module Fixtures.

Definition scene (key name slug : string) (parent : option string)
    (authenticated : option bool) (views : list KnackView) : KnackScene :=
  {| scene_key := key; scene_name := name; scene_slug := slug;
     scene_views := views; scene_parent := parent; scene_type := None;
     scene_allowed_profiles := None; scene_limit_profile_access := None;
     scene_authenticated := authenticated |}.

Definition view (key name type : string) (object : option string)
    : KnackView :=
  {| view_key := key; view_name := name; view_type := type;
     view_title := None; view_description := None;
     view_source :=
       (fun o => {| source_object := o;
                    source_authenticated_user := None |}) <$> object;
     view_results := None; view_columns := None; view_groups := None;
     view_allowed_profiles := None; view_limit_profile_access := None;
     view_action := None |}.

Definition app (objects : list KnackObject) (scenes : list KnackScene)
    : KnackSchema :=
  {| application :=
       {| app_name := "Example"; app_objects := objects;
          app_scenes := scenes |};
     api_domain := Some "knack.com"; api_subdomain := Some "api" |}.

(** A login view that also carries every flag asking for authentication. *)
Definition guarded_login : KnackView :=
  {| view_key := "view_7"; view_name := "Admin account"; view_type := "login";
     view_title := Some "Private dashboard"; view_description := None;
     view_source :=
       Some {| source_object := "object_1";
               source_authenticated_user := Some true |};
     view_results := None; view_columns := None; view_groups := None;
     view_allowed_profiles := Some ["profile_1"];
     view_limit_profile_access := Some true;
     view_action := None |}.

Definition orders_table : KnackView :=
  view "view_1" "Orders" "table" (Some "object_1").

Definition members_only : KnackScene :=
  scene "scene_1" "Members" "members" None (Some true)
    [guarded_login; orders_table].

(** Two scenes that name each other as parent. *)
Definition sceneA : KnackScene :=
  scene "scene_1" "Orders" "a" (Some "b") None [].
Definition sceneB : KnackScene :=
  scene "scene_2" "Customers" "b" (Some "a") None [].
Definition loop : KnackSchema := app [] [sceneA; sceneB].

(** The same cycle, with the [authenticated] flag set on the second scene. *)
Definition sceneB' : KnackScene :=
  scene "scene_2" "Customers" "b" (Some "a") (Some true) [].
Definition guarded_loop : KnackSchema := app [] [sceneA; sceneB'].

End Fixtures.

Module Pages.

(** A scene whose [parent] is present, and is the empty string. *)
Definition blank_parent : KnackScene :=
  Fixtures.scene "scene_3" "Reports" "reports" (Some "") None [].

Definition projects : KnackScene :=
  Fixtures.scene "scene_1" "Projects" "projects" None None
    [Fixtures.view "view_1" "Projects List" "table" (Some "object_1")].

Definition tasks : KnackScene :=
  Fixtures.scene "scene_2" "Project Tasks" "tasks" (Some "projects") None
    [Fixtures.view "view_2" "Task List" "table" (Some "object_2")].

End Pages.

Module Objects.

Definition field (key name type : string) (required : bool)
    (target : option string) : KnackField :=
  {| field_key := key; field_name := name; field_type := type;
     field_required := required; field_format := None;
     field_relationship :=
       (fun o => {| rel_has := "one"; rel_object := o;
                    rel_belongs_to := "many" |}) <$> target |}.

Definition project_name : KnackField :=
  field "field_1" "Project Name" "short_text" true None.
Definition task_name : KnackField :=
  field "field_6" "Task Name" "short_text" true None.
Definition task_project : KnackField :=
  field "field_7" "Project" "connection" true (Some "object_1").
Definition task_done : KnackField :=
  field "field_8" "Completed" "boolean" false None.
Definition note_task : KnackField :=
  field "field_9" "Task" "connection" false (Some "object_2").

Definition projects : KnackObject :=
  {| object_key := "object_1"; object_name := "Projects";
     object_fields := [project_name];
     object_inflections :=
       {| singular := "Project"; plural := "Projects" |} |}.

Definition tasks : KnackObject :=
  {| object_key := "object_2"; object_name := "Tasks";
     object_fields := [task_name; task_project; task_done];
     object_inflections := {| singular := "Task"; plural := "Tasks" |} |}.

(** Two connections away from the projects. *)
Definition notes : KnackObject :=
  {| object_key := "object_3"; object_name := "Notes";
     object_fields := [note_task];
     object_inflections := {| singular := "Note"; plural := "Notes" |} |}.

(** Connected to the tasks first, and to the projects second. *)
Definition review_task : KnackField :=
  field "field_10" "Task" "connection" false (Some "object_2").
Definition review_project : KnackField :=
  field "field_11" "Project" "connection" false (Some "object_1").

Definition reviews : KnackObject :=
  {| object_key := "object_4"; object_name := "Reviews";
     object_fields := [review_task; review_project];
     object_inflections := {| singular := "Review"; plural := "Reviews" |} |}.

Definition schema : KnackSchema :=
  Fixtures.app [projects; tasks; notes; reviews] [].

End Objects.

Module Details.

Definition keyed (k : string) : KnackViewField :=
  {| vf_key := Some k; vf_field := None; vf_name := None |}.
Definition entry (k : string) : option KnackColumnField :=
  Some {| cf_key := Some k; cf_name := None |}.

(** field_1, field_2, field_1 and a blank key, as groups of columns. *)
Definition inGroups : KnackView :=
  {| view_key := "view_3"; view_name := "Project"; view_type := "details";
     view_title := None; view_description := None;
     view_source := Some {| source_object := "object_1";
                            source_authenticated_user := None |};
     view_results := None; view_columns := None;
     view_groups :=
       Some [ {| group_columns :=
                   Some [ {| gc_inputs := None;
                             gc_fields :=
                               Some [keyed "field_1"; keyed "field_2"] |};
                          {| gc_inputs := None;
                             gc_fields :=
                               Some [keyed "field_1"; keyed ""] |} ] |} ];
     view_allowed_profiles := None; view_limit_profile_access := None;
     view_action := None |}.

(** The same keys as columns of groups: a single field, then an array. *)
Definition inColumns : KnackView :=
  {| view_key := "view_4"; view_name := "Project"; view_type := "details";
     view_title := None; view_description := None;
     view_source := Some {| source_object := "object_1";
                            source_authenticated_user := None |};
     view_results := None;
     view_columns :=
       Some [ {| col_type := "field"; col_field := None;
                 col_groups :=
                   Some [ {| cg_columns :=
                               Some [ ColumnField (entry "field_2");
                                      ColumnFields
                                        [entry "field_1"; entry "";
                                         None; entry "field_1"] ] |} ] |} ];
     view_groups := None;
     view_allowed_profiles := None; view_limit_profile_access := None;
     view_action := None |}.

End Details.

Module TaskPages.

(** The two scenes of the project application, with its objects. *)
Definition schema : KnackSchema :=
  Fixtures.app [Objects.projects; Objects.tasks]
    [Pages.projects; Pages.tasks].

Definition task_list : KnackView :=
  Fixtures.view "view_2" "Task List" "table" (Some "object_2").

End TaskPages.

Module Orphans.

(** A table on an object the application does not have, next to a table
    on the projects that shows their name. *)
Definition orphan : KnackView :=
  Fixtures.view "view_1" "Archive" "table" (Some "object_9").

Definition listed : KnackView :=
  {| view_key := "view_2"; view_name := "Projects List";
     view_type := "table";
     view_title := None; view_description := None;
     view_source := Some {| source_object := "object_1";
                            source_authenticated_user := None |};
     view_results := None;
     view_columns :=
       Some [ {| col_type := "field";
                 col_field := Some {| ref_key := "field_1" |};
                 col_groups := None |} ];
     view_groups := None;
     view_allowed_profiles := None; view_limit_profile_access := None;
     view_action := None |}.

Definition scene : KnackScene :=
  Fixtures.scene "scene_1" "Projects" "projects" None None [orphan; listed].

Definition schema : KnackSchema :=
  Fixtures.app [Objects.projects] [scene].

End Orphans.

Module EndToEnd.

Definition source : KnackViewSource :=
  {| source_object := "object_1"; source_authenticated_user := None |}.

Definition view : KnackView :=
  Fixtures.view "view_1" "Projects List" "table" (Some "object_1").

Definition schema : KnackSchema :=
  Fixtures.app [Objects.projects] [Pages.projects].

End EndToEnd.

Module Views.

(** A form whose first input carries both its own key and a field, whose
    second input carries a blank key and a field, and whose third input
    carries a field only. *)
Definition form : KnackView :=
  {| view_key := "view_5"; view_name := "Add Task"; view_type := "form";
     view_title := None; view_description := None;
     view_source := Some {| source_object := "object_2";
                            source_authenticated_user := None |};
     view_results := None; view_columns := None;
     view_groups :=
       Some [ {| group_columns :=
                   Some [ {| gc_inputs :=
                               Some [ {| input_key := Some "field_6";
                                         input_field :=
                                           Some {| ref_key := "field_8" |} |};
                                      {| input_key := Some "";
                                         input_field :=
                                           Some {| ref_key := "field_7" |} |};
                                      {| input_key := None;
                                         input_field :=
                                           Some {| ref_key := "field_1" |} |} ];
                             gc_fields := None |} ] |} ];
     view_allowed_profiles := None; view_limit_profile_access := None;
     view_action := None |}.

(** A search with one result column, a link column, and two filters, one
    of them the keyword search. *)
Definition search : KnackView :=
  {| view_key := "view_6"; view_name := "Find Tasks"; view_type := "search";
     view_title := None; view_description := None;
     view_source := Some {| source_object := "object_2";
                            source_authenticated_user := None |};
     view_results :=
       Some {| results_columns :=
                 Some [ {| col_type := "field";
                           col_field := Some {| ref_key := "field_6" |};
                           col_groups := None |};
                        {| col_type := "link";
                           col_field := Some {| ref_key := "field_7" |};
                           col_groups := None |} ] |};
     view_columns := None;
     view_groups :=
       Some [ {| group_columns :=
                   Some [ {| gc_inputs := None;
                             gc_fields :=
                               Some [ {| vf_key := None;
                                         vf_field := Some "keyword_search";
                                         vf_name := None |};
                                      {| vf_key := None;
                                         vf_field := Some "field_8";
                                         vf_name := None |} ] |} ] |} ];
     view_allowed_profiles := None; view_limit_profile_access := None;
     view_action := None |}.

(** A menu, which lists no field. *)
Definition menu : KnackView :=
  Fixtures.view "view_7" "Menu" "menu" (Some "object_1").

(** A scene of type "authentication", the page of the login form. *)
Definition login_page : KnackScene :=
  {| scene_key := "scene_9"; scene_name := "Sign in"; scene_slug := "sign-in";
     scene_views := []; scene_parent := None;
     scene_type := Some "authentication";
     scene_allowed_profiles := None; scene_limit_profile_access := None;
     scene_authenticated := None |}.

(** A menu whose name has a security keyword, in upper case. *)
Definition admin_menu : KnackView :=
  Fixtures.view "view_8" "Site ADMIN" "menu" None.

(** A view with a word in its name and another in its title that only
    together spell a security keyword. *)
Definition split_keyword : KnackView :=
  {| view_key := "view_9"; view_name := "Pro"; view_type := "rich_text";
     view_title := Some "file"; view_description := None;
     view_source := None;
     view_results := None; view_columns := None; view_groups := None;
     view_allowed_profiles := None; view_limit_profile_access := None;
     view_action := None |}.

End Views.

Module Choices.

(** A multiple-choice field whose list of options is empty. *)
Definition no_options : KnackField :=
  {| field_key := "field_20"; field_name := "Status";
     field_type := "multiple_choice"; field_required := false;
     field_format := Some (JObj [("options", JArr []);
                                 ("default", JStr "")]);
     field_relationship := None |}.

End Choices.

(** * Proof automation *)

(** The two directions of the equivalences about [enum] and [default]:
    from the schema to the format of the field, and back. *)
Ltac enum_back :=
  let Hs := fresh in
  let fmt := fresh in
  let Hf := fresh in
  let Hp := fresh in
  let Ht := fresh in
  intros [Hs (fmt & Hf & Hp & Ht)];
  try apply is_Some_None in Hs; simplify_eq; first [done | congruence].

Ltac enum_cases :=
  split; intros ?; simpl;
  (split;
   [ intros ?; simplify_eq; try by (split; eauto 6)
   | enum_back ]).

(** * Properties *)

Open Scope nat_scope.

(** ** Strings and the small helpers *)

Lemma str_eq_true (a b : string) : Js.str_eq a b = true ↔ a = b.
Proof. unfold Js.str_eq. apply bool_decide_eq_true. Qed.

Lemma str_eq_false (a b : string) : Js.str_eq a b = false ↔ a ≠ b.
Proof. unfold Js.str_eq. apply bool_decide_eq_false. Qed.

Lemma str_eq_refl (a : string) : Js.str_eq a a = true.
Proof. by apply str_eq_true. Qed.

Lemma one_of_true (s : string) (labels : list string) :
  one_of s labels = true ↔ s ∈ labels.
Proof.
  unfold one_of. rewrite existsb_exists. split.
  - intros (x & Hin & Heq). apply str_eq_true in Heq. subst x.
    by apply list_elem_of_In.
  - intros Hin. exists s. split; [by apply list_elem_of_In | apply str_eq_refl].
Qed.

Lemma one_of_false (s : string) (labels : list string) :
  one_of s labels = false ↔ s ∉ labels.
Proof.
  rewrite <- one_of_true. destruct (one_of s labels); naive_solver.
Qed.

Lemma truthy_nonempty (s : string) : Js.truthy s = true ↔ s ≠ "".
Proof. destruct s; simpl; naive_solver. Qed.

(** ** Field type mapper *)

Lemma baseSchema_untyped (field : KnackField) :
  s_type (baseSchema field) = None.
Proof. reflexivity. Qed.

(** Every branch of the switch sets [type] to one of five literals. *)
Lemma mapFieldTypeToSchema_type_literal (field : KnackField) :
  ∃ t, s_type (mapFieldTypeToSchema field) = Some t
       ∧ t ∈ ["string"; "number"; "integer"; "boolean"; "array"].
Proof.
  unfold mapFieldTypeToSchema, when.
  repeat case_match; simpl; eexists;
    (split; [reflexivity | by apply one_of_true]).
Qed.

Lemma known_labels (t : string) (labels : list string) :
  one_of t KnackFieldTypes = false →
  one_of t labels = true →
  forallb (fun l => one_of l KnackFieldTypes) labels = true →
  False.
Proof.
  intros Hunknown Hin Hall. apply one_of_true in Hin.
  rewrite forallb_forall in Hall.
  apply list_elem_of_In, Hall in Hin. apply one_of_true in Hin.
  apply one_of_false in Hunknown. done.
Qed.

Lemma known_label (t label : string) :
  one_of t KnackFieldTypes = false →
  Js.str_eq t label = true →
  one_of label KnackFieldTypes = true →
  False.
Proof.
  intros Hunknown Heq Hin. apply str_eq_true in Heq. subst t. congruence.
Qed.

(** C1. [mapFieldTypeToSchema] is a total function of the field; the schema
    it returns always declares a non-empty [type]; and when the field's
    type string is none of the members of [KnackFieldType], the schema has
    type "string" and the description "Unknown field type: " followed by
    the type string. *)
Theorem mapFieldTypeToSchema_total_typed (field : KnackField) :
  (∃ t, s_type (mapFieldTypeToSchema field) = Some t ∧ t ≠ "")
  ∧ (field_type field ∉ KnackFieldTypes →
       s_type (mapFieldTypeToSchema field) = Some "string"
       ∧ s_description (mapFieldTypeToSchema field)
         = Some ("Unknown field type: " +:+ field_type field)).
Proof.
  split.
  - destruct (mapFieldTypeToSchema_type_literal field) as (t & Ht & Hin).
    exists t. split; [done |]. intros ->.
    repeat (apply elem_of_cons in Hin as [Hin | Hin]; [discriminate Hin |]).
    by apply elem_of_nil in Hin.
  - intros Hunknown. apply one_of_false in Hunknown.
    unfold mapFieldTypeToSchema.
    repeat match goal with
      | |- context [if one_of ?t ?l then _ else _] =>
          destruct (one_of t l) eqn:?; [exfalso; by eapply known_labels |]
      | |- context [if Js.str_eq ?t ?l then _ else _] =>
          destruct (Js.str_eq t l) eqn:?; [exfalso; by eapply known_label |]
      end.
    done.
Qed.

Lemma mapFieldTypeToSchema_total_typed_witness :
  s_type (mapFieldTypeToSchema mystery_field) = Some "string"
  ∧ s_description (mapFieldTypeToSchema mystery_field)
    = Some "Unknown field type: rating".
Proof.
  apply (proj2 (mapFieldTypeToSchema_total_typed mystery_field)).
  by apply one_of_false.
Defined.

(** ** Security classifier *)

Lemma checkViewSecurity_login (view : KnackView) :
  view_type view ∈ login_types → checkViewSecurity view = Some PUBLIC.
Proof.
  intros Hin. unfold checkViewSecurity. unfold login_types in Hin.
  by rewrite (proj2 (one_of_true _ _) Hin).
Qed.

(** Apart from the login types, the view's own flags never say "public". *)
Lemma checkViewSecurity_not_login (view : KnackView) :
  view_type view ∉ login_types →
  checkViewSecurity view = Some AUTHENTICATED ∨ checkViewSecurity view = None.
Proof.
  intros Hnot. unfold checkViewSecurity. unfold login_types in Hnot.
  rewrite (proj2 (one_of_false _ _) Hnot).
  repeat case_match; auto.
Qed.

Lemma checkSceneSecurity_authenticated (scene : KnackScene) :
  scene_authenticated scene = Some true →
  checkSceneSecurity scene = Some AUTHENTICATED.
Proof. intros H. unfold checkSceneSecurity. by rewrite H. Qed.

(** C2. [determineViewSecurity] is a function of its three arguments (equal
    inputs give equal verdicts). A view of type "login" is public whatever
    its other flags, its scene and the application are. In a scene whose
    [authenticated] flag is [true], every view that is not of a login type
    (login, register, password_reset) is classified authenticated. *)
Theorem determineViewSecurity_login_public_scene_authenticated
    (view : KnackView) (scene : KnackScene) (schema : KnackSchema) :
  (∀ view' scene' schema',
      view = view' → scene = scene' → schema = schema' →
      determineViewSecurity view scene schema
      = determineViewSecurity view' scene' schema')
  ∧ (view_type view = "login" →
     determineViewSecurity view scene schema = PUBLIC)
  ∧ (scene_authenticated scene = Some true →
     view_type view ∉ login_types →
     determineViewSecurity view scene schema = AUTHENTICATED).
Proof.
  split; [by intros ??? -> -> -> |]. split.
  - intros Hlogin. unfold determineViewSecurity.
    rewrite checkViewSecurity_login; [done |].
    rewrite Hlogin. by apply one_of_true.
  - intros Hauth Hnot. unfold determineViewSecurity.
    destruct (checkViewSecurity_not_login view Hnot) as [-> | ->]; [done |].
    by rewrite checkSceneSecurity_authenticated.
Qed.

(** ** The walk over the parent scenes *)

Section ParentWalk.
Variable schema : KnackSchema.

Let scenes := app_scenes (application schema).

Lemma unvisited_le_scenes (visited : gset string) :
  unvisited schema visited ≤ length scenes.
Proof. apply length_filter. Qed.

Lemma find_scene_slug (p : string) (s : KnackScene) :
  find (fun s => Js.str_eq (scene_slug s) p) scenes = Some s →
  s ∈ scenes ∧ scene_slug s = p.
Proof.
  intros Hfind. apply find_some in Hfind as [Hin Heq].
  split; [by apply list_elem_of_In | by apply str_eq_true].
Qed.

Lemma unvisited_mark (p : string) (s : KnackScene) (visited : gset string) :
  s ∈ scenes → scene_slug s = p → p ∉ visited →
  unvisited schema ({[p]} ∪ visited) < unvisited schema visited.
Proof.
  unfold unvisited. fold scenes. generalize scenes.
  intros l Hin Hslug Hfresh.
  induction l as [| x l IH]; [by apply elem_of_nil in Hin |].
  assert (Hmono :
    length (filter (fun s => scene_slug s ∉ {[p]} ∪ visited) l)
    ≤ length (filter (fun s => scene_slug s ∉ visited) l)).
  { clear. induction l as [| y l IHl]; [done |].
    rewrite !filter_cons. repeat case_decide; simpl; try lia.
    set_solver. }
  apply elem_of_cons in Hin as [<- | Hin].
  - rewrite !filter_cons.
    rewrite decide_False by set_solver.
    rewrite decide_True by set_solver. simpl. lia.
  - specialize (IH Hin). rewrite !filter_cons.
    repeat case_decide; simpl; try lia. set_solver.
Qed.

(** The walk returns as soon as the fuel exceeds the number of scenes
    that are not marked. *)
Lemma walk_enough_fuel (fuel : nat) :
  ∀ (scene : KnackScene) (visited : gset string),
    unvisited schema visited < fuel →
    is_Some (checkParentScenesSecurity_walk fuel scene schema visited).
Proof.
  induction fuel as [| fuel IH]; intros scene visited Hfuel; [lia |].
  simpl. destruct (scene_parent scene) as [parent |]; [| by eexists].
  destruct (negb (Js.truthy parent) || bool_decide (parent ∈ visited))
    eqn:Hguard; [by eexists |].
  apply orb_false_iff in Hguard as [_ Hfresh].
  apply bool_decide_eq_false in Hfresh.
  destruct (find _ _) as [parentScene |] eqn:Hfind; [| by eexists].
  destruct (checkSceneSecurity parentScene); [by eexists |].
  apply find_scene_slug in Hfind as [Hin Hslug].
  apply IH. pose proof (unvisited_mark _ _ _ Hin Hslug Hfresh). lia.
Qed.

(** More fuel does not change a result. *)
Lemma walk_more_fuel (fuel fuel' : nat) :
  ∀ (scene : KnackScene) (visited : gset string) r,
    checkParentScenesSecurity_walk fuel scene schema visited = Some r →
    fuel ≤ fuel' →
    checkParentScenesSecurity_walk fuel' scene schema visited = Some r.
Proof.
  revert fuel'. induction fuel as [| fuel IH];
    intros fuel' scene visited r Hrun Hle; [done |].
  destruct fuel' as [| fuel']; [lia |].
  simpl in *. repeat case_match; try done.
  eapply IH; [done | lia].
Qed.

Lemma walk_result (fuel : nat) (scene : KnackScene) :
  length scenes < fuel →
  checkParentScenesSecurity_walk fuel scene schema ∅
  = Some (checkParentScenesSecurity scene schema).
Proof.
  intros Hfuel. unfold checkParentScenesSecurity. fold scenes.
  destruct (walk_enough_fuel (S (length scenes)) scene ∅) as [r Hr].
  { pose proof (unvisited_le_scenes ∅). lia. }
  rewrite Hr. simpl. eapply walk_more_fuel; [done | lia].
Qed.

Lemma walk_no_verdict (fuel : nat) :
  ∀ (scene : KnackScene) (visited : gset string) r,
    (∀ a, ancestor schema scene a → checkSceneSecurity a = None) →
    checkParentScenesSecurity_walk fuel scene schema visited = Some r →
    r = None.
Proof.
  induction fuel as [| fuel IH]; intros scene visited r Hnone Hrun;
    [done |].
  simpl in Hrun.
  destruct (scene_parent scene) as [parent |] eqn:Hparent;
    [| congruence].
  destruct (negb (Js.truthy parent) || bool_decide (parent ∈ visited));
    [congruence |].
  fold scenes in Hrun.
  destruct (find _ scenes) as [parentScene |] eqn:Hfind; [| congruence].
  assert (Hanc : ancestor schema scene parentScene)
    by (by eapply ancestor_parent).
  rewrite (Hnone _ Hanc) in Hrun.
  eapply IH; [| exact Hrun].
  intros a Ha. apply Hnone. by eapply ancestor_step.
Qed.

End ParentWalk.

Lemma determineViewSecurity_login_public_scene_authenticated_witness :
  determineViewSecurity Fixtures.guarded_login Fixtures.members_only
    (Fixtures.app [] [Fixtures.members_only]) = PUBLIC
  ∧ determineViewSecurity Fixtures.orders_table Fixtures.members_only
      (Fixtures.app [] [Fixtures.members_only]) = AUTHENTICATED.
Proof.
  split.
  - apply (proj1 (proj2
      (determineViewSecurity_login_public_scene_authenticated
         Fixtures.guarded_login Fixtures.members_only
         (Fixtures.app [] [Fixtures.members_only])))).
    reflexivity.
  - apply (proj2 (proj2
      (determineViewSecurity_login_public_scene_authenticated
         Fixtures.orders_table Fixtures.members_only
         (Fixtures.app [] [Fixtures.members_only])))).
    + reflexivity.
    + by apply one_of_false.
Defined.

Lemma ancestor_in_scenes (schema : KnackSchema) (scene a : KnackScene) :
  ancestor schema scene a → a ∈ app_scenes (application schema).
Proof.
  induction 1 as [scene parent parentScene _ Hfind |]; [| done].
  by apply find_scene_slug in Hfind as [Hin _].
Qed.

Lemma loop_cyclic : cyclic Fixtures.loop.
Proof.
  exists Fixtures.sceneA. split; [apply elem_of_cons; by left |].
  eapply ancestor_step; by eapply ancestor_parent.
Qed.

Lemma guarded_loop_cyclic : cyclic Fixtures.guarded_loop.
Proof.
  exists Fixtures.sceneA. split; [apply elem_of_cons; by left |].
  eapply ancestor_step; by eapply ancestor_parent.
Qed.

(** C4, as stated, fails: on a cycle the walk still returns the verdict
    of a scene on the cycle whose own flags are decisive. *)
Lemma checkParentScenesSecurity_cycle_with_verdict :
  ¬ (∀ (schema : KnackSchema) (scene : KnackScene),
        cyclic schema → checkParentScenesSecurity scene schema = None).
Proof.
  intros Hclaim.
  specialize (Hclaim Fixtures.guarded_loop Fixtures.sceneA guarded_loop_cyclic).
  vm_compute in Hclaim. discriminate Hclaim.
Qed.

(** C4 (amended). For every application and scene, cyclic parent chains
    included, the walk over the parent scenes terminates: it returns as soon
    as it is given more calls than the application has scenes, because every
    call marks a parent slug that was not marked before. It returns no
    verdict whenever no scene on the parent chain has decisive flags of its
    own. *)
Theorem checkParentScenesSecurity_terminates
    (schema : KnackSchema) (scene : KnackScene) :
  (∀ fuel, length (app_scenes (application schema)) < fuel →
     checkParentScenesSecurity_walk fuel scene schema ∅
     = Some (checkParentScenesSecurity scene schema))
  ∧ ((∀ a, ancestor schema scene a → checkSceneSecurity a = None) →
     checkParentScenesSecurity scene schema = None).
Proof.
  split.
  - intros fuel Hfuel. by apply walk_result.
  - intros Hnone.
    eapply walk_no_verdict; [exact Hnone |].
    apply (walk_result schema (S (length (app_scenes (application schema))))
             scene).
    lia.
Qed.

Lemma checkParentScenesSecurity_terminates_witness :
  cyclic Fixtures.loop
  ∧ checkParentScenesSecurity_walk 3 Fixtures.sceneA Fixtures.loop ∅
    = Some (checkParentScenesSecurity Fixtures.sceneA Fixtures.loop)
  ∧ checkParentScenesSecurity Fixtures.sceneA Fixtures.loop = None.
Proof.
  split; [exact loop_cyclic |]. split.
  - apply (proj1 (checkParentScenesSecurity_terminates
                    Fixtures.loop Fixtures.sceneA)).
    simpl. lia.
  - apply (proj2 (checkParentScenesSecurity_terminates
                    Fixtures.loop Fixtures.sceneA)).
    intros a Ha. apply ancestor_in_scenes in Ha. simpl in Ha.
    apply elem_of_cons in Ha as [-> | Ha]; [reflexivity |].
    apply elem_of_cons in Ha as [-> | Ha]; [reflexivity |].
    by apply elem_of_nil in Ha.
Defined.

(** ** Page hierarchy *)

Lemma isChildPage_true (scene : KnackScene) :
  isChildPage scene = true ↔
  ∃ parent, scene_parent scene = Some parent ∧ parent ≠ "".
Proof.
  unfold isChildPage, Js.truthy_opt.
  destruct (scene_parent scene) as [parent |].
  - rewrite truthy_nonempty. naive_solver.
  - naive_solver.
Qed.

(** Whatever the lookup of the parent scene gives, the parameter name is
    the scene's own parent reference followed by "_id". *)
Lemma getParentParamSlug_child (scene : KnackScene) (schema : KnackSchema)
    (parent : string) :
  scene_parent scene = Some parent → parent ≠ "" →
  getParentParamSlug scene schema = Some (parent +:+ "_id").
Proof.
  intros Hparent Hne. unfold getParentParamSlug.
  rewrite (proj2 (isChildPage_true scene)) by eauto. simpl.
  rewrite Hparent.
  destruct (find _ _) as [parentScene |] eqn:Hfind; [| done].
  apply find_scene_slug in Hfind as [_ Hslug].
  repeat case_match; congruence.
Qed.

(** C5, as stated, fails on its first half: a scene whose [parent] is the
    empty string is not a child page, although its [parent] is neither
    absent nor [null]. *)
Lemma isChildPage_blank_parent :
  ¬ (∀ scene : KnackScene,
        isChildPage scene = false ↔ scene_parent scene = None).
Proof.
  intros Hclaim.
  destruct (Hclaim Pages.blank_parent) as [Hfalse _].
  specialize (Hfalse eq_refl). discriminate Hfalse.
Qed.

(** C5 (amended). [isChildPage] returns false if and only if
    [scene.parent] is absent, [null] or the empty string. For every scene
    for which it returns true, [getParentParamSlug] returns a string
    ending in "_id": the raw [scene.parent] followed by "_id", which is
    also the slug of the parent scene followed by "_id" whenever the parent
    is found among the scenes of the application. *)
Theorem isChildPage_getParentParamSlug
    (scene : KnackScene) (schema : KnackSchema) :
  (isChildPage scene = false ↔
     scene_parent scene = None ∨ scene_parent scene = Some "")
  ∧ (isChildPage scene = true →
     ∃ parent,
       scene_parent scene = Some parent
       ∧ getParentParamSlug scene schema = Some (parent +:+ "_id")
       ∧ ∀ parentScene,
           find (fun s => Js.str_eq (scene_slug s) parent)
                (app_scenes (application schema)) = Some parentScene →
           getParentParamSlug scene schema
           = Some (scene_slug parentScene +:+ "_id")).
Proof.
  split.
  - unfold isChildPage, Js.truthy_opt.
    destruct (scene_parent scene) as [[| c parent] |]; simpl; naive_solver.
  - intros Hchild. apply isChildPage_true in Hchild as (parent & Hp & Hne).
    exists parent. split; [done |].
    rewrite (getParentParamSlug_child _ _ _ Hp Hne). split; [done |].
    intros parentScene Hfind.
    apply find_scene_slug in Hfind as [_ Hslug]. by rewrite Hslug.
Qed.

Lemma isChildPage_getParentParamSlug_witness :
  getParentParamSlug Pages.tasks
    (Fixtures.app [] [Pages.tasks]) = Some "projects_id"
  ∧ getParentParamSlug Pages.tasks
      (Fixtures.app [] [Pages.projects; Pages.tasks])
    = Some "projects_id".
Proof.
  split.
  - destruct (proj2 (isChildPage_getParentParamSlug Pages.tasks
                       (Fixtures.app [] [Pages.tasks]))
                eq_refl) as (parent & Hparent & Hslug & _).
    injection Hparent as <-. exact Hslug.
  - destruct (proj2 (isChildPage_getParentParamSlug Pages.tasks
                       (Fixtures.app [] [Pages.projects;
                                         Pages.tasks]))
                eq_refl) as (parent & Hparent & _ & Hfound).
    injection Hparent as <-.
    exact (Hfound Pages.projects eq_refl).
Defined.

(** ** Field resolver *)

Section FieldResolver.
Variables (fieldKey : string) (sourceObject : KnackObject).
Variable schema : KnackSchema.

Let has_key (field : KnackField) : bool :=
  Js.str_eq (field_key field) fieldKey.
Let links (field : KnackField) : bool :=
  Js.str_eq (field_type field) "connection"
  && Js.truthy_opt (relationship_object field).

Lemma find_elem_of {A} (p : A → bool) (l : list A) (x : A) :
  find p l = Some x → x ∈ l ∧ p x = true.
Proof.
  intros Hfind. apply find_some in Hfind as [Hin Hp].
  split; [by apply list_elem_of_In | done].
Qed.

Lemma find_none_elem_of {A} (p : A → bool) (l : list A) :
  find p l = None ↔ ∀ x, x ∈ l → p x = false.
Proof.
  split.
  - intros Hfind x Hin. apply list_elem_of_In in Hin.
    by eapply find_none in Hfind.
  - intros Hall. induction l as [| y l IH]; [done |]. simpl.
    rewrite Hall by (apply elem_of_cons; by left).
    apply IH. intros x Hin. apply Hall, elem_of_cons. by right.
Qed.

Lemma findFieldByKey_direct (directField : KnackField) :
  find has_key (object_fields sourceObject) = Some directField →
  findFieldByKey fieldKey sourceObject schema = Some directField.
Proof. intros Hfind. unfold findFieldByKey. fold has_key. by rewrite Hfind. Qed.

Lemma findFieldByKey_connected :
  find has_key (object_fields sourceObject) = None →
  findFieldByKey fieldKey sourceObject schema
  = connectedField fieldKey sourceObject schema.
Proof.
  intros Hfind. unfold findFieldByKey, connectedField.
  fold has_key. rewrite Hfind. fold links.
  destruct (find links _) as [connectionField |] eqn:Hlink; [| done].
  simpl. apply find_elem_of in Hlink as [_ Hlinks].
  unfold links in Hlinks. apply andb_true_iff in Hlinks as [_ Htarget].
  destruct (relationship_object connectionField) as [target |]; [| done].
  simpl in *. rewrite Htarget. by destruct (find _ (app_objects _)).
Qed.

End FieldResolver.

(** C8. The resolver returns the direct match on the source object's own
    fields when there is one. Otherwise it takes the connection-typed field
    of the source object that carries a relationship target and looks the key
    up among the fields of that target object, and nowhere else. It is total:
    when neither lookup succeeds the result is "not found". Whatever it
    returns has the key that was asked for and belongs to the source object
    or to an object one connection away from it. *)
Theorem findFieldByKey_lookup_order
    (fieldKey : string) (sourceObject : KnackObject) (schema : KnackSchema) :
  let direct :=
    find (fun field => Js.str_eq (field_key field) fieldKey)
         (object_fields sourceObject) in
  (∀ directField,
      direct = Some directField →
      findFieldByKey fieldKey sourceObject schema = Some directField)
  ∧ (direct = None →
     findFieldByKey fieldKey sourceObject schema
     = connectedField fieldKey sourceObject schema)
  ∧ (direct = None →
     connectedField fieldKey sourceObject schema = None →
     findFieldByKey fieldKey sourceObject schema = None)
  ∧ (∀ field,
      findFieldByKey fieldKey sourceObject schema = Some field →
      field_key field = fieldKey
      ∧ (field ∈ object_fields sourceObject
         ∨ ∃ connectionField connectedObject,
             connectionField ∈ object_fields sourceObject
             ∧ field_type connectionField = "connection"
             ∧ relationship_object connectionField
               = Some (object_key connectedObject)
             ∧ connectedObject ∈ app_objects (application schema)
             ∧ field ∈ object_fields connectedObject)).
Proof.
  intros direct. split; [apply findFieldByKey_direct |].
  split; [apply findFieldByKey_connected |].
  split; [intros Hd Hc; by rewrite findFieldByKey_connected |].
  intros field Hfound.
  destruct direct as [directField |] eqn:Hd; subst direct.
  - rewrite (findFieldByKey_direct _ _ _ _ Hd) in Hfound.
    injection Hfound as <-. apply find_elem_of in Hd as [Hin Hkey].
    apply str_eq_true in Hkey. auto.
  - rewrite (findFieldByKey_connected _ _ _ Hd) in Hfound.
    unfold connectedField in Hfound.
    destruct (find _ (object_fields sourceObject))
      as [connectionField |] eqn:Hlink; [| done].
    simpl in Hfound.
    destruct (relationship_object connectionField) as [target |] eqn:Htarget;
      [| done].
    simpl in Hfound.
    destruct (find _ (app_objects _)) as [connectedObject |] eqn:Hobj;
      [| done].
    simpl in Hfound.
    apply find_elem_of in Hfound as [Hin Hkey]. apply str_eq_true in Hkey.
    apply find_elem_of in Hlink as [Hcin Hlinks].
    apply andb_true_iff in Hlinks as [Hconn _]. apply str_eq_true in Hconn.
    apply find_elem_of in Hobj as [Hoin Hokey]. apply str_eq_true in Hokey.
    split; [done |]. right. exists connectionField, connectedObject.
    rewrite Hokey. done.
Qed.

Lemma findFieldByKey_lookup_order_witness :
  findFieldByKey "field_6" Objects.tasks Objects.schema
  = Some Objects.task_name
  ∧ findFieldByKey "field_1" Objects.tasks Objects.schema
    = Some Objects.project_name
  ∧ findFieldByKey "field_1" Objects.notes Objects.schema = None.
Proof.
  split; [| split].
  - apply (proj1 (findFieldByKey_lookup_order
                    "field_6" Objects.tasks Objects.schema)).
    reflexivity.
  - rewrite (proj1 (proj2 (findFieldByKey_lookup_order
                             "field_1" Objects.tasks Objects.schema)));
      reflexivity.
  - apply (proj1 (proj2 (proj2 (findFieldByKey_lookup_order
                                  "field_1" Objects.notes Objects.schema))));
      reflexivity.
Defined.

(** Only the first connection-typed field with a target is followed: from
    the reviews, the fields of the tasks are found and those of the projects
    are not. *)
Lemma findFieldByKey_first_connection :
  findFieldByKey "field_6" Objects.reviews Objects.schema
  = Some Objects.task_name
  ∧ findFieldByKey "field_1" Objects.reviews Objects.schema = None.
Proof. split; reflexivity. Qed.

(** ** View field extractor *)

Lemma forEach_app {A S} (l1 l2 : list A) (body : A → S → S) (s : S) :
  forEach (l1 ++ l2) body s = forEach l2 body (forEach l1 body s).
Proof. unfold forEach. apply foldl_app. Qed.

Lemma forEach_ext {A S} (l : list A) (f g : A → S → S) (s : S) :
  (∀ x acc, f x acc = g x acc) → forEach l f s = forEach l g s.
Proof.
  intros Hfg. revert s. unfold forEach.
  induction l as [| x l IH]; intros s; simpl; [done |].
  by rewrite Hfg, IH.
Qed.

Lemma forEach_flat_map {A B S} (f : A → list B) (l : list A)
    (body : B → S → S) (s : S) :
  forEach (flat_map f l) body s
  = forEach l (fun x => forEach (f x) body) s.
Proof.
  revert s. induction l as [| x l IH]; intros s; simpl; [done |].
  rewrite forEach_app, IH. done.
Qed.

Lemma forEach_opt_default {A S} (l : option (list A)) (body : A → S → S)
    (s : S) :
  forEach_opt l body s = forEach (default [] l) body s.
Proof. by destruct l. Qed.

Lemma elem_of_set_add (k x : string) (keys : list string) :
  k ∈ set_add x keys ↔ k ∈ keys ∨ k = x.
Proof.
  unfold set_add. case_bool_decide.
  - naive_solver.
  - rewrite elem_of_app, list_elem_of_singleton. done.
Qed.

Lemma NoDup_set_add (x : string) (keys : list string) :
  NoDup keys → NoDup (set_add x keys).
Proof.
  intros Hnd. unfold set_add. case_bool_decide; [done |].
  apply NoDup_app. split; [done |]. split.
  - intros y Hy Hx. apply list_elem_of_singleton in Hx. by subst.
  - apply NoDup_singleton.
Qed.

Lemma elem_of_add_key (k : string) (o : option string) (keys : list string) :
  k ∈ add_key o keys ↔ k ∈ keys ∨ (k ≠ "" ∧ o = Some k).
Proof.
  unfold add_key. destruct o as [x |]; [| naive_solver].
  destruct (Js.truthy x) eqn:Hx.
  - rewrite elem_of_set_add. apply truthy_nonempty in Hx. naive_solver.
  - destruct x; [| done]. naive_solver.
Qed.

Lemma NoDup_add_key (o : option string) (keys : list string) :
  NoDup keys → NoDup (add_key o keys).
Proof.
  intros Hnd. unfold add_key. repeat case_match; auto using NoDup_set_add.
Qed.

Lemma elem_of_add_keys (k : string) (ks : list (option string)) :
  ∀ keys, k ∈ add_keys ks keys ↔ k ∈ keys ∨ (k ≠ "" ∧ Some k ∈ ks).
Proof.
  induction ks as [| o ks IH]; intros keys; simpl.
  - rewrite elem_of_nil. naive_solver.
  - unfold add_keys, forEach in *. simpl. rewrite IH, elem_of_add_key.
    rewrite elem_of_cons. naive_solver.
Qed.

Lemma NoDup_add_keys (ks : list (option string)) :
  ∀ keys, NoDup keys → NoDup (add_keys ks keys).
Proof.
  induction ks as [| o ks IH]; intros keys Hnd; [done |].
  unfold add_keys, forEach in *. simpl. by apply IH, NoDup_add_key.
Qed.

Lemma forEach_map {A B S} (g : A → B) (l : list A) (body : B → S → S)
    (s : S) :
  forEach (map g l) body s = forEach l (fun x => body (g x)) s.
Proof.
  revert s. unfold forEach.
  induction l as [| x l IH]; intros s; simpl; [done | by rewrite IH].
Qed.

Lemma add_details_groups_keys (groups : option (list KnackViewGroup))
    (keys : list string) :
  add_details_groups groups keys = add_keys (details_group_keys groups) keys.
Proof.
  unfold add_details_groups, add_keys, details_group_keys.
  rewrite forEach_opt_default, forEach_flat_map.
  apply forEach_ext. intros group acc.
  rewrite forEach_opt_default, forEach_flat_map.
  apply forEach_ext. intros column acc'.
  by rewrite forEach_opt_default, forEach_map.
Qed.

Lemma add_column_data_keys (columnData : KnackColumnData)
    (keys : list string) :
  add_column_data columnData keys
  = add_keys (column_data_keys columnData) keys.
Proof.
  destruct columnData as [fields | field]; simpl; [| done].
  unfold add_keys. by rewrite forEach_map.
Qed.

Lemma add_details_columns_keys (columns : option (list KnackViewColumn))
    (keys : list string) :
  add_details_columns columns keys
  = add_keys (details_column_keys columns) keys.
Proof.
  unfold add_details_columns, add_keys, details_column_keys.
  rewrite forEach_opt_default, forEach_flat_map.
  apply forEach_ext. intros column acc.
  rewrite forEach_opt_default, forEach_flat_map.
  apply forEach_ext. intros group acc'.
  rewrite forEach_opt_default, forEach_flat_map.
  apply forEach_ext. intros columnData acc''.
  apply add_column_data_keys.
Qed.

Lemma extractFieldKeysFromView_details (view : KnackView) :
  view_type view = "details" →
  extractFieldKeysFromView view
  = add_keys (details_column_keys (view_columns view))
      (add_keys (details_group_keys (view_groups view)) []).
Proof.
  intros Htype. unfold extractFieldKeysFromView. rewrite Htype. simpl.
  by rewrite add_details_groups_keys, add_details_columns_keys.
Qed.

(** C9. A details view may list its fields in either nested shape: groups
    of columns of field lists, or columns of groups whose entries are one
    field or an array of fields. In both shapes the extractor returns,
    without duplicates, exactly the non-empty keys listed. Hence a view that
    lists the keys in the first shape and a view that lists the same keys
    in the second shape yield the same set of extracted keys. *)
Theorem extractFieldKeysFromView_details_shapes
    (inGroups inColumns : KnackView) :
  view_type inGroups = "details" →
  view_type inColumns = "details" →
  view_columns inGroups = None →
  view_groups inColumns = None →
  (∀ k, Some k ∈ details_group_keys (view_groups inGroups)
        ↔ Some k ∈ details_column_keys (view_columns inColumns)) →
  (∀ k, k ∈ extractFieldKeysFromView inGroups
        ↔ k ≠ "" ∧ Some k ∈ details_group_keys (view_groups inGroups))
  ∧ (∀ k, k ∈ extractFieldKeysFromView inColumns
          ↔ k ≠ "" ∧ Some k ∈ details_column_keys (view_columns inColumns))
  ∧ (∀ k, k ∈ extractFieldKeysFromView inGroups
          ↔ k ∈ extractFieldKeysFromView inColumns)
  ∧ NoDup (extractFieldKeysFromView inGroups)
  ∧ NoDup (extractFieldKeysFromView inColumns).
Proof.
  intros HtG HtC HnoC HnoG Hsame.
  rewrite !extractFieldKeysFromView_details by done.
  rewrite HnoC, HnoG.
  assert (HG : ∀ k, k ∈ add_keys (details_column_keys None)
                          (add_keys (details_group_keys (view_groups inGroups)) [])
                    ↔ k ≠ "" ∧ Some k ∈ details_group_keys (view_groups inGroups)).
  { intros k. rewrite !elem_of_add_keys. simpl.
    rewrite !elem_of_nil. naive_solver. }
  assert (HC : ∀ k, k ∈ add_keys (details_column_keys (view_columns inColumns))
                          (add_keys (details_group_keys None) [])
                    ↔ k ≠ "" ∧ Some k ∈ details_column_keys (view_columns inColumns)).
  { intros k. rewrite !elem_of_add_keys. simpl.
    rewrite !elem_of_nil. naive_solver. }
  split; [exact HG |]. split; [exact HC |]. split.
  - intros k. rewrite HG, HC, Hsame. done.
  - split; repeat apply NoDup_add_keys; apply NoDup_nil_2.
Qed.

Lemma extractFieldKeysFromView_details_shapes_witness :
  extractFieldKeysFromView Details.inGroups = ["field_1"; "field_2"]
  ∧ extractFieldKeysFromView Details.inColumns = ["field_2"; "field_1"]
  ∧ ∀ k, k ∈ extractFieldKeysFromView Details.inGroups
         ↔ k ∈ extractFieldKeysFromView Details.inColumns.
Proof.
  split; [reflexivity |]. split; [reflexivity |].
  refine (proj1 (proj2 (proj2
    (extractFieldKeysFromView_details_shapes
       Details.inGroups Details.inColumns
       eq_refl eq_refl eq_refl eq_refl _)))).
  intros k.
  change (details_group_keys (view_groups Details.inGroups))
    with [Some "field_1"; Some "field_2"; Some "field_1"; Some ""].
  change (details_column_keys (view_columns Details.inColumns))
    with [Some "field_2"; Some "field_1"; Some ""; None; Some "field_1"].
  rewrite !elem_of_cons, !elem_of_nil.
  split; intros H; repeat destruct H as [H | H]; try done; auto 10.
Defined.

(** ** Required lists *)

Lemma forEach_invariant {A S} (P : S → Prop) (l : list A)
    (body : A → S → S) (s : S) :
  P s → (∀ x acc, x ∈ l → P acc → P (body x acc)) → P (forEach l body s).
Proof.
  revert s. unfold forEach.
  induction l as [| x l IH]; intros s Hs Hbody; simpl; [done |].
  apply IH.
  - apply Hbody; [apply elem_of_cons; by left | done].
  - intros y acc Hy. apply Hbody, elem_of_cons. by right.
Qed.

Lemma drop_empty_required_ok (s : SchemaObject) :
  required_ok (drop_empty_required s).
Proof.
  unfold required_ok, drop_empty_required.
  destruct (s_required s) as [[| k req] |] eqn:Hreq; simpl;
    by rewrite ?Hreq.
Qed.

Lemma objectToSchema_required_ok (obj : KnackObject) :
  required_ok (objectToSchema obj).2.
Proof. apply drop_empty_required_ok. Qed.

Lemma generateViewSchema_required_ok (view : KnackView) (scene : KnackScene)
    (schema : KnackSchema) (s : SchemaObject) :
  generateViewSchema view scene schema = Some s → required_ok s.
Proof.
  unfold generateViewSchema. intros Hgen.
  repeat case_match; try done.
  injection Hgen as <-. apply drop_empty_required_ok.
Qed.

Lemma generateComponents_from_object (schema : KnackSchema)
    (name : string) (s : SchemaObject) :
  generateComponents schema !! name = Some s →
  ∃ obj, obj ∈ app_objects (application schema)
         ∧ objectToSchema obj = (name, s).
Proof.
  unfold generateComponents.
  apply (forEach_invariant
    (fun m : gmap string SchemaObject =>
       m !! name = Some s →
       ∃ obj, obj ∈ app_objects (application schema)
              ∧ objectToSchema obj = (name, s))).
  - by rewrite lookup_empty.
  - intros obj acc Hin IH. cbv zeta. rewrite lookup_insert.
    case_decide as Hname; [| exact IH].
    intros Heq. exists obj. split; [done |].
    rewrite (surjective_pairing (objectToSchema obj)).
    f_equal; [exact Hname | by injection Heq].
Qed.

Lemma generateViewComponents_from_view (schema : KnackSchema)
    (name : string) (s : SchemaObject) :
  generateViewComponents schema !! name = Some s →
  ∃ scene view,
    scene ∈ app_scenes (application schema)
    ∧ view ∈ scene_views scene
    ∧ Js.truthy_opt (source_object_of view) = true
    ∧ name = "view_" +:+ scene_slug scene +:+ "_" +:+ view_key view
    ∧ generateViewSchema view scene schema = Some s.
Proof.
  unfold generateViewComponents.
  set (P := fun m : gmap string SchemaObject =>
    m !! name = Some s →
    ∃ scene view,
      scene ∈ app_scenes (application schema)
      ∧ view ∈ scene_views scene
      ∧ Js.truthy_opt (source_object_of view) = true
      ∧ name = "view_" +:+ scene_slug scene +:+ "_" +:+ view_key view
      ∧ generateViewSchema view scene schema = Some s).
  apply (forEach_invariant P).
  - unfold P. by rewrite lookup_empty.
  - intros scene acc Hscene Hacc.
    apply (forEach_invariant P); [done |].
    intros view acc' Hview Hacc'.
    destruct (Js.truthy_opt (source_object_of view)) eqn:Hsrc; simpl;
      [| done].
    destruct (generateViewSchema view scene schema) as [viewSchema |] eqn:Hgen;
      [| done].
    unfold P. rewrite lookup_insert. case_decide as Hname; [| exact Hacc'].
    intros [= <-]. exists scene, view. done.
Qed.

Lemma mapFieldTypeToSchema_no_required (field : KnackField) :
  s_required (mapFieldTypeToSchema field) = None.
Proof.
  unfold mapFieldTypeToSchema, when. repeat case_match; reflexivity.
Qed.

(** C10. No generated schema carries an empty [required] array: the schema
    of every object, the schema of every view for which one is generated,
    and hence every entry of the two component maps and of the [schemas]
    of the output document, has a non-empty [required] list or no
    [required] key; the schemas of their properties carry no [required]
    key. *)
Theorem required_never_empty (schema : KnackSchema) :
  (∀ field, s_required (mapFieldTypeToSchema field) = None)
  ∧ (∀ obj, required_ok (objectToSchema obj).2)
  ∧ (∀ view scene s,
       generateViewSchema view scene schema = Some s → required_ok s)
  ∧ (∀ name s, generateComponents schema !! name = Some s → required_ok s)
  ∧ (∀ name s,
       generateViewComponents schema !! name = Some s → required_ok s)
  ∧ (∀ name s, documentSchemas schema !! name = Some s → required_ok s).
Proof.
  assert (Hobj : ∀ name s,
            generateComponents schema !! name = Some s → required_ok s).
  { intros name s Hs.
    apply generateComponents_from_object in Hs as (obj & _ & Heq).
    pose proof (objectToSchema_required_ok obj) as Hok.
    by rewrite Heq in Hok. }
  assert (Hview : ∀ name s,
            generateViewComponents schema !! name = Some s → required_ok s).
  { intros name s Hs.
    apply generateViewComponents_from_view in Hs
      as (scene & view & _ & _ & _ & _ & Hgen).
    by eapply generateViewSchema_required_ok. }
  split; [apply mapFieldTypeToSchema_no_required |].
  split; [apply objectToSchema_required_ok |].
  split; [intros *; apply generateViewSchema_required_ok |].
  split; [exact Hobj |]. split; [exact Hview |].
  intros name s. unfold documentSchemas, assign.
  rewrite !lookup_union_Some_raw, lookup_empty.
  intros [Hpage | [_ [Hv | [_ [Ho | [_ ?]]]]]]; [| by eauto | by eauto | done].
  unfold generatePaginationResponseSchemas in Hpage.
  apply lookup_insert_Some in Hpage as [[_ <-] | [_ Hpage]]; [done |].
  apply lookup_singleton_Some in Hpage as [_ <-]. done.
Qed.

Lemma required_never_empty_witness :
  required_ok (objectToSchema Objects.tasks).2
  ∧ s_required (objectToSchema Objects.tasks).2 = Some ["field_6"; "field_7"]
  ∧ s_required (objectToSchema Objects.notes).2 = None.
Proof.
  split; [| split; reflexivity].
  apply (proj2 (proj2 (proj2 (proj2 (proj2
           (required_never_empty Objects.schema))))) "object_2").
  vm_compute. reflexivity.
Defined.

(** ** View paths *)

Section ViewOperationFacts.
Variables (security : ViewSecurity) (operation : OperationObject).

Lemma requireAuthentication_parameters :
  op_parameters (requireAuthentication security operation)
  = op_parameters operation.
Proof. by destruct security. Qed.

Lemma requireAuthentication_apiKey :
  op_security operation = apiKeyOnly →
  ∃ requirement,
    op_security (requireAuthentication security operation) = [requirement]
    ∧ requirement !! "apiKey" = Some [].
Proof.
  intros Hsec. destruct security; simpl.
  - rewrite Hsec. by eexists.
  - by eexists.
Qed.

Lemma requireAuthentication_authenticated :
  security = AUTHENTICATED →
  op_security (requireAuthentication security operation)
  = [ {[ "apiKey" := []; "viewAuth" := [] ]} ]
  ∧ op_responses (requireAuthentication security operation) !! "401"
    = Some (plain_response "Unauthorized - Authentication required").
Proof. intros ->. simpl. by rewrite lookup_insert_eq. Qed.

End ViewOperationFacts.

Lemma parentIdParameters_child (scene : KnackScene) (schema : KnackSchema) :
  isChildPage scene = true →
  ∃ name,
    getParentParamSlug scene schema = Some name
    ∧ parentIdParameters true (getParentParamSlug scene schema)
        (scene_name scene)
      = [Parameter_ (createParentIdParameter name (scene_name scene))].
Proof.
  intros Hchild. apply isChildPage_true in Hchild as (parent & Hp & Hne).
  exists (parent +:+ "_id").
  rewrite (getParentParamSlug_child _ _ _ Hp Hne). split; [done |].
  unfold parentIdParameters. simpl. by destruct parent.
Qed.

Lemma view_operation_ok_intro (view : KnackView) (scene : KnackScene)
    (schema : KnackSchema) (operation : OperationObject)
    (others : list ParameterOrRef) :
  op_security operation = apiKeyOnly →
  op_parameters operation
  = Some (parentIdParameters (isViewInChildPage view scene)
            (if isViewInChildPage view scene
             then getParentParamSlug scene schema else None)
            (scene_name scene) ++ others)%list →
  view_operation_ok view scene schema
    (requireAuthentication (determineViewSecurity view scene schema)
       operation).
Proof.
  intros Hsec Hparams. split; [| split].
  - destruct (requireAuthentication_apiKey
                (determineViewSecurity view scene schema) operation Hsec)
      as (requirement & Hreq & Hkey).
    exists requirement. split; [done |]. split; [done |].
    intros Hauth.
    destruct (requireAuthentication_authenticated _ operation Hauth)
      as [Hboth _].
    rewrite Hboth in Hreq. by injection Hreq as <-.
  - intros Hauth.
    destruct (requireAuthentication_authenticated _ operation Hauth)
      as [_ ->].
    by eexists.
  - intros Hchild. rewrite requireAuthentication_parameters, Hparams.
    rewrite Hchild. unfold isViewInChildPage in Hchild.
    destruct (parentIdParameters_child scene schema Hchild)
      as (name & Hname & Hlist).
    exists name, (createParentIdParameter name (scene_name scene)).
    split; [done |]. rewrite Hlist. simpl.
    split; [apply elem_of_cons; by left | done].
Qed.

(** C6. For a view with a source object (a non-empty [source.object]), path
    generation emits one path with exactly one operation: GET unless the
    view is a form; PUT for a form whose [action] is "update", POST for
    every other form. The operation's security requirement names the
    application-id scheme ([apiKey]); when the view is classified
    authenticated it also names the bearer-token scheme ([viewAuth]) and the
    responses include "401"; when the view is in a child page, the
    parameters include a required query parameter named by
    [getParentParamSlug]. *)
Theorem generatePathsForView_one_operation
    (view : KnackView) (scene : KnackScene) (schema : KnackSchema) :
  Js.truthy_opt (source_object_of view) = true →
  ∃ item op,
    generatePathsForView view scene schema
    = {[ viewRecordsPath view scene := item ]}
    ∧ (view_type view ≠ "form" → operations item = [("get", op)])
    ∧ (view_type view = "form" → view_action view = Some "update" →
       operations item = [("put", op)])
    ∧ (view_type view = "form" → view_action view ≠ Some "update" →
       operations item = [("post", op)])
    ∧ view_operation_ok view scene schema op.
Proof.
  intros Hsource. unfold generatePathsForView. rewrite Hsource. simpl.
  destruct (Js.str_eq (view_type view) "form") eqn:Hform.
  - apply str_eq_true in Hform.
    destruct (view_action view) as [action |] eqn:Haction.
    + destruct (Js.str_eq action "update") eqn:Hupdate.
      * apply str_eq_true in Hupdate. subst action.
        eexists _, _. split; [reflexivity |].
        split; [done |]. split; [done |]. split; [done |].
        by eapply view_operation_ok_intro with (others := []);
          rewrite ?app_nil_r.
      * apply str_eq_false in Hupdate.
        eexists _, _. split; [reflexivity |].
        split; [done |]. split; [congruence |]. split; [done |].
        by eapply view_operation_ok_intro with (others := []);
          rewrite ?app_nil_r.
    + eexists _, _. split; [reflexivity |].
      split; [done |]. split; [done |]. split; [done |].
      by eapply view_operation_ok_intro with (others := []);
        rewrite ?app_nil_r.
  - apply str_eq_false in Hform.
    eexists _, _. split; [reflexivity |].
    split; [done |]. split; [done |]. split; [done |].
    by eapply view_operation_ok_intro.
Qed.

Lemma generatePathsForView_one_operation_witness :
  ∃ item op,
    generatePathsForView TaskPages.task_list Pages.tasks TaskPages.schema
    = {[ "/scenes/scene_2/views/view_2/records" := item ]}
    ∧ operations item = [("get", op)]
    ∧ view_operation_ok TaskPages.task_list Pages.tasks TaskPages.schema op.
Proof.
  destruct (generatePathsForView_one_operation
              TaskPages.task_list Pages.tasks TaskPages.schema eq_refl)
    as (item & op & Hpaths & Hget & _ & _ & Hok).
  exists item, op. split; [exact Hpaths |].
  split; [apply Hget; discriminate | exact Hok].
Defined.

(** ** Views whose source object is not found *)

Lemma forEach_reaches {A S} (Q : S → Prop) (l : list A) (body : A → S → S)
    (s : S) (x : A) :
  x ∈ l →
  (∀ acc, Q (body x acc)) →
  (∀ y acc, Q acc → Q (body y acc)) →
  Q (forEach l body s).
Proof.
  intros Hin Hx Hkeep. revert s. unfold forEach.
  induction l as [| y l IH]; intros s; [by apply elem_of_nil in Hin |].
  simpl. apply elem_of_cons in Hin as [<- | Hin].
  - apply (forEach_invariant Q); [apply Hx | auto].
  - by apply IH.
Qed.

Lemma generateViewSchema_resolved (view : KnackView) (scene : KnackScene)
    (schema : KnackSchema) (s : SchemaObject) :
  generateViewSchema view scene schema = Some s →
  is_Some (find (is_source_of view) (app_objects (application schema))).
Proof.
  unfold generateViewSchema.
  destruct (find _ _); [by eexists | done].
Qed.

Lemma generatePathsForView_lookup (view : KnackView) (scene : KnackScene)
    (schema : KnackSchema) :
  Js.truthy_opt (source_object_of view) = true →
  ∃ item op method,
    generatePathsForView view scene schema
    = {[ viewRecordsPath view scene := item ]}
    ∧ operations item = [(method, op)]
    ∧ op_tags op = [viewTagName view scene schema].
Proof.
  intros Hsource. unfold generatePathsForView. rewrite Hsource. simpl.
  repeat case_match; eexists _, _, _;
    (split; [reflexivity |]; split; [reflexivity |]);
    unfold generateViewPutOperation, generateViewPostOperation,
      generateViewGetOperation;
    by destruct (determineViewSecurity view scene schema).
Qed.

Lemma generateViewPaths_emitted (schema : KnackSchema) (scene : KnackScene)
    (view : KnackView) :
  scene ∈ app_scenes (application schema) →
  view ∈ scene_views scene →
  Js.truthy_opt (source_object_of view) = true →
  is_Some (generateViewPaths schema !! viewRecordsPath view scene).
Proof.
  intros Hscene Hview Hsource. unfold generateViewPaths.
  set (Q := fun m : gmap string PathItemObject =>
                is_Some (m !! viewRecordsPath view scene)).
  assert (Hkeep : ∀ scene' view' acc, Q acc →
    Q (if negb (Js.truthy_opt (source_object_of view')) then acc
       else assign (generatePathsForView view' scene' schema) acc)).
  { intros scene' view' acc Hacc. case_match; [done |].
    unfold Q, assign. apply lookup_union_is_Some. by right. }
  apply (forEach_reaches Q _ _ _ scene Hscene).
  - intros acc. apply (forEach_reaches Q _ _ _ view Hview).
    + intros acc'. rewrite Hsource. simpl.
      destruct (generatePathsForView_lookup view scene schema Hsource)
        as (item & op & method & -> & _).
      unfold Q, assign. apply lookup_union_is_Some. left.
      rewrite lookup_singleton_eq. by eexists.
    + intros view' acc'. apply Hkeep.
  - intros scene' acc Hacc. apply (forEach_invariant Q); [done |].
    intros view' acc' _. apply Hkeep.
Qed.

Lemma generateViewComponents_emitted (schema : KnackSchema)
    (scene : KnackScene) (view : KnackView) (s : SchemaObject) :
  scene ∈ app_scenes (application schema) →
  view ∈ scene_views scene →
  Js.truthy_opt (source_object_of view) = true →
  generateViewSchema view scene schema = Some s →
  is_Some (generateViewComponents schema
           !! ("view_" +:+ scene_slug scene +:+ "_" +:+ view_key view)).
Proof.
  intros Hscene Hview Hsource Hgen. unfold generateViewComponents.
  set (name := "view_" +:+ scene_slug scene +:+ "_" +:+ view_key view).
  set (Q := fun m : gmap string SchemaObject => is_Some (m !! name)).
  assert (Hkeep : ∀ scene' view' acc, Q acc →
    Q (if negb (Js.truthy_opt (source_object_of view')) then acc
       else match generateViewSchema view' scene' schema with
            | Some viewSchema =>
                <[ "view_" +:+ scene_slug scene' +:+ "_" +:+ view_key view'
                   := viewSchema ]> acc
            | None => acc
            end)).
  { intros scene' view' acc Hacc. repeat case_match; try done.
    unfold Q. rewrite lookup_insert. by case_decide. }
  apply (forEach_reaches Q _ _ _ scene Hscene).
  - intros acc. apply (forEach_reaches Q _ _ _ view Hview).
    + intros acc'. rewrite Hsource, Hgen. simpl.
      unfold Q, name. by rewrite lookup_insert_eq.
    + intros view' acc'. apply Hkeep.
  - intros scene' acc Hacc. apply (forEach_invariant Q); [done |].
    intros view' acc' _. apply Hkeep.
Qed.

(** C3, as stated, fails for path generation: the records path of a view
    whose source object is not found is emitted all the same. *)
Lemma generateViewPaths_unresolved_source_emitted :
  ¬ (∀ (schema : KnackSchema) (scene : KnackScene) (view : KnackView),
        scene ∈ app_scenes (application schema) →
        view ∈ scene_views scene →
        Js.truthy_opt (source_object_of view) = true →
        find (is_source_of view) (app_objects (application schema)) = None →
        generateViewComponents schema
        !! ("view_" +:+ scene_slug scene +:+ "_" +:+ view_key view) = None
        ∧ generateViewPaths schema !! viewRecordsPath view scene = None).
Proof.
  intros Hclaim.
  destruct (Hclaim Orphans.schema Orphans.scene Orphans.orphan)
    as [_ Hpath]; try reflexivity.
  - apply elem_of_cons; by left.
  - apply elem_of_cons; by left.
  - vm_compute in Hpath. discriminate Hpath.
Qed.

(** C3 (amended). For every view whose [source.object] is present but
    matches no object key: schema-component generation skips the view (no
    schema is generated for it, and every component schema that is emitted
    comes from a view whose source object is found); path generation does
    not skip it, it emits the view's records path with one operation, tagged
    with the scene ("View: " and the scene's name) in place of the object.
    Generation is not aborted: every view with a source object gets its path
    entry, and every view for which a schema is generated gets its
    component. *)
Theorem unresolved_source_skipped_for_schema
    (schema : KnackSchema) (scene : KnackScene) (view : KnackView) :
  scene ∈ app_scenes (application schema) →
  view ∈ scene_views scene →
  Js.truthy_opt (source_object_of view) = true →
  find (is_source_of view) (app_objects (application schema)) = None →
  generateViewSchema view scene schema = None
  ∧ (∀ name s,
       generateViewComponents schema !! name = Some s →
       ∃ scene' view',
         scene' ∈ app_scenes (application schema)
         ∧ view' ∈ scene_views scene'
         ∧ name = "view_" +:+ scene_slug scene' +:+ "_" +:+ view_key view'
         ∧ generateViewSchema view' scene' schema = Some s
         ∧ is_Some (find (is_source_of view')
                      (app_objects (application schema))))
  ∧ (∃ item op method,
       generatePathsForView view scene schema
       = {[ viewRecordsPath view scene := item ]}
       ∧ operations item = [(method, op)]
       ∧ op_tags op = ["View: " +:+ scene_name scene])
  ∧ is_Some (generateViewPaths schema !! viewRecordsPath view scene)
  ∧ (∀ scene' view',
       scene' ∈ app_scenes (application schema) →
       view' ∈ scene_views scene' →
       Js.truthy_opt (source_object_of view') = true →
       is_Some (generateViewPaths schema !! viewRecordsPath view' scene')
       ∧ (∀ s, generateViewSchema view' scene' schema = Some s →
               is_Some (generateViewComponents schema
                        !! ("view_" +:+ scene_slug scene' +:+ "_"
                            +:+ view_key view')))).
Proof.
  intros Hscene Hview Hsource Hmissing. split; [| split; [| split; [| split]]].
  - unfold generateViewSchema. by rewrite Hmissing.
  - intros name s Hs.
    apply generateViewComponents_from_view in Hs
      as (scene' & view' & ? & ? & ? & ? & Hgen).
    exists scene', view'. repeat (split; [done |]).
    by eapply generateViewSchema_resolved.
  - destruct (generatePathsForView_lookup view scene schema Hsource)
      as (item & op & method & Hpaths & Hops & Htags).
    exists item, op, method. repeat (split; [done |]).
    rewrite Htags. unfold viewTagName. by rewrite Hmissing.
  - by apply generateViewPaths_emitted.
  - intros scene' view' Hscene' Hview' Hsource'. split.
    + by apply generateViewPaths_emitted.
    + intros s Hgen. by eapply generateViewComponents_emitted.
Qed.

Lemma unresolved_source_skipped_for_schema_witness :
  generateViewSchema Orphans.orphan Orphans.scene Orphans.schema = None
  ∧ generateViewComponents Orphans.schema !! "view_projects_view_1" = None
  ∧ is_Some (generateViewComponents Orphans.schema !! "view_projects_view_2")
  ∧ is_Some (generateViewPaths Orphans.schema
             !! "/scenes/scene_1/views/view_1/records")
  ∧ is_Some (generateViewPaths Orphans.schema
             !! "/scenes/scene_1/views/view_2/records").
Proof.
  assert (Hscene : Orphans.scene ∈ app_scenes (application Orphans.schema))
    by (apply elem_of_cons; by left).
  assert (Horphan : Orphans.orphan ∈ scene_views Orphans.scene)
    by (apply elem_of_cons; by left).
  assert (Hlisted : Orphans.listed ∈ scene_views Orphans.scene)
    by (apply elem_of_cons; right; apply elem_of_cons; by left).
  destruct (unresolved_source_skipped_for_schema
              Orphans.schema Orphans.scene Orphans.orphan
              Hscene Horphan eq_refl eq_refl)
    as (Hnone & _ & _ & Hpath & Hrest).
  split; [exact Hnone |]. split; [reflexivity |].
  destruct (Hrest Orphans.scene Orphans.listed Hscene Hlisted eq_refl)
    as [Hpath' Hcomponent].
  split; [| split; [exact Hpath | exact Hpath']].
  eapply Hcomponent. reflexivity.
Defined.

(** ** The paths of an object, and the end-to-end example *)

Lemma append_cons c s t : String c s +:+ t = String c (s +:+ t).
Proof. reflexivity. Qed.

Lemma append_assoc (a b c : string) : (a +:+ b) +:+ c = a +:+ (b +:+ c).
Proof. induction a as [| x a IH]; [done |]. by rewrite !append_cons, IH. Qed.

Lemma append_self (s t : string) : s = s +:+ t → t = "".
Proof.
  induction s as [| x s IH]; [done |].
  rewrite append_cons. intros [= H]. auto.
Qed.

Lemma generatePathsForObject_paths (obj : KnackObject) :
  let basePath := "/objects/" +:+ object_key obj in
  let recordsPath := basePath +:+ "/records" in
  generatePathsForObject obj !! basePath
  = Some (emptyPathItem |> with_get (generateObjectSchemaOperation obj))
  ∧ generatePathsForObject obj !! recordsPath
    = Some (emptyPathItem
            |> with_get (generateListRecordsOperation obj)
            |> with_post (generateCreateRecordOperation obj))
  ∧ generatePathsForObject obj !! (recordsPath +:+ "/{id}")
    = Some (emptyPathItem
            |> with_get (generateGetRecordOperation obj)
            |> with_put (generateUpdateRecordOperation obj)
            |> with_delete (generateDeleteRecordOperation obj)).
Proof.
  intros basePath recordsPath.
  assert (H1 : basePath ≠ recordsPath).
  { intros H. by apply append_self in H. }
  assert (H2 : recordsPath ≠ recordsPath +:+ "/{id}").
  { intros H. by apply append_self in H. }
  assert (H3 : basePath ≠ recordsPath +:+ "/{id}").
  { unfold recordsPath. rewrite append_assoc. intros H.
    by apply append_self in H. }
  unfold generatePathsForObject, extend.
  fold basePath. fold recordsPath.
  generalize dependent recordsPath. generalize dependent basePath.
  intros basePath recordsPath H1 H2 H3.
  repeat split; by simplify_map_eq.
Qed.

Lemma generatePathsForView_get (view : KnackView) (scene : KnackScene)
    (schema : KnackSchema) :
  Js.truthy_opt (source_object_of view) = true →
  view_type view ≠ "form" →
  ∃ op,
    generatePathsForView view scene schema
    = {[ viewRecordsPath view scene := emptyPathItem |> with_get op ]}.
Proof.
  intros Hsource Htype. unfold generatePathsForView.
  rewrite Hsource. simpl.
  rewrite (proj2 (str_eq_false _ _) Htype). by eexists.
Qed.

(** C7. An application with the single object "object_1", whose one field
    "field_1" is a required short text, and a single scene with a single
    table view on "object_1": the paths of the document include
    "/objects/object_1" with GET, "/objects/object_1/records" with GET and
    POST, "/objects/object_1/records/{id}" with GET, PUT and DELETE, and the
    records path of the view with GET; the schemas of the document include
    "object_1", an object whose property "field_1" has type "string" and
    whose required list is "field_1". *)
Theorem project_application_end_to_end
    (schema : KnackSchema) (obj : KnackObject) (field : KnackField)
    (scene : KnackScene) (view : KnackView) (source : KnackViewSource) :
  app_objects (application schema) = [obj] →
  object_key obj = "object_1" →
  object_fields obj = [field] →
  field_key field = "field_1" →
  field_type field = "short_text" →
  field_required field = true →
  app_scenes (application schema) = [scene] →
  scene_views scene = [view] →
  view_type view = "table" →
  view_source view = Some source →
  source_object source = "object_1" →
  (∃ item,
      documentPaths schema !! "/objects/object_1" = Some item
      ∧ operations item = [("get", generateObjectSchemaOperation obj)])
  ∧ (∃ item,
       documentPaths schema !! "/objects/object_1/records" = Some item
       ∧ operations item
         = [("get", generateListRecordsOperation obj);
            ("post", generateCreateRecordOperation obj)])
  ∧ (∃ item,
       documentPaths schema !! "/objects/object_1/records/{id}" = Some item
       ∧ operations item
         = [("get", generateGetRecordOperation obj);
            ("put", generateUpdateRecordOperation obj);
            ("delete", generateDeleteRecordOperation obj)])
  ∧ (∃ item op,
       documentPaths schema
       !! ("/scenes/" +:+ scene_key scene +:+ "/views/" +:+ view_key view
           +:+ "/records") = Some item
       ∧ operations item = [("get", op)])
  ∧ (∃ s properties fieldSchema,
       documentSchemas schema !! "object_1" = Some s
       ∧ s_type s = Some "object"
       ∧ s_properties s = Some properties
       ∧ properties !! "field_1" = Some fieldSchema
       ∧ s_type fieldSchema = Some "string"
       ∧ s_required s = Some ["field_1"]).
Proof.
  intros Hobjs Hkey Hfields Hfkey Hftype Hfreq Hscenes Hviews Hvtype
    Hsrc Hso.
  assert (Hsource : Js.truthy_opt (source_object_of view) = true).
  { unfold source_object_of. rewrite Hsrc. simpl. by rewrite Hso. }
  destruct (generatePathsForView_get view scene schema Hsource)
    as [op Hview]; [by rewrite Hvtype |].
  pose proof (generatePathsForObject_paths obj) as (Hbase & Hrecords & Hid).
  rewrite Hkey in Hbase, Hrecords, Hid.
  assert (Hpaths : documentPaths schema
            = {[ viewRecordsPath view scene := emptyPathItem |> with_get op ]}
              ∪ generatePathsForObject obj).
  { unfold documentPaths, assign, generateObjectPaths, generateViewPaths,
      forEach.
    rewrite Hobjs, Hscenes. simpl. rewrite Hviews. simpl.
    rewrite Hsource, Hview. simpl. unfold assign.
    by rewrite !(right_id_L ∅ (∪)). }
  rewrite Hpaths.
  split; [| split; [| split; [| split]]].
  - eexists. split.
    + rewrite lookup_union_r by (by apply lookup_singleton_ne).
      exact Hbase.
    + reflexivity.
  - eexists. split.
    + rewrite lookup_union_r by (by apply lookup_singleton_ne).
      exact Hrecords.
    + reflexivity.
  - eexists. split.
    + rewrite lookup_union_r by (by apply lookup_singleton_ne).
      exact Hid.
    + reflexivity.
  - eexists _, op. split.
    + apply lookup_union_Some_l. apply lookup_singleton_eq.
    + reflexivity.
  - unfold documentSchemas, assign.
    rewrite lookup_union_r by reflexivity.
    destruct (generateViewComponents schema !! "object_1") as [s |] eqn:Hvc.
    { apply generateViewComponents_from_view in Hvc
        as (scene' & view' & _ & _ & _ & Hname & _).
      discriminate Hname. }
    rewrite lookup_union_r by exact Hvc.
    unfold generateComponents, forEach. rewrite Hobjs. simpl.
    rewrite Hkey, (right_id_L ∅ (∪)), lookup_insert_eq.
    unfold forEach. rewrite Hfields. simpl. rewrite Hfreq, Hfkey. simpl.
    eexists _, _, _. split; [reflexivity |]. simpl.
    split; [reflexivity |]. split; [reflexivity |].
    split; [apply lookup_insert_eq |]. split; [| reflexivity].
    unfold mapFieldTypeToSchema. by rewrite Hftype.
Qed.

Lemma project_application_end_to_end_witness :
  (∃ item,
      documentPaths EndToEnd.schema !! "/objects/object_1/records" = Some item
      ∧ operations item
        = [("get", generateListRecordsOperation Objects.projects);
           ("post", generateCreateRecordOperation Objects.projects)])
  ∧ (∃ item op,
       documentPaths EndToEnd.schema
       !! "/scenes/scene_1/views/view_1/records" = Some item
       ∧ operations item = [("get", op)]).
Proof.
  pose proof (project_application_end_to_end
                EndToEnd.schema Objects.projects Objects.project_name
                Pages.projects EndToEnd.view EndToEnd.source
                eq_refl eq_refl eq_refl eq_refl eq_refl eq_refl
                eq_refl eq_refl eq_refl eq_refl eq_refl)
    as (_ & Hrecords & _ & Hview & _).
  split; [exact Hrecords | exact Hview].
Defined.

Open Scope list_scope.

(** * More properties of the generators *)

(** ** Operation identifiers *)

Lemma alnum_not_space (c : ascii) : is_alnum c = true → Js.is_space c = false.
Proof.
  destruct c as [[] [] [] [] [] [] [] []]; vm_compute; congruence.
Qed.

Lemma removeNonAlnum_filter (s : string) :
  list_ascii_of_string (Js.removeNonAlnum s)
  = List.filter is_alnum (list_ascii_of_string s).
Proof.
  induction s as [| c s IH]; [done |]. simpl. fold (is_alnum c).
  destruct (is_alnum c); simpl; by rewrite IH.
Qed.

Lemma removeSpaces_alnum (s : string) :
  forallb is_alnum (list_ascii_of_string s) = true → Js.removeSpaces s = s.
Proof.
  induction s as [| c s IH]; [done |]. simpl.
  intros [Hc Hs]%andb_true_iff.
  by rewrite (alnum_not_space c Hc), IH.
Qed.

Lemma removeNonAlnum_alnum (s : string) :
  forallb is_alnum (list_ascii_of_string (Js.removeNonAlnum s)) = true.
Proof.
  induction s as [| c s IH]; [done |]. simpl. fold (is_alnum c).
  destruct (is_alnum c) eqn:Hc; simpl; by rewrite ?Hc, ?IH.
Qed.

Lemma removeNonAlnum_id (s : string) :
  forallb is_alnum (list_ascii_of_string s) = true → Js.removeNonAlnum s = s.
Proof.
  induction s as [| c s IH]; [done |]. simpl. fold (is_alnum c).
  intros [Hc Hs]%andb_true_iff. by rewrite Hc, IH.
Qed.

Lemma removeNonAlnum_app (a b : string) :
  Js.removeNonAlnum (a +:+ b) = Js.removeNonAlnum a +:+ Js.removeNonAlnum b.
Proof.
  induction a as [| c a IH]; [done |].
  rewrite append_cons. simpl. destruct (_ || _); by rewrite IH.
Qed.

(** X1. [formatNameForOperationId] keeps exactly the ASCII letters and
    digits of the name, in their order: its second pass, which removes white
    space, never changes anything. It is idempotent, it leaves an
    alphanumeric name as it is, and it maps a concatenation to the
    concatenation of the results, so that names that differ only in
    punctuation or spaces get the same identifier part.
    [formatObjectNameForOperationId] is the same function. *)
Theorem formatNameForOperationId_alnum (name other : string) :
  formatNameForOperationId name = Js.removeNonAlnum name
  ∧ list_ascii_of_string (formatNameForOperationId name)
    = List.filter is_alnum (list_ascii_of_string name)
  ∧ formatNameForOperationId (formatNameForOperationId name)
    = formatNameForOperationId name
  ∧ formatNameForOperationId (name +:+ other)
    = formatNameForOperationId name +:+ formatNameForOperationId other
  ∧ (forallb is_alnum (list_ascii_of_string name) = true →
     formatNameForOperationId name = name)
  ∧ formatObjectNameForOperationId name = formatNameForOperationId name.
Proof.
  assert (Hpass : ∀ s, formatNameForOperationId s = Js.removeNonAlnum s).
  { intros s. unfold formatNameForOperationId.
    apply removeSpaces_alnum, removeNonAlnum_alnum. }
  split; [apply Hpass |]. rewrite !Hpass.
  split; [apply removeNonAlnum_filter |].
  split; [apply removeNonAlnum_id, removeNonAlnum_alnum |].
  split; [apply removeNonAlnum_app |].
  split; [apply removeNonAlnum_id | reflexivity].
Qed.

Lemma formatNameForOperationId_alnum_witness :
  formatNameForOperationId "Task List" = "TaskList"
  ∧ formatNameForOperationId "TaskList" = "TaskList".
Proof.
  split; [reflexivity |].
  apply (proj1 (proj2 (proj2 (proj2 (proj2
           (formatNameForOperationId_alnum "TaskList" "")))))).
  reflexivity.
Defined.

Lemma append_inj_prefix (p a b : string) : p +:+ a = p +:+ b → a = b.
Proof.
  induction p as [| c p IH]; [done |].
  rewrite !append_cons. intros [= H]. auto.
Qed.

(** X2. The six operations of one object have six different operation
    identifiers, whatever the object's key and name are. *)
Theorem objectOperations_ids_distinct (obj : KnackObject) :
  NoDup (op_operationId <$> objectOperations obj).
Proof.
  unfold objectOperations. simpl.
  repeat (apply NoDup_cons; split;
    [ rewrite ?elem_of_cons, elem_of_nil;
      intros H; repeat destruct H as [H | H]; try done;
      apply append_inj_prefix in H; discriminate H
    | ]).
  apply NoDup_nil_2.
Qed.

(** ** Where the operations of the document come from *)

Lemma generatePathsForObject_operations (obj : KnackObject) (path : string)
    (item : PathItemObject) (method : string) (op : OperationObject) :
  generatePathsForObject obj !! path = Some item →
  (method, op) ∈ operations item →
  op ∈ objectOperations obj.
Proof.
  unfold generatePathsForObject, extend.
  set (basePath := "/objects/" +:+ object_key obj).
  set (recordsPath := basePath +:+ "/records").
  assert (H1 : basePath ≠ recordsPath).
  { intros H. by apply append_self in H. }
  assert (H2 : recordsPath ≠ recordsPath +:+ "/{id}").
  { intros H. by apply append_self in H. }
  assert (H3 : basePath ≠ recordsPath +:+ "/{id}").
  { unfold recordsPath. rewrite append_assoc. intros H.
    by apply append_self in H. }
  generalize dependent recordsPath. generalize dependent basePath.
  intros basePath recordsPath H1 H2 H3 Hitem Hop.
  unfold objectOperations.
  destruct (decide (path = recordsPath +:+ "/{id}")) as [-> | ?];
    [| destruct (decide (path = recordsPath)) as [-> | ?];
       [| destruct (decide (path = basePath)) as [-> | ?]]];
    simplify_map_eq; unfold operations in Hop; simpl in Hop;
    repeat (apply elem_of_cons in Hop as [[= -> ->] | Hop];
            [apply list_elem_of_In; simpl; tauto |]);
    by apply elem_of_nil in Hop.
Qed.

Lemma generateObjectPaths_from_object (schema : KnackSchema) (path : string)
    (item : PathItemObject) :
  generateObjectPaths schema !! path = Some item →
  ∃ obj, obj ∈ app_objects (application schema)
         ∧ generatePathsForObject obj !! path = Some item.
Proof.
  unfold generateObjectPaths.
  apply (forEach_invariant
    (fun m : gmap string PathItemObject =>
       m !! path = Some item →
       ∃ obj, obj ∈ app_objects (application schema)
              ∧ generatePathsForObject obj !! path = Some item)).
  - by rewrite lookup_empty.
  - intros obj acc Hin IH. unfold assign.
    rewrite lookup_union_Some_raw. intros [Hobj | [_ Hacc]]; eauto.
Qed.

Lemma generateViewPaths_from_view (schema : KnackSchema) (path : string)
    (item : PathItemObject) :
  generateViewPaths schema !! path = Some item →
  ∃ scene view,
    scene ∈ app_scenes (application schema)
    ∧ view ∈ scene_views scene
    ∧ Js.truthy_opt (source_object_of view) = true
    ∧ generatePathsForView view scene schema !! path = Some item.
Proof.
  unfold generateViewPaths.
  set (P := fun m : gmap string PathItemObject =>
    m !! path = Some item →
    ∃ scene view,
      scene ∈ app_scenes (application schema)
      ∧ view ∈ scene_views scene
      ∧ Js.truthy_opt (source_object_of view) = true
      ∧ generatePathsForView view scene schema !! path = Some item).
  apply (forEach_invariant P).
  - unfold P. by rewrite lookup_empty.
  - intros scene acc Hscene Hacc.
    apply (forEach_invariant P); [done |].
    intros view acc' Hview Hacc'.
    destruct (Js.truthy_opt (source_object_of view)) eqn:Hsrc; simpl;
      [| done].
    unfold P, assign. rewrite lookup_union_Some_raw.
    intros [Hv | [_ Ha]]; [| by apply Hacc'].
    exists scene, view. done.
Qed.

Lemma generatePathsForView_operations (view : KnackView) (scene : KnackScene)
    (schema : KnackSchema) (path : string) (item : PathItemObject)
    (method : string) (op : OperationObject) :
  generatePathsForView view scene schema !! path = Some item →
  (method, op) ∈ operations item →
  path = viewRecordsPath view scene ∧ op ∈ viewOperations view scene schema.
Proof.
  unfold generatePathsForView, viewOperations.
  repeat case_match; try (by rewrite lookup_empty);
    intros [<- <-]%lookup_singleton_Some Hop;
    unfold operations in Hop; simpl in Hop;
    apply elem_of_cons in Hop as [[= -> ->] | Hop];
    try (by apply elem_of_nil in Hop);
    (split; [done |]); apply list_elem_of_In; simpl; tauto.
Qed.

Lemma emitted_from (schema : KnackSchema) (op : OperationObject) :
  emitted schema op →
  (∃ obj, obj ∈ app_objects (application schema)
          ∧ op ∈ objectOperations obj)
  ∨ (∃ scene view,
       scene ∈ app_scenes (application schema)
       ∧ view ∈ scene_views scene
       ∧ Js.truthy_opt (source_object_of view) = true
       ∧ op ∈ viewOperations view scene schema).
Proof.
  intros (path & item & method & Hitem & Hop).
  unfold documentPaths, assign in Hitem.
  rewrite !lookup_union_Some_raw, lookup_empty in Hitem.
  destruct Hitem as [Hview | [_ [Hobj | [_ ?]]]]; [| | done].
  - right. apply generateViewPaths_from_view in Hview
      as (scene & view & ? & ? & ? & Hitem).
    exists scene, view. repeat (split; [done |]).
    by eapply generatePathsForView_operations.
  - left. apply generateObjectPaths_from_object in Hobj as (obj & ? & Hitem).
    exists obj. split; [done |].
    by eapply generatePathsForObject_operations.
Qed.

(** ** Security requirements and parameters of the emitted operations *)

Lemma objectOperations_security (obj : KnackObject) (op : OperationObject) :
  op ∈ objectOperations obj →
  op_security op = apiKeyOnly ∨ op_security op = apiKeyAndRest.
Proof.
  unfold objectOperations. intros Hop.
  repeat (apply elem_of_cons in Hop as [-> | Hop]; [by auto |]).
  by apply elem_of_nil in Hop.
Qed.

Lemma viewOperations_security (view : KnackView) (scene : KnackScene)
    (schema : KnackSchema) (op : OperationObject) :
  op ∈ viewOperations view scene schema →
  match determineViewSecurity view scene schema with
  | AUTHENTICATED =>
      op_security op = [ {[ "apiKey" := []; "viewAuth" := [] ]} ]
      ∧ is_Some (op_responses op !! "401")
  | PUBLIC =>
      op_security op = apiKeyOnly ∧ op_responses op !! "401" = None
  end.
Proof.
  unfold viewOperations. intros Hop.
  repeat (apply elem_of_cons in Hop as [-> | Hop];
    [ unfold generateViewGetOperation, generateViewPostOperation,
        generateViewPutOperation;
      destruct (determineViewSecurity view scene schema); simpl;
      (split; [done |]); (by rewrite lookup_insert_eq) || done |]).
  by apply elem_of_nil in Hop.
Qed.

Lemma defined_schemes (requirement : gmap string (list string))
    (name : string) :
  requirement ∈ [ {[ "apiKey" := [] ]};
                  {[ "apiKey" := []; "apiKeyRest" := [] ]};
                  {[ "apiKey" := []; "viewAuth" := [] ]} ] →
  is_Some (requirement !! name) →
  is_Some (generateSecuritySchemes !! name).
Proof.
  intros Hreq [scopes Hname]. unfold generateSecuritySchemes.
  repeat (apply elem_of_cons in Hreq as [-> | Hreq];
    [ repeat (apply lookup_insert_Some in Hname as [[<- _] | [_ Hname]];
              [by eexists |]);
      try (apply lookup_singleton_Some in Hname as [<- _]; by eexists);
      by rewrite lookup_empty in Hname |]).
  by apply elem_of_nil in Hreq.
Qed.

(** X3. Every operation of the output document, of an object or of a view,
    has exactly one security requirement; the requirement includes the
    application-id scheme [apiKey]; and every scheme it names is one of the
    schemes that [generateSecuritySchemes] defines. *)
Theorem emitted_security_defined (schema : KnackSchema)
    (op : OperationObject) :
  emitted schema op →
  ∃ requirement,
    op_security op = [requirement]
    ∧ requirement !! "apiKey" = Some []
    ∧ ∀ name, is_Some (requirement !! name) →
              is_Some (documentSecuritySchemes !! name).
Proof.
  intros Hop. apply emitted_from in Hop
    as [(obj & _ & Hop) | (scene & view & _ & _ & _ & Hop)].
  - apply objectOperations_security in Hop as [-> | ->];
      eexists; (split; [reflexivity |]); (split; [done |]);
      intros name; apply defined_schemes;
      apply list_elem_of_In; simpl; tauto.
  - apply viewOperations_security in Hop.
    destruct (determineViewSecurity view scene schema);
      destruct Hop as [-> _];
      eexists; (split; [reflexivity |]); (split; [done |]);
      intros name; apply defined_schemes;
      apply list_elem_of_In; simpl; tauto.
Qed.

Lemma emitted_intro (schema : KnackSchema) (path : string)
    (item : PathItemObject) (method : string) (op : OperationObject) :
  documentPaths schema !! path = Some item →
  (method, op) ∈ operations item →
  emitted schema op.
Proof. intros Hitem Hop. by exists path, item, method. Qed.

Lemma emitted_security_defined_witness :
  ∃ requirement,
    op_security (generateListRecordsOperation Objects.tasks) = [requirement]
    ∧ requirement !! "apiKey" = Some []
    ∧ ∀ name, is_Some (requirement !! name) →
              is_Some (documentSecuritySchemes !! name).
Proof.
  apply (emitted_security_defined TaskPages.schema).
  apply (emitted_intro _ "/objects/object_2/records"
           (emptyPathItem
            |> with_get (generateListRecordsOperation Objects.tasks)
            |> with_post (generateCreateRecordOperation Objects.tasks))
           "get").
  - vm_compute. reflexivity.
  - unfold operations. simpl. apply elem_of_cons. by left.
Defined.

(** X4. For the operation that path generation emits for a view: the
    bearer-token scheme [viewAuth] is required if and only if the view is
    classified authenticated, and so is the presence of a "401" response (a
    public view has none); the REST key [apiKeyRest] is never required. *)
Theorem generatePathsForView_bearer_iff_authenticated
    (view : KnackView) (scene : KnackScene) (schema : KnackSchema)
    (path : string) (item : PathItemObject) (method : string)
    (op : OperationObject) :
  generatePathsForView view scene schema !! path = Some item →
  (method, op) ∈ operations item →
  (∀ requirement,
      requirement ∈ op_security op →
      requirement !! "apiKeyRest" = None
      ∧ (is_Some (requirement !! "viewAuth")
         ↔ determineViewSecurity view scene schema = AUTHENTICATED))
  ∧ (is_Some (op_responses op !! "401")
     ↔ determineViewSecurity view scene schema = AUTHENTICATED).
Proof.
  intros Hitem Hop.
  destruct (generatePathsForView_operations _ _ _ _ _ _ _ Hitem Hop)
    as [_ Hin].
  apply viewOperations_security in Hin.
  destruct (determineViewSecurity view scene schema);
    destruct Hin as [Hsec H401]; rewrite Hsec.
  - split.
    + intros requirement Hreq. apply list_elem_of_singleton in Hreq as ->.
      split; [done |]. split; [by intros [? ?] | done].
    + rewrite H401. split; [by intros [? ?] | done].
  - split.
    + intros requirement Hreq. apply list_elem_of_singleton in Hreq as ->.
      split; [done |]. split; [done | by eexists].
    + done.
Qed.

Lemma objectOperations_parameters (obj : KnackObject) (op : OperationObject)
    (ref : string) :
  op ∈ objectOperations obj →
  ParameterRef ref ∈ default [] (op_parameters op) →
  ref ∈ [ "#/components/parameters/page";
          "#/components/parameters/rowsPerPage";
          "#/components/parameters/sortField";
          "#/components/parameters/sortOrder" ].
Proof.
  unfold objectOperations. intros Hop Href.
  repeat (apply elem_of_cons in Hop as [-> | Hop];
    [ simpl in Href;
      repeat (apply elem_of_cons in Href as [[= <-] | Href];
              [apply list_elem_of_In; simpl; tauto |]);
      repeat (apply elem_of_cons in Href as [? | Href]; [done |]);
      by apply elem_of_nil in Href |]).
  by apply elem_of_nil in Hop.
Qed.

Lemma parentIdParameters_no_ref (isChildPageView : bool)
    (parentParamSlug : option string) (sceneName ref : string) :
  ParameterRef ref
  ∉ parentIdParameters isChildPageView parentParamSlug sceneName.
Proof.
  unfold parentIdParameters. repeat case_match;
    rewrite ?elem_of_cons, elem_of_nil; naive_solver.
Qed.

Lemma viewOperations_parameters (view : KnackView) (scene : KnackScene)
    (schema : KnackSchema) (op : OperationObject) (ref : string) :
  op ∈ viewOperations view scene schema →
  ParameterRef ref ∈ default [] (op_parameters op) →
  ref ∈ [ "#/components/parameters/page";
          "#/components/parameters/rowsPerPage" ].
Proof.
  unfold viewOperations. intros Hop Href.
  assert (Hparams : ∃ others,
    op_parameters op
    = Some (parentIdParameters (isViewInChildPage view scene)
              (if isViewInChildPage view scene
               then getParentParamSlug scene schema else None)
              (scene_name scene) ++ others)%list
    ∧ (others = []
       ∨ others = [ ParameterRef "#/components/parameters/page";
                    ParameterRef "#/components/parameters/rowsPerPage" ])).
  { apply elem_of_cons in Hop as [-> | Hop].
    { unfold generateViewGetOperation.
      rewrite requireAuthentication_parameters. simpl.
      eexists. split; [reflexivity |]. destruct (negb _); auto. }
    apply elem_of_cons in Hop as [-> | Hop].
    { unfold generateViewPostOperation.
      rewrite requireAuthentication_parameters. simpl.
      exists []. rewrite app_nil_r. auto. }
    apply elem_of_cons in Hop as [-> | Hop].
    { unfold generateViewPutOperation.
      rewrite requireAuthentication_parameters. simpl.
      exists []. rewrite app_nil_r. auto. }
    by apply elem_of_nil in Hop. }
  destruct Hparams as (others & Hparams & Hothers).
  rewrite Hparams in Href. simpl in Href.
  apply elem_of_app in Href as [Href | Href];
    [by apply parentIdParameters_no_ref in Href |].
  destruct Hothers as [-> | ->]; [by apply elem_of_nil in Href |].
  repeat (apply elem_of_cons in Href as [[= <-] | Href];
          [apply list_elem_of_In; simpl; tauto |]).
  by apply elem_of_nil in Href.
Qed.

(** X5. Every parameter reference of every operation of the output
    document points into [#/components/parameters/] at a parameter that the
    document defines there (the pagination and sort parameters). *)
Theorem emitted_parameter_refs_defined (schema : KnackSchema)
    (op : OperationObject) (ref : string) :
  emitted schema op →
  ParameterRef ref ∈ default [] (op_parameters op) →
  ∃ name, ref = "#/components/parameters/" +:+ name
          ∧ is_Some (documentParameters !! name).
Proof.
  intros Hop Href.
  assert (Hall : ref ∈ [ "#/components/parameters/page";
                         "#/components/parameters/rowsPerPage";
                         "#/components/parameters/sortField";
                         "#/components/parameters/sortOrder" ]).
  { apply emitted_from in Hop
      as [(obj & _ & Hop) | (scene & view & _ & _ & _ & Hop)].
    - by eapply objectOperations_parameters.
    - eapply viewOperations_parameters in Hop; [| done].
      apply list_elem_of_In in Hop. apply list_elem_of_In. simpl in *.
      tauto. }
  repeat (apply elem_of_cons in Hall as [-> | Hall];
          [eexists; split; [reflexivity | by vm_compute; eexists] |]).
  by apply elem_of_nil in Hall.
Qed.

Lemma emitted_parameter_refs_defined_witness :
  ∃ name, "#/components/parameters/sortOrder"
          = "#/components/parameters/" +:+ name
          ∧ is_Some (documentParameters !! name).
Proof.
  apply (emitted_parameter_refs_defined TaskPages.schema
           (generateListRecordsOperation Objects.tasks)).
  - apply (emitted_intro _ "/objects/object_2/records"
             (emptyPathItem
              |> with_get (generateListRecordsOperation Objects.tasks)
              |> with_post (generateCreateRecordOperation Objects.tasks))
             "get").
    + vm_compute. reflexivity.
    + unfold operations. simpl. apply elem_of_cons. by left.
  - simpl. do 3 (apply elem_of_cons; right). apply elem_of_cons. by left.
Defined.

Lemma generatePathsForView_bearer_iff_authenticated_witness :
  is_Some
    (op_responses
       (generateViewGetOperation TaskPages.task_list Pages.tasks
          TaskPages.schema AUTHENTICATED
          "#/components/schemas/view_tasks_view_2" true (Some "projects_id"))
     !! "401")
  ↔ determineViewSecurity TaskPages.task_list Pages.tasks TaskPages.schema
    = AUTHENTICATED.
Proof.
  apply (generatePathsForView_bearer_iff_authenticated
           TaskPages.task_list Pages.tasks TaskPages.schema
           "/scenes/scene_2/views/view_2/records"
           (emptyPathItem
            |> with_get
                 (generateViewGetOperation TaskPages.task_list Pages.tasks
                    TaskPages.schema AUTHENTICATED
                    "#/components/schemas/view_tasks_view_2" true
                    (Some "projects_id")))
           "get").
  - vm_compute. reflexivity.
  - unfold operations. simpl. apply elem_of_cons. by left.
Defined.

(** ** Object paths and view paths *)

Lemma generatePathsForObject_prefix (obj : KnackObject) (path : string)
    (item : PathItemObject) :
  generatePathsForObject obj !! path = Some item →
  ∃ rest, path = "/objects/" +:+ rest.
Proof.
  unfold generatePathsForObject, extend. intros Hitem.
  repeat (apply lookup_insert_Some in Hitem as [[<- _] | [_ Hitem]];
          [rewrite ?append_assoc; by eexists |]).
  by rewrite lookup_empty in Hitem.
Qed.

Lemma generatePathsForView_prefix (view : KnackView) (scene : KnackScene)
    (schema : KnackSchema) (path : string) (item : PathItemObject) :
  generatePathsForView view scene schema !! path = Some item →
  ∃ rest, path = "/scenes/" +:+ rest.
Proof.
  unfold generatePathsForView, viewRecordsPath.
  repeat case_match; try (by rewrite lookup_empty);
    intros [<- _]%lookup_singleton_Some; by eexists.
Qed.

Lemma object_view_paths_disjoint (schema : KnackSchema) (path : string) :
  ¬ (is_Some (generateObjectPaths schema !! path)
     ∧ is_Some (generateViewPaths schema !! path)).
Proof.
  intros [[oitem Ho] [vitem Hv]].
  apply generateObjectPaths_from_object in Ho as (obj & _ & Ho).
  apply generatePathsForObject_prefix in Ho as [orest ->].
  apply generateViewPaths_from_view in Hv as (scene & view & _ & _ & _ & Hv).
  apply generatePathsForView_prefix in Hv as [vrest Hv].
  discriminate Hv.
Qed.

Lemma generateObjectPaths_kept (schema : KnackSchema) (path : string)
    (item : PathItemObject) :
  generateObjectPaths schema !! path = Some item →
  documentPaths schema !! path = Some item.
Proof.
  intros Ho. unfold documentPaths, assign. rewrite (right_id_L ∅ (∪)).
  rewrite lookup_union_r; [done |].
  destruct (generateViewPaths schema !! path) eqn:Hv; [| done].
  exfalso. apply (object_view_paths_disjoint schema path).
  split; by eexists.
Qed.

(** X6. The path templates of objects and of views are disjoint: no path
    is generated both for an object and for a view. Hence merging the two
    path maps into the document loses nothing: every object path and every
    view path is in the document with the item it was generated with. *)
Theorem documentPaths_disjoint (schema : KnackSchema) (path : string) :
  ¬ (is_Some (generateObjectPaths schema !! path)
     ∧ is_Some (generateViewPaths schema !! path))
  ∧ (∀ item, generateObjectPaths schema !! path = Some item →
             documentPaths schema !! path = Some item)
  ∧ (∀ item, generateViewPaths schema !! path = Some item →
             documentPaths schema !! path = Some item).
Proof.
  split; [apply object_view_paths_disjoint |].
  split; [apply generateObjectPaths_kept |].
  intros item Hv. unfold documentPaths, assign.
  by apply lookup_union_Some_l.
Qed.

Lemma documentPaths_disjoint_witness :
  is_Some (documentPaths TaskPages.schema !! "/objects/object_2/records")
  ∧ is_Some (documentPaths TaskPages.schema
             !! "/scenes/scene_2/views/view_2/records").
Proof.
  split.
  - eexists.
    apply (proj1 (proj2 (documentPaths_disjoint TaskPages.schema
                           "/objects/object_2/records"))).
    vm_compute. reflexivity.
  - eexists.
    apply (proj2 (proj2 (documentPaths_disjoint TaskPages.schema
                           "/scenes/scene_2/views/view_2/records"))).
    vm_compute. reflexivity.
Defined.

(** ** Objects with distinct keys *)

Lemma slash_free_split (k1 k2 s1 s2 : string) :
  slash_free k1 → slash_free k2 →
  (s1 = "" ∨ ∃ t, s1 = String "/" t) →
  (s2 = "" ∨ ∃ t, s2 = String "/" t) →
  k1 +:+ s1 = k2 +:+ s2 →
  k1 = k2 ∧ s1 = s2.
Proof.
  unfold slash_free. revert k2.
  induction k1 as [| c k1 IH]; intros [| d k2] H1 H2 Hs1 Hs2 Heq.
  - done.
  - exfalso. change ("" +:+ s1) with s1 in Heq. rewrite append_cons in Heq.
    destruct Hs1 as [-> | [t ->]]; [done |].
    injection Heq as <- _. apply H2. simpl. apply elem_of_cons. by left.
  - exfalso. change ("" +:+ s2) with s2 in Heq. rewrite append_cons in Heq.
    destruct Hs2 as [-> | [t ->]]; [done |].
    injection Heq as -> _. apply H1. simpl. apply elem_of_cons. by left.
  - rewrite !append_cons in Heq. injection Heq as -> Heq.
    destruct (IH k2) as [-> ->]; try done.
    + intros Hin. apply H1. simpl. apply elem_of_cons. by right.
    + intros Hin. apply H2. simpl. apply elem_of_cons. by right.
Qed.

Lemma NoDup_fmap_eq {A B} (f : A → B) (l : list A) (x y : A) :
  NoDup (f <$> l) → x ∈ l → y ∈ l → f x = f y → x = y.
Proof.
  induction l as [| z l IH]; intros Hnd Hx Hy Hf;
    [by apply elem_of_nil in Hx |].
  rewrite fmap_cons in Hnd. apply NoDup_cons in Hnd as [Hz Hnd].
  apply elem_of_cons in Hx as [-> | Hx];
    apply elem_of_cons in Hy as [-> | Hy]; auto.
  - exfalso. apply Hz. rewrite Hf. by apply list_elem_of_fmap_2.
  - exfalso. apply Hz. rewrite <- Hf. by apply list_elem_of_fmap_2.
Qed.

Lemma generateObjectPaths_emitted (schema : KnackSchema) (obj : KnackObject)
    (path : string) :
  obj ∈ app_objects (application schema) →
  is_Some (generatePathsForObject obj !! path) →
  is_Some (generateObjectPaths schema !! path).
Proof.
  intros Hobj Hpath. unfold generateObjectPaths.
  apply (forEach_reaches
           (fun m : gmap string PathItemObject => is_Some (m !! path))
           _ _ _ obj Hobj).
  - intros acc. unfold assign. apply lookup_union_is_Some. by left.
  - intros obj' acc Hacc. unfold assign. apply lookup_union_is_Some.
    by right.
Qed.

Lemma append_nil_r (s : string) : s +:+ "" = s.
Proof. induction s as [| c s IH]; [done |]. by rewrite append_cons, IH. Qed.

(** The three paths of an object, with the suffix after the key. *)
Lemma generatePathsForObject_suffix (obj : KnackObject) (path : string)
    (item : PathItemObject) :
  generatePathsForObject obj !! path = Some item →
  ∃ suffix,
    path = "/objects/" +:+ object_key obj +:+ suffix
    ∧ (suffix = "" ∨ ∃ t, suffix = String "/" t).
Proof.
  unfold generatePathsForObject, extend. intros Hitem.
  repeat (apply lookup_insert_Some in Hitem as [[<- _] | [_ Hitem]];
          [first
             [ exists ""; split; [by rewrite append_nil_r | by left]
             | rewrite ?append_assoc; eexists; split; [reflexivity |];
               right; by eexists ] |]).
  by rewrite lookup_empty in Hitem.
Qed.

(** X7. In an application whose object keys are pairwise distinct and
    contain no "/", every object has its three paths in the document, filed
    with exactly its own six operations: the structure under
    [/objects/{key}] (GET), the list and create operations under
    [/objects/{key}/records] (GET, POST), and the get, update and delete
    operations under [/objects/{key}/records/{id}] (GET, PUT, DELETE). *)
Theorem documentPaths_object_crud (schema : KnackSchema) (obj : KnackObject) :
  NoDup (object_key <$> app_objects (application schema)) →
  (∀ o, o ∈ app_objects (application schema) → slash_free (object_key o)) →
  obj ∈ app_objects (application schema) →
  let basePath := "/objects/" +:+ object_key obj in
  (∃ item, documentPaths schema !! basePath = Some item
           ∧ operations item = [("get", generateObjectSchemaOperation obj)])
  ∧ (∃ item, documentPaths schema !! (basePath +:+ "/records") = Some item
             ∧ operations item
               = [("get", generateListRecordsOperation obj);
                  ("post", generateCreateRecordOperation obj)])
  ∧ (∃ item,
       documentPaths schema !! ((basePath +:+ "/records") +:+ "/{id}")
       = Some item
       ∧ operations item
         = [("get", generateGetRecordOperation obj);
            ("put", generateUpdateRecordOperation obj);
            ("delete", generateDeleteRecordOperation obj)]).
Proof.
  intros Hnd Hslash Hobj basePath.
  assert (Hown : ∀ path item,
            generatePathsForObject obj !! path = Some item →
            documentPaths schema !! path = Some item).
  { intros path item Hitem.
    apply generateObjectPaths_kept.
    destruct (generateObjectPaths_emitted schema obj path Hobj)
      as [item' Hitem']; [by eexists |].
    rewrite Hitem'. f_equal.
    apply generateObjectPaths_from_object in Hitem' as (obj' & Hobj' & Hitem').
    destruct (generatePathsForObject_suffix _ _ _ Hitem) as (s & Hs & Hshape).
    destruct (generatePathsForObject_suffix _ _ _ Hitem')
      as (s' & Hs' & Hshape').
    rewrite Hs in Hs'. apply append_inj_prefix in Hs'.
    apply slash_free_split in Hs' as [Hkey _]; auto.
    assert (obj = obj') as <- by (by eapply NoDup_fmap_eq).
    congruence. }
  pose proof (generatePathsForObject_paths obj) as (Hbase & Hrecords & Hid).
  split; [| split]; eexists; (split; [by apply Hown |]); reflexivity.
Qed.

Lemma documentPaths_object_crud_witness :
  ∃ item,
    documentPaths Objects.schema !! "/objects/object_2/records" = Some item
    ∧ operations item
      = [("get", generateListRecordsOperation Objects.tasks);
         ("post", generateCreateRecordOperation Objects.tasks)].
Proof.
  refine (proj1 (proj2 (documentPaths_object_crud
                          Objects.schema Objects.tasks _ _ _))).
  - apply (bool_decide_unpack _). vm_compute. exact I.
  - intros o Ho. simpl in Ho.
    repeat (apply elem_of_cons in Ho as [-> | Ho];
            [apply (bool_decide_unpack _); vm_compute; exact I |]).
    by apply elem_of_nil in Ho.
  - simpl. apply elem_of_cons. right. apply elem_of_cons. by left.
Defined.

(** ** Properties and required lists of the generated schemas *)


Section InsertLoop.
Context {A V : Type} (key : A → string) (val : A → V).





End InsertLoop.



(** ** Components of objects *)

Lemma startsWith_nil (s : string) : Js.startsWith s "" = true.
Proof. by destruct s. Qed.






(** ** The keys a view lists *)

Lemma add_keys_app (ks1 ks2 : list (option string)) (keys : list string) :
  add_keys (ks1 ++ ks2) keys = add_keys ks2 (add_keys ks1 keys).
Proof. apply forEach_app. Qed.

Lemma add_field_columns_keys (columns : option (list KnackViewColumn))
    (keys : list string) :
  add_field_columns columns keys
  = add_keys (column_key <$> default [] columns) keys.
Proof.
  unfold add_field_columns, add_keys.
  rewrite forEach_opt_default.
  change (column_key <$> default [] columns)
    with (map column_key (default [] columns)).
  rewrite forEach_map. apply forEach_ext. intros column acc.
  unfold column_key. by destruct (Js.str_eq _ _).
Qed.

Lemma add_form_inputs_keys (groups : option (list KnackViewGroup))
    (keys : list string) :
  add_form_inputs groups keys
  = add_keys (input_key_of <$> group_inputs groups) keys.
Proof.
  unfold add_form_inputs, add_keys, group_inputs.
  change (input_key_of <$> ?l) with (map input_key_of l).
  rewrite forEach_opt_default, forEach_map, forEach_flat_map.
  apply forEach_ext. intros group acc.
  rewrite forEach_opt_default, forEach_flat_map.
  apply forEach_ext. intros column acc'.
  rewrite forEach_opt_default.
  apply forEach_ext. intros input acc''.
  unfold input_key_of. by destruct (Js.truthy_opt _).
Qed.

Lemma add_search_filters_keys (groups : option (list KnackViewGroup))
    (keys : list string) :
  add_search_filters groups keys
  = add_keys (filter_key <$> group_fields groups) keys.
Proof.
  unfold add_search_filters, add_keys, group_fields.
  change (filter_key <$> ?l) with (map filter_key l).
  rewrite forEach_opt_default, forEach_map, forEach_flat_map.
  apply forEach_ext. intros group acc.
  rewrite forEach_opt_default, forEach_flat_map.
  apply forEach_ext. intros column acc'.
  rewrite forEach_opt_default.
  apply forEach_ext. intros field acc''.
  unfold filter_key, add_key. destruct (vf_field field) as [f |]; [| done].
  destruct (Js.str_eq f "keyword_search"); simpl;
    [by rewrite andb_false_r | by rewrite andb_true_r].
Qed.

Lemma extractFieldKeysFromView_add_keys (view : KnackView) :
  extractFieldKeysFromView view = add_keys (listed_keys view) [].
Proof.
  unfold extractFieldKeysFromView, listed_keys.
  repeat case_match; try done.
  - apply add_field_columns_keys.
  - apply add_form_inputs_keys.
  - by rewrite add_keys_app, add_details_groups_keys, add_details_columns_keys.
  - by rewrite add_keys_app, add_field_columns_keys, add_search_filters_keys.
Qed.

Lemma add_keys_cons (o : option string) (ks : list (option string))
    (keys : list string) :
  add_keys (o :: ks) keys = add_keys ks (add_key o keys).
Proof. reflexivity. Qed.

Lemma add_keys_fresh (keys : list string) :
  ∀ acc, NoDup (acc ++ keys) → "" ∉ keys →
         add_keys (Some <$> keys) acc = acc ++ keys.
Proof.
  induction keys as [| k keys IH]; intros acc Hnd Hblank.
  - by rewrite app_nil_r.
  - rewrite not_elem_of_cons in Hblank. destruct Hblank as [Hk Hblank].
    rewrite fmap_cons, add_keys_cons.
    assert (Hadd : add_key (Some k) acc = acc ++ [k]).
    { unfold add_key, set_add.
      rewrite (proj2 (truthy_nonempty k)) by done.
      rewrite bool_decide_eq_false_2; [done |].
      intros Hin. apply NoDup_app in Hnd as (_ & Hdisj & _).
      apply (Hdisj k Hin). apply elem_of_cons. by left. }
    rewrite Hadd, IH; [by rewrite <- app_assoc | | done].
    by rewrite <- app_assoc.
Qed.

(** X10. For every view, of any type: the extracted field keys are the
    non-empty keys the view lists for its type, each once ([Set] semantics,
    no empty key); listed keys that are distinct and not empty are returned
    as they are, in their order; and a view whose type is none of table,
    form, details and search yields no key, and therefore no view schema. *)
Theorem extractFieldKeysFromView_listed (view : KnackView) :
  NoDup (extractFieldKeysFromView view)
  ∧ (∀ k, k ∈ extractFieldKeysFromView view
          ↔ k ≠ "" ∧ Some k ∈ listed_keys view)
  ∧ (∀ keys, listed_keys view = Some <$> keys → NoDup keys → "" ∉ keys →
             extractFieldKeysFromView view = keys)
  ∧ (view_type view ∉ ["table"; "form"; "details"; "search"] →
     extractFieldKeysFromView view = []
     ∧ ∀ scene schema, generateViewSchema view scene schema = None).
Proof.
  rewrite extractFieldKeysFromView_add_keys.
  split; [apply NoDup_add_keys, NoDup_nil_2 |]. split; [| split].
  - intros k. rewrite elem_of_add_keys, elem_of_nil. naive_solver.
  - intros keys -> Hnd Hblank. by rewrite add_keys_fresh.
  - intros Hother.
    assert (Hnone : extractFieldKeysFromView view = []).
    { unfold extractFieldKeysFromView.
      rewrite !(proj2 (str_eq_false _ _)); [done | | | |];
        intros Heq; apply Hother; rewrite Heq;
        apply list_elem_of_In; simpl; tauto. }
    rewrite <- extractFieldKeysFromView_add_keys. split; [exact Hnone |].
    intros scene schema. unfold generateViewSchema.
    destruct (find _ _); [| done]. by rewrite Hnone.
Qed.

Lemma extractFieldKeysFromView_listed_witness :
  extractFieldKeysFromView Orphans.listed = ["field_1"]
  ∧ extractFieldKeysFromView Views.menu = []
  ∧ generateViewSchema Views.menu Orphans.scene Orphans.schema = None.
Proof.
  split; [| split].
  - apply (proj1 (proj2 (proj2
             (extractFieldKeysFromView_listed Orphans.listed)))).
    + reflexivity.
    + apply (bool_decide_unpack _). vm_compute. exact I.
    + apply (bool_decide_unpack _). vm_compute. exact I.
  - apply (proj2 (proj2 (proj2 (extractFieldKeysFromView_listed Views.menu)))).
    apply (bool_decide_unpack _). vm_compute. exact I.
  - apply (proj2 (proj2 (proj2 (extractFieldKeysFromView_listed Views.menu)))).
    apply (bool_decide_unpack _). vm_compute. exact I.
Defined.

Lemma elem_of_fmap_option {A} (f : A → option string) (l : list A)
    (k : string) :
  Some k ∈ f <$> l ↔ ∃ x, x ∈ l ∧ f x = Some k.
Proof. rewrite list_elem_of_fmap. naive_solver. Qed.

Lemma column_key_Some (column : KnackViewColumn) (k : string) :
  column_key column = Some k
  ↔ col_type column = "field" ∧ ref_key <$> col_field column = Some k.
Proof.
  unfold column_key. destruct (Js.str_eq _ _) eqn:Htype.
  - apply str_eq_true in Htype. naive_solver.
  - apply str_eq_false in Htype. naive_solver.
Qed.

(** X11. A table view yields exactly the non-empty keys of the fields of
    its columns of type "field"; columns of any other type, and columns
    without a field, contribute nothing. *)
Theorem extractFieldKeysFromView_table (view : KnackView) (k : string) :
  view_type view = "table" →
  k ∈ extractFieldKeysFromView view
  ↔ k ≠ ""
    ∧ ∃ column,
        column ∈ default [] (view_columns view)
        ∧ col_type column = "field"
        ∧ ref_key <$> col_field column = Some k.
Proof.
  intros Htype. rewrite extractFieldKeysFromView_add_keys.
  rewrite elem_of_add_keys, elem_of_nil.
  unfold listed_keys. rewrite Htype. simpl.
  rewrite elem_of_fmap_option.
  setoid_rewrite column_key_Some. naive_solver.
Qed.

Lemma extractFieldKeysFromView_table_witness :
  "field_1" ∈ extractFieldKeysFromView Orphans.listed.
Proof.
  apply (extractFieldKeysFromView_table Orphans.listed "field_1" eq_refl).
  split; [done |].
  exists {| col_type := "field"; col_field := Some {| ref_key := "field_1" |};
            col_groups := None |}.
  split; [| done]. simpl. apply elem_of_cons. by left.
Defined.

(** X12. A form view yields exactly the non-empty keys of its inputs, where
    an input's own [key] takes precedence: the key of the input's [field] is
    used only when the input has no [key] or an empty one. *)
Theorem extractFieldKeysFromView_form (view : KnackView) (k : string) :
  view_type view = "form" →
  k ∈ extractFieldKeysFromView view
  ↔ k ≠ ""
    ∧ ∃ input,
        input ∈ group_inputs (view_groups view)
        ∧ (input_key input = Some k
           ∨ (Js.truthy_opt (input_key input) = false
              ∧ ref_key <$> input_field input = Some k)).
Proof.
  intros Htype. rewrite extractFieldKeysFromView_add_keys.
  rewrite elem_of_add_keys, elem_of_nil.
  unfold listed_keys. rewrite Htype. simpl.
  rewrite elem_of_fmap_option. split.
  - intros [[] | (Hk & input & Hin & Hkey)]. split; [done |].
    exists input. split; [done |]. unfold input_key_of in Hkey.
    destruct (Js.truthy_opt (input_key input)); auto.
  - intros (Hk & input & Hin & Hkey). right. split; [done |].
    exists input. split; [done |]. unfold input_key_of.
    destruct Hkey as [Hkey | [Hblank Hkey]].
    + rewrite Hkey. simpl. by rewrite (proj2 (truthy_nonempty k)).
    + by rewrite Hblank.
Qed.

Lemma extractFieldKeysFromView_form_witness :
  extractFieldKeysFromView Views.form = ["field_6"; "field_7"; "field_1"]
  ∧ "field_7" ∈ extractFieldKeysFromView Views.form.
Proof.
  split; [reflexivity |].
  apply (extractFieldKeysFromView_form Views.form "field_7" eq_refl).
  split; [done |].
  exists {| input_key := Some "";
            input_field := Some {| ref_key := "field_7" |} |}.
  split; [| by right].
  unfold group_inputs. simpl.
  apply elem_of_cons. right. apply elem_of_cons. by left.
Defined.

Lemma filter_key_Some (field : KnackViewField) (k : string) :
  filter_key field = Some k
  ↔ k ≠ "keyword_search" ∧ vf_field field = Some k.
Proof.
  unfold filter_key. destruct (vf_field field) as [f |]; [| naive_solver].
  destruct (Js.str_eq f "keyword_search") eqn:Hkw.
  - apply str_eq_true in Hkw. naive_solver.
  - apply str_eq_false in Hkw. naive_solver.
Qed.

(** X13. A search view yields exactly the non-empty keys of the fields of
    its result columns of type "field", and the non-empty [field] of its
    filters other than "keyword_search": the pseudo-field of the keyword
    search is never taken from a filter. *)
Theorem extractFieldKeysFromView_search (view : KnackView) (k : string) :
  view_type view = "search" →
  k ∈ extractFieldKeysFromView view
  ↔ k ≠ ""
    ∧ ((∃ column,
          column ∈ default [] (view_results view ≫= results_columns)
          ∧ col_type column = "field"
          ∧ ref_key <$> col_field column = Some k)
       ∨ (k ≠ "keyword_search"
          ∧ ∃ field,
              field ∈ group_fields (view_groups view)
              ∧ vf_field field = Some k)).
Proof.
  intros Htype. rewrite extractFieldKeysFromView_add_keys.
  rewrite elem_of_add_keys, elem_of_nil.
  unfold listed_keys. rewrite Htype. simpl.
  rewrite elem_of_app, !elem_of_fmap_option.
  setoid_rewrite column_key_Some. setoid_rewrite filter_key_Some.
  naive_solver.
Qed.

Lemma extractFieldKeysFromView_search_witness :
  extractFieldKeysFromView Views.search = ["field_6"; "field_8"]
  ∧ "field_8" ∈ extractFieldKeysFromView Views.search.
Proof.
  split; [reflexivity |].
  apply (extractFieldKeysFromView_search Views.search "field_8" eq_refl).
  split; [done |]. right. split; [done |].
  exists {| vf_key := None; vf_field := Some "field_8"; vf_name := None |}.
  split; [| done].
  unfold group_fields. simpl.
  apply elem_of_cons. right. apply elem_of_cons. by left.
Defined.

(** ** The schema of a view *)











(** ** The walk over the parent scenes, exactly *)

Section NearestVerdict.
Variable schema : KnackSchema.

(** One call of the walk, in terms of [parentScene]. *)
Lemma walk_step (fuel : nat) (scene : KnackScene) (visited : gset string) :
  checkParentScenesSecurity_walk (S fuel) scene schema visited
  = match scene_parent scene with
    | None => Some None
    | Some parent =>
        if negb (Js.truthy parent) || bool_decide (parent ∈ visited)
        then Some None
        else match parentScene schema scene with
             | None => Some None
             | Some parentScene =>
                 match checkSceneSecurity parentScene with
                 | Some v => Some (Some v)
                 | None =>
                     checkParentScenesSecurity_walk fuel parentScene schema
                       ({[parent]} ∪ visited)
                 end
             end
    end.
Proof.
  simpl. unfold parentScene.
  destruct (scene_parent scene) as [parent |]; [| done].
  destruct (Js.truthy parent); simpl; done.
Qed.

Lemma walk_verdict_nearest (fuel : nat) :
  ∀ scene visited v,
    checkParentScenesSecurity_walk fuel scene schema visited = Some (Some v) →
    nearest_verdict schema scene v.
Proof.
  induction fuel as [| fuel IH]; intros scene visited v Hwalk; [done |].
  rewrite walk_step in Hwalk.
  destruct (scene_parent scene) as [parent |]; [| done].
  destruct (negb _ || _); [done |].
  destruct (parentScene schema scene) as [next |] eqn:Hnext; [| done].
  destruct (checkSceneSecurity next) as [w |] eqn:Hcheck.
  - injection Hwalk as ->. exists 0, next. simpl.
    split; [done |]. split; [done |]. intros m b Hm. lia.
  - apply IH in Hwalk as (n & a & Hn & Ha & Hbefore).
    exists (S n), a. simpl. rewrite Hnext. simpl.
    split; [done |]. split; [done |].
    intros [| m] b Hm Hb; simpl in Hb.
    + rewrite Hnext in Hb. by injection Hb as <-.
    + rewrite Hnext in Hb. simpl in Hb. apply (Hbefore m b); [lia | done].
Qed.

Lemma nth_parent_closed (visited : gset string) (current : KnackScene)
    (n : nat) :
  visited_closed schema visited current →
  (∀ u, parentScene schema current = Some u →
        ∃ q, q ∈ visited ∧ scene_by_slug schema q = Some u) →
  ∀ x w,
    (x = current ∨ ∃ q, q ∈ visited ∧ scene_by_slug schema q = Some x) →
    nth_parent schema n x = Some w →
    ∃ q, q ∈ visited ∧ scene_by_slug schema q = Some w.
Proof.
  intros Hclosed Hcurrent.
  assert (Hstep : ∀ x u,
            (x = current ∨ ∃ q, q ∈ visited ∧ scene_by_slug schema q = Some x) →
            parentScene schema x = Some u →
            ∃ q, q ∈ visited ∧ scene_by_slug schema q = Some u).
  { intros x u [-> | (q & Hq & Hx)] Hu; [by apply Hcurrent |].
    destruct (Hclosed q x Hq Hx) as [_ [-> | Hnext]]; auto. }
  induction n as [| n IH]; intros x w Hx Hw; simpl in Hw.
  - by eapply Hstep.
  - destruct (parentScene schema x) as [u |] eqn:Hu; [| done]. simpl in Hw.
    apply (IH u w); [| done]. right. by eapply Hstep.
Qed.

Lemma walk_no_verdict_all (fuel : nat) :
  ∀ scene visited,
    visited_closed schema visited scene →
    checkParentScenesSecurity_walk fuel scene schema visited = Some None →
    ∀ n a, nth_parent schema n scene = Some a → checkSceneSecurity a = None.
Proof.
  induction fuel as [| fuel IH]; intros scene visited Hclosed Hwalk;
    [done |].
  rewrite walk_step in Hwalk.
  assert (Hend : parentScene schema scene = None →
                 ∀ n a, nth_parent schema n scene = Some a →
                        checkSceneSecurity a = None).
  { intros Hnone [| n] a Ha; simpl in Ha; by rewrite Hnone in Ha. }
  destruct (scene_parent scene) as [parent |] eqn:Hparent;
    [| apply Hend; unfold parentScene; by rewrite Hparent].
  destruct (Js.truthy parent) eqn:Htruthy; simpl in Hwalk;
    [| apply Hend; unfold parentScene; by rewrite Hparent, Htruthy].
  assert (Hnext : parentScene schema scene = scene_by_slug schema parent).
  { unfold parentScene. by rewrite Hparent, Htruthy. }
  destruct (bool_decide (parent ∈ visited)) eqn:Hvisited.
  - apply bool_decide_eq_true in Hvisited.
    intros n a Ha.
    destruct (nth_parent_closed visited scene n Hclosed) with (x := scene)
      (w := a) as (q & Hq & Hqa); auto.
    + intros u Hu. exists parent. by rewrite <- Hnext.
    + by destruct (Hclosed q a Hq Hqa).
  - apply bool_decide_eq_false in Hvisited.
    destruct (parentScene schema scene) as [next |] eqn:Hfound;
      [| by apply Hend].
    destruct (checkSceneSecurity next) eqn:Hcheck; [done |].
    assert (Hclosed' : visited_closed schema ({[parent]} ∪ visited) next).
    { intros p t Hp Ht. apply elem_of_union in Hp as [Hp | Hp].
      - apply elem_of_singleton in Hp as ->.
        rewrite <- Hnext in Ht. injection Ht as <-. auto.
      - destruct (Hclosed p t Hp Ht) as [Hnone [-> | Hstay]].
        + split; [done |]. right. intros u Hu. exists parent.
          split; [set_solver |]. rewrite <- Hnext. congruence.
        + split; [done |]. right. intros u Hu.
          destruct (Hstay u Hu) as (q & Hq & Hu'). exists q.
          split; [set_solver | done]. }
    intros [| n] a Ha; simpl in Ha; rewrite Hfound in Ha; simpl in Ha.
    + by injection Ha as <-.
    + by eapply (IH next _ Hclosed' Hwalk n a).
Qed.

End NearestVerdict.

Lemma checkParentScenesSecurity_Some (schema : KnackSchema)
    (scene : KnackScene) (v : ViewSecurity) :
  checkParentScenesSecurity scene schema = Some v →
  nearest_verdict schema scene v.
Proof.
  intros Hres.
  pose proof (walk_result schema
                (S (length (app_scenes (application schema)))) scene)
    as Hwalk.
  specialize (Hwalk ltac:(lia)). rewrite Hres in Hwalk.
  by eapply walk_verdict_nearest.
Qed.

Lemma checkParentScenesSecurity_None (schema : KnackSchema)
    (scene : KnackScene) :
  checkParentScenesSecurity scene schema = None →
  ∀ n a, nth_parent schema n scene = Some a → checkSceneSecurity a = None.
Proof.
  intros Hres.
  pose proof (walk_result schema
                (S (length (app_scenes (application schema)))) scene)
    as Hwalk.
  specialize (Hwalk ltac:(lia)). rewrite Hres in Hwalk.
  eapply walk_no_verdict_all; [| exact Hwalk].
  intros p t Hp. set_solver.
Qed.

(** The nearest decisive ancestor is unique, and so is its verdict. *)
Lemma nearest_verdict_agree (schema : KnackSchema) (scene : KnackScene)
    (v w : ViewSecurity) :
  nearest_verdict schema scene v → nearest_verdict schema scene w → v = w.
Proof.
  intros (n & a & Hn & Ha & Hbefore) (n' & a' & Hn' & Ha' & Hbefore').
  destruct (Nat.lt_trichotomy n n') as [Hlt | [-> | Hgt]].
  - rewrite (Hbefore' n a Hlt Hn) in Ha. done.
  - congruence.
  - rewrite (Hbefore n' a' Hgt Hn') in Ha'. done.
Qed.

Lemma nearest_verdict_decisive (schema : KnackSchema) (scene : KnackScene)
    (v : ViewSecurity) :
  nearest_verdict schema scene v →
  ¬ (∀ n a, nth_parent schema n scene = Some a → checkSceneSecurity a = None).
Proof.
  intros (n & a & Hn & Ha & _) Hall. rewrite (Hall n a Hn) in Ha. done.
Qed.

(** X16. The walk over the parent scenes returns the verdict of the nearest
    ancestor whose own flags are decisive, and no verdict exactly when no
    ancestor is decisive; this holds on cyclic parent chains too, where the
    ancestors repeat. Ancestors are found by slug, starting from the scene's
    non-empty [parent]. *)
Theorem checkParentScenesSecurity_nearest (schema : KnackSchema)
    (scene : KnackScene) :
  (∀ v, checkParentScenesSecurity scene schema = Some v
        ↔ nearest_verdict schema scene v)
  ∧ (checkParentScenesSecurity scene schema = None
     ↔ ∀ n a, nth_parent schema n scene = Some a →
              checkSceneSecurity a = None).
Proof.
  split.
  - intros v. split; [apply checkParentScenesSecurity_Some |].
    intros Hnearest.
    destruct (checkParentScenesSecurity scene schema) as [w |] eqn:Hres.
    + apply checkParentScenesSecurity_Some in Hres.
      by rewrite (nearest_verdict_agree _ _ _ _ Hnearest Hres).
    + exfalso. eapply nearest_verdict_decisive; [exact Hnearest |].
      by apply checkParentScenesSecurity_None.
  - split; [apply checkParentScenesSecurity_None |].
    intros Hall.
    destruct (checkParentScenesSecurity scene schema) as [w |] eqn:Hres;
      [| done].
    exfalso. eapply nearest_verdict_decisive; [| exact Hall].
    by apply checkParentScenesSecurity_Some.
Qed.

Lemma checkParentScenesSecurity_nearest_witness :
  nearest_verdict Fixtures.guarded_loop Fixtures.sceneA AUTHENTICATED
  ∧ ∀ n a, nth_parent Fixtures.loop n Fixtures.sceneA = Some a →
           checkSceneSecurity a = None.
Proof.
  split.
  - apply (proj1 (checkParentScenesSecurity_nearest
                    Fixtures.guarded_loop Fixtures.sceneA)).
    reflexivity.
  - apply (proj2 (checkParentScenesSecurity_nearest
                    Fixtures.loop Fixtures.sceneA)).
    reflexivity.
Defined.

(** ** Restrictions on the view, and public verdicts *)

Lemma toLowerCase_app (a b : string) :
  Js.toLowerCase (a +:+ b) = Js.toLowerCase a +:+ Js.toLowerCase b.
Proof.
  induction a as [| c a IH]; [done |].
  rewrite append_cons. simpl. by rewrite IH.
Qed.

Lemma startsWith_app_l (s p b : string) :
  Js.startsWith s p = true → Js.startsWith (s +:+ b) p = true.
Proof.
  revert p. induction s as [| c s IH]; intros [| d p] Hs; try done.
  - apply startsWith_nil.
  - rewrite append_cons.
    change (bool_decide (d = c) && Js.startsWith s p = true) in Hs.
    change (bool_decide (d = c) && Js.startsWith (s +:+ b) p = true).
    apply andb_true_iff in Hs as [-> Hs]. by rewrite IH.
Qed.

Lemma includes_cons (c : ascii) (t sub : string) :
  Js.includes (String c t) sub
  = Js.startsWith (String c t) sub || Js.includes t sub.
Proof. reflexivity. Qed.

Lemma includes_app_l (a b sub : string) :
  Js.includes a sub = true → Js.includes (a +:+ b) sub = true.
Proof.
  induction a as [| c a IH]; intros Ha.
  - destruct sub; [| done]. change ("" +:+ b) with b. by destruct b.
  - rewrite includes_cons in Ha. rewrite append_cons, includes_cons.
    apply orb_true_iff in Ha as [Ha | Ha].
    + rewrite <- append_cons.
      by rewrite (startsWith_app_l (String c a) sub b).
    + rewrite IH by done. apply orb_true_r.
Qed.

Lemma includes_app_r (a b sub : string) :
  Js.includes b sub = true → Js.includes (a +:+ b) sub = true.
Proof.
  intros Hb. induction a as [| c a IH]; [done |].
  rewrite append_cons, includes_cons, IH. apply orb_true_r.
Qed.

Lemma existsb_keyword (text keyword : string) :
  keyword ∈ securityKeywords →
  Js.includes text keyword = true →
  existsb (fun keyword => Js.includes text keyword) securityKeywords = true.
Proof.
  intros Hin Hinc. apply existsb_exists. exists keyword.
  split; [by apply list_elem_of_In | done].
Qed.

Lemma checkViewSecurity_restricted (view : KnackView) :
  view_type view ∉ login_types →
  view_restricted view →
  checkViewSecurity view = Some AUTHENTICATED.
Proof.
  intros Hnot Hrestricted. unfold checkViewSecurity.
  unfold login_types in Hnot. rewrite (proj2 (one_of_false _ _) Hnot).
  destruct Hrestricted as [-> | [-> | [(source & -> & ->) | Hkw]]];
    [done | by repeat case_match | by repeat case_match |].
  destruct Hkw as (keyword & text & Hkeyword & Htext & Hinc).
  rewrite (existsb_keyword _ keyword Hkeyword); [by repeat case_match |].
  rewrite !toLowerCase_app.
  repeat (apply elem_of_cons in Htext as [-> | Htext]).
  - by apply includes_app_l.
  - apply includes_app_r, includes_app_r. by apply includes_app_l.
  - by do 4 apply includes_app_r.
  - by apply elem_of_nil in Htext.
Qed.

(** X17. A view that is not of a login type and carries a restriction of
    its own (allowed profiles, the limit flag, the authenticated-user flag
    of its source, or one of the six keywords in its name, title or
    description, in any letter case) is classified authenticated, whatever
    its scene and the ancestors of the scene say, also inside a scene of
    type "authentication". *)
Theorem determineViewSecurity_restricted (view : KnackView)
    (scene : KnackScene) (schema : KnackSchema) :
  view_type view ∉ login_types →
  view_restricted view →
  determineViewSecurity view scene schema = AUTHENTICATED.
Proof.
  intros Hnot Hrestricted. unfold determineViewSecurity.
  by rewrite checkViewSecurity_restricted.
Qed.

Lemma determineViewSecurity_restricted_witness :
  determineViewSecurity Views.admin_menu Views.login_page (Fixtures.app [] [])
  = AUTHENTICATED.
Proof.
  apply determineViewSecurity_restricted.
  - apply one_of_false. reflexivity.
  - right. right. right. exists "admin", "Site ADMIN".
    split; [by apply one_of_true |]. split; [| reflexivity].
    apply elem_of_cons. by left.
Defined.

(** A keyword has no space, so it cannot lie across the spaces that join
    the name, the title and the description. *)
Lemma startsWith_sep (s b keyword : string) :
  space_free keyword = true →
  Js.startsWith (s +:+ String " " b) keyword = true →
  Js.startsWith s keyword = true.
Proof.
  revert keyword.
  induction s as [| c s IH]; intros [| d keyword] Hfree Hs; try done.
  - change (negb (bool_decide (d = " "%char)) && space_free keyword = true)
      in Hfree.
    change (bool_decide (d = " "%char) && Js.startsWith b keyword = true)
      in Hs.
    apply andb_true_iff in Hfree as [Hd _].
    apply andb_true_iff in Hs as [Hd' _]. rewrite Hd' in Hd. done.
  - change (negb (bool_decide (d = " "%char)) && space_free keyword = true)
      in Hfree.
    rewrite append_cons in Hs.
    change (bool_decide (d = c)
            && Js.startsWith (s +:+ String " " b) keyword = true) in Hs.
    change (bool_decide (d = c) && Js.startsWith s keyword = true).
    apply andb_true_iff in Hfree as [_ Hfree].
    apply andb_true_iff in Hs as [-> Hs]. by rewrite (IH keyword).
Qed.

Lemma includes_sep (a b keyword : string) :
  space_free keyword = true →
  keyword ≠ "" →
  Js.includes (a +:+ String " " b) keyword = true →
  Js.includes a keyword = true ∨ Js.includes b keyword = true.
Proof.
  intros Hfree Hne. induction a as [| c a IH]; intros Hinc.
  - change ("" +:+ String " " b) with (String " " b) in Hinc.
    rewrite includes_cons in Hinc.
    apply orb_true_iff in Hinc as [Hinc | Hinc]; [| by right].
    apply (startsWith_sep "" b keyword Hfree) in Hinc.
    by destruct keyword.
  - rewrite append_cons, includes_cons in Hinc.
    apply orb_true_iff in Hinc as [Hinc | Hinc].
    + left. rewrite includes_cons.
      rewrite <- append_cons in Hinc.
      by rewrite (startsWith_sep (String c a) b keyword Hfree Hinc).
    + destruct (IH Hinc) as [Ha | Hb]; [left | by right].
      rewrite includes_cons, Ha. apply orb_true_r.
Qed.

Lemma securityKeywords_words (keyword : string) :
  keyword ∈ securityKeywords → space_free keyword = true ∧ keyword ≠ "".
Proof.
  intros Hin. unfold securityKeywords in Hin.
  repeat (apply elem_of_cons in Hin as [-> | Hin]; [done |]).
  by apply elem_of_nil in Hin.
Qed.

Lemma keyword_in_texts (a b c keyword : string) :
  keyword ∈ securityKeywords →
  Js.includes (Js.toLowerCase (a +:+ " " +:+ b +:+ " " +:+ c)) keyword = true →
  ∃ text, text ∈ [a; b; c]
          ∧ Js.includes (Js.toLowerCase text) keyword = true.
Proof.
  intros Hin Hinc.
  destruct (securityKeywords_words keyword Hin) as [Hfree Hne].
  rewrite !toLowerCase_app in Hinc.
  change (Js.toLowerCase " ") with " " in Hinc.
  change (" " +:+ ?s) with (String " " s) in Hinc.
  apply includes_sep in Hinc as [Hinc | Hinc]; [| | done | done].
  { exists a. split; [| done]. apply elem_of_cons. by left. }
  apply includes_sep in Hinc as [Hinc | Hinc]; [| | done | done].
  - exists b. split; [| done]. apply elem_of_cons. right.
    apply elem_of_cons. by left.
  - exists c. split; [| done]. apply elem_of_cons. right.
    apply elem_of_cons. right. apply elem_of_cons. by left.
Qed.

(** Without a login type, the view's own flags give no verdict unless the
    view carries a restriction. *)
Lemma checkViewSecurity_unrestricted (view : KnackView) :
  view_type view ∉ login_types →
  checkViewSecurity view = None ∨ view_restricted view.
Proof.
  intros Hnot. unfold checkViewSecurity.
  unfold login_types in Hnot. rewrite (proj2 (one_of_false _ _) Hnot).
  destruct (non_empty_array (view_allowed_profiles view)) eqn:Hprofiles;
    [right; by left |].
  destruct (view_limit_profile_access view) as [[|] |] eqn:Hlimit;
    [right; right; by left | |]; cbn [is_true].
  all: destruct (view_source view) as [source |] eqn:Hsource.
  all: try (destruct (source_authenticated_user source) as [[|] |] eqn:Huser;
            [right; right; right; left; by exists source | |];
            cbn [is_true]).
  all: match goal with
       | |- context [existsb ?f securityKeywords] =>
           destruct (existsb f securityKeywords) eqn:Hkw; [| by left]
       end.
  all: right; right; right; right.
  all: apply existsb_exists in Hkw as (keyword & Hin & Hinc).
  all: apply list_elem_of_In in Hin.
  all: destruct (keyword_in_texts _ _ _ keyword Hin Hinc) as (text & Ht & Hi).
  all: by exists keyword, text.
Qed.

(** X18. The verdict of the view's own flags, exactly: public for the three
    login types and for nothing else; authenticated for any other view that
    carries a restriction; and no verdict otherwise. The keyword test reads
    the name, the title and the description joined by spaces, and since no
    keyword has a space, a keyword is found only inside one of the three
    texts, never across two of them. *)
Theorem checkViewSecurity_verdicts (view : KnackView) :
  (checkViewSecurity view = Some PUBLIC ↔ view_type view ∈ login_types)
  ∧ (checkViewSecurity view = Some AUTHENTICATED
     ↔ (view_type view ∉ login_types) ∧ view_restricted view)
  ∧ (checkViewSecurity view = None
     ↔ (view_type view ∉ login_types) ∧ ¬ view_restricted view).
Proof.
  destruct (decide (view_type view ∈ login_types)) as [Hlogin | Hnot].
  - rewrite (checkViewSecurity_login view Hlogin).
    split; [done |].
    split; (split; [done | by intros [Hnot _]]).
  - pose proof (checkViewSecurity_restricted view Hnot) as Hrestricted.
    destruct (checkViewSecurity_unrestricted view Hnot) as [Hnone | Hyes].
    + rewrite Hnone. split; [done |]. split.
      * split; [done |]. intros [_ Hyes].
        specialize (Hrestricted Hyes). congruence.
      * split; [| done]. intros _. split; [done |]. intros Hyes.
        specialize (Hrestricted Hyes). congruence.
    + rewrite (Hrestricted Hyes). split; [done |]. split.
      * done.
      * split; [done |]. by intros [_ Hno].
Qed.

Lemma checkViewSecurity_verdicts_witness :
  ¬ view_restricted Views.split_keyword.
Proof.
  apply (proj1 (proj2 (proj2 (checkViewSecurity_verdicts
                                Views.split_keyword)))).
  reflexivity.
Defined.

Lemma checkSceneSecurity_public (scene : KnackScene) :
  checkSceneSecurity scene = Some PUBLIC ↔ scene_declared_public scene.
Proof.
  unfold checkSceneSecurity, scene_declared_public.
  destruct (scene_authenticated scene) as [[|] |]; cbn [is_true].
  { split; [done | by intros [_ Hno]]. }
  all: destruct (scene_type scene) as [t |];
    [| split; [by repeat case_match | by intros [Heq _]]].
  all: destruct (Js.str_eq t "authentication") eqn:Ht.
  all: try (apply str_eq_true in Ht as ->; done).
  all: apply str_eq_false in Ht.
  all: split; [by repeat case_match | intros [Heq _]; congruence].
Qed.

(** X19. When a view is classified public. A view of a login type always
    is. Any other view is public only if it carries no restriction of its
    own, and then exactly in three cases: its scene is of type
    "authentication" without the [authenticated] flag; or the scene's own
    flags are not decisive and the nearest decisive ancestor is such a
    public scene; or neither the scene nor any ancestor is decisive and the
    view's type is one of landing, menu, search and rich_text. *)
Theorem determineViewSecurity_public (view : KnackView) (scene : KnackScene)
    (schema : KnackSchema) :
  determineViewSecurity view scene schema = PUBLIC
  ↔ view_type view ∈ login_types
    ∨ ((view_type view ∉ login_types)
       ∧ ¬ view_restricted view
       ∧ (scene_declared_public scene
          ∨ (checkSceneSecurity scene = None
             ∧ (nearest_verdict schema scene PUBLIC
                ∨ ((∀ n a, nth_parent schema n scene = Some a →
                           checkSceneSecurity a = None)
                   ∧ view_type view ∈ safe_types))))).
Proof.
  unfold determineViewSecurity.
  destruct (decide (view_type view ∈ login_types)) as [Hlogin | Hnot].
  { rewrite (checkViewSecurity_login view Hlogin). split; [by left | done]. }
  pose proof (checkViewSecurity_restricted view Hnot) as Hrestricted.
  destruct (checkViewSecurity_unrestricted view Hnot) as [Hnone | Hyes].
  2: { rewrite (Hrestricted Hyes).
       split; [done |]. by intros [Hlogin | (_ & Hno & _)]. }
  assert (Hfree : ¬ view_restricted view).
  { intros Hyes. specialize (Hrestricted Hyes). congruence. }
  rewrite Hnone.
  destruct (checkSceneSecurity scene) as [v |] eqn:Hscene.
  { split.
    - intros ->. right. split; [done |]. split; [done |]. left.
      by apply checkSceneSecurity_public.
    - intros [Hlogin | (_ & _ & [Hpublic | [Hno _]])]; [done | | done].
      apply checkSceneSecurity_public in Hpublic. congruence. }
  assert (Hscene' : ¬ scene_declared_public scene).
  { intros Hpublic. apply checkSceneSecurity_public in Hpublic. congruence. }
  destruct (checkParentScenesSecurity scene schema) as [w |] eqn:Hparents.
  { apply checkParentScenesSecurity_Some in Hparents. split.
    - intros ->. right. split; [done |]. split; [done |]. right.
      split; [done |]. by left.
    - intros [Hlogin | (_ & _ & [Hpublic | [_ [Hnear | [Hall _]]]])];
        [done | done | |].
      + by eapply nearest_verdict_agree.
      + exfalso. by eapply nearest_verdict_decisive. }
  pose proof (checkParentScenesSecurity_None _ _ Hparents) as Hall.
  fold safe_types.
  destruct (one_of (view_type view) safe_types) eqn:Hsafe.
  - apply one_of_true in Hsafe. split; [| done]. intros _.
    right. split; [done |]. split; [done |]. right. split; [done |].
    by right.
  - apply one_of_false in Hsafe. split; [done |].
    intros [Hlogin | (_ & _ & [Hpublic | [_ [Hnear | [_ Hin]]]])];
      [done | done | | done].
    exfalso. by eapply nearest_verdict_decisive.
Qed.

Lemma determineViewSecurity_public_witness :
  Views.menu.(view_type) ∈ login_types
  ∨ ((Views.menu.(view_type) ∉ login_types)
     ∧ ¬ view_restricted Views.menu
     ∧ (scene_declared_public Fixtures.sceneA
        ∨ (checkSceneSecurity Fixtures.sceneA = None
           ∧ (nearest_verdict Fixtures.loop Fixtures.sceneA PUBLIC
              ∨ ((∀ n a, nth_parent Fixtures.loop n Fixtures.sceneA = Some a →
                         checkSceneSecurity a = None)
                 ∧ Views.menu.(view_type) ∈ safe_types))))).
Proof.
  apply (proj1 (determineViewSecurity_public
                  Views.menu Fixtures.sceneA Fixtures.loop)).
  reflexivity.
Defined.

(** ** Looking objects up *)

Lemma find_first {A} (p : A → bool) (l : list A) (x : A) :
  find p l = Some x →
  ∃ before after,
    l = before ++ x :: after ∧ p x = true ∧ ∀ y, y ∈ before → p y = false.
Proof.
  induction l as [| y l IH]; [done |]. unfold find. simpl.
  destruct (p y) eqn:Hy.
  - intros [= ->]. exists [], l. split; [done |]. split; [done |].
    intros z Hz. by apply elem_of_nil in Hz.
  - intros Hfind. destruct (IH Hfind) as (before & after & -> & Hx & Hb).
    exists (y :: before), after. split; [done |]. split; [done |].
    intros z Hz. apply elem_of_cons in Hz as [-> | Hz]; auto.
Qed.

Lemma has_field_key_true (key : string) (obj : KnackObject) :
  has_field_key key obj = true ↔ has_field key obj.
Proof.
  unfold has_field_key, has_field. rewrite existsb_exists. split.
  - intros (field & Hin & Hkey). exists field.
    split; [by apply list_elem_of_In | by apply str_eq_true].
  - intros (field & Hin & Hkey). exists field.
    split; [by apply list_elem_of_In | by apply str_eq_true].
Qed.

Lemma has_field_key_false (key : string) (obj : KnackObject) :
  has_field_key key obj = false ↔ ¬ has_field key obj.
Proof.
  rewrite <- has_field_key_true. by destruct (has_field_key key obj).
Qed.

Lemma findFieldByKey_has_field (fieldKey : string) (sourceObject : KnackObject)
    (schema : KnackSchema) (field : KnackField) :
  sourceObject ∈ app_objects (application schema) →
  findFieldByKey fieldKey sourceObject schema = Some field →
  ∃ obj, obj ∈ app_objects (application schema) ∧ has_field fieldKey obj.
Proof.
  unfold findFieldByKey. intros Hsource Hfound.
  destruct (find _ (object_fields sourceObject)) as [direct |] eqn:Hdirect.
  - injection Hfound as ->. apply find_elem_of in Hdirect as [Hin Hkey].
    exists sourceObject. split; [done |]. exists field.
    split; [done | by apply str_eq_true].
  - repeat case_match; try done.
    match goal with
    | H : find _ (app_objects _) = Some ?o |- _ =>
        apply find_elem_of in H as [Hobj _]; exists o
    end.
    split; [done |]. apply find_elem_of in Hfound as [Hin Hkey].
    exists field. split; [done | by apply str_eq_true].
Qed.

(** X20. [findObjectByConnectionKey] returns the first object of the
    application, in the order of the schema, that has a field with the given
    key, and nothing exactly when no object has such a field. Whenever
    [findFieldByKey] resolves a key from a source object of the application,
    some object is found for that key. *)
Theorem findObjectByConnectionKey_first (connectionKey : string)
    (schema : KnackSchema) :
  (∀ obj,
     findObjectByConnectionKey connectionKey schema = Some obj →
     ∃ before after,
       app_objects (application schema) = before ++ obj :: after
       ∧ has_field connectionKey obj
       ∧ ∀ o, o ∈ before → ¬ has_field connectionKey o)
  ∧ (findObjectByConnectionKey connectionKey schema = None
     ↔ ∀ o, o ∈ app_objects (application schema) →
            ¬ has_field connectionKey o)
  ∧ (∀ sourceObject field,
       sourceObject ∈ app_objects (application schema) →
       findFieldByKey connectionKey sourceObject schema = Some field →
       is_Some (findObjectByConnectionKey connectionKey schema)).
Proof.
  unfold findObjectByConnectionKey.
  assert (Hnone : find (has_field_key connectionKey)
                    (app_objects (application schema)) = None
                  ↔ ∀ o, o ∈ app_objects (application schema) →
                         ¬ has_field connectionKey o).
  { rewrite find_none_elem_of. split; intros Hall o Ho.
    - by apply has_field_key_false, Hall.
    - by apply has_field_key_false, Hall. }
  split; [| split; [exact Hnone |]].
  - intros obj Hfind.
    apply find_first in Hfind as (before & after & Heq & Hobj & Hbefore).
    exists before, after. split; [done |].
    split; [by apply has_field_key_true |].
    intros o Ho. by apply has_field_key_false, Hbefore.
  - intros sourceObject field Hsource Hfound.
    destruct (findFieldByKey_has_field _ _ _ _ Hsource Hfound)
      as (obj & Hobj & Hhas).
    destruct (find _ _) as [found |] eqn:Hfind; [done |].
    exfalso. by apply (proj1 Hnone eq_refl obj Hobj).
Qed.

Lemma findObjectByConnectionKey_first_witness :
  is_Some (findObjectByConnectionKey "field_1" Objects.schema).
Proof.
  apply (proj2 (proj2 (findObjectByConnectionKey_first
                         "field_1" Objects.schema))
           Objects.tasks Objects.project_name).
  - apply elem_of_cons. right. apply elem_of_cons. by left.
  - reflexivity.
Defined.






(** ** The schema of a field *)

(** X22. The schema of a field is always flat and titled with the field's
    name: it has a description, and never a [$ref], [properties] or
    [required]. It is read-only exactly for the types auto_increment and
    equation, it has [items] (strings) exactly for user_roles, and a
    [maxLength] exactly for paragraph_text. *)
Theorem mapFieldTypeToSchema_shape (field : KnackField) :
  let s := mapFieldTypeToSchema field in
  s_title s = Some (field_name field)
  ∧ is_Some (s_description s)
  ∧ s_ref s = None
  ∧ s_properties s = None
  ∧ s_required s = None
  ∧ s_readOnly s
    = (if one_of (field_type field) ["auto_increment"; "equation"]
       then Some true else None)
  ∧ s_items s
    = (if Js.str_eq (field_type field) "user_roles"
       then Some (emptySchema |> upd_type "string") else None)
  ∧ s_maxLength s
    = (if Js.str_eq (field_type field) "paragraph_text"
       then Some 100000%Z else None).
Proof.
  destruct field as [key name t required format relationship].
  cbn [field_name field_type].
  unfold mapFieldTypeToSchema, when, baseSchema.
  cbn [field_name field_type field_format field_relationship].
  repeat split; repeat case_match; try done;
    repeat match goal with
      | H : Js.str_eq ?t _ = true |- _ =>
          is_var t; apply str_eq_true in H; subst t
      | H : one_of ?t _ = true |- _ =>
          is_var t; apply one_of_true in H;
          repeat (apply elem_of_cons in H as [-> | H]);
          [.. | by apply elem_of_nil in H]
      end;
    done.
Qed.

(** X23. The schema of a field depends on the field's name, type and
    format, and on whether it has a relationship, and on nothing else: the
    key, the [required] flag and the content of the relationship are never
    read. *)
Theorem mapFieldTypeToSchema_reads (field other : KnackField) :
  field_name field = field_name other →
  field_type field = field_type other →
  field_format field = field_format other →
  (is_Some (field_relationship field)
   ↔ is_Some (field_relationship other)) →
  mapFieldTypeToSchema field = mapFieldTypeToSchema other.
Proof.
  destruct field as [key name t required format relationship].
  destruct other as [key' name' t' required' format' relationship'].
  cbn [field_name field_type field_format field_relationship].
  intros -> -> -> Hrel.
  unfold mapFieldTypeToSchema, baseSchema.
  cbn [field_name field_type field_format field_relationship].
  destruct relationship, relationship'; try done.
  - destruct (proj1 Hrel) as [x Hx]; [done | discriminate Hx].
  - destruct (proj2 Hrel) as [x Hx]; [done | discriminate Hx].
Qed.

Lemma mapFieldTypeToSchema_reads_witness :
  mapFieldTypeToSchema Objects.task_project
  = mapFieldTypeToSchema Objects.review_project.
Proof.
  apply mapFieldTypeToSchema_reads; reflexivity.
Defined.

Lemma prop_truthy (fmt : json) (k : string) (v : json) :
  Json.prop fmt k = Some v → Json.truthy fmt = true.
Proof. by destruct fmt. Qed.

Lemma mapFieldTypeToSchema_enum_other (field : KnackField) :
  field_type field ≠ "multiple_choice" →
  s_enum (mapFieldTypeToSchema field) = None
  ∧ s_default (mapFieldTypeToSchema field) = None.
Proof.
  intros Hother. apply str_eq_false in Hother.
  unfold mapFieldTypeToSchema, when.
  split; repeat case_match; first [done | congruence].
Qed.

(** X24. The schema of a field has an [enum] exactly when the field is a
    multiple choice whose format has truthy [options], and the [enum] is
    then these options as they are, an empty list included. It has a
    [default] only together with an [enum], and exactly when the format has
    a truthy [default]. *)
Theorem mapFieldTypeToSchema_enum (field : KnackField) :
  let s := mapFieldTypeToSchema field in
  (∀ options,
     s_enum s = Some options
     ↔ field_type field = "multiple_choice"
       ∧ ∃ fmt, field_format field = Some fmt
                ∧ Json.prop fmt "options" = Some options
                ∧ Json.truthy options = true)
  ∧ (∀ d,
       s_default s = Some d
       ↔ is_Some (s_enum s)
         ∧ ∃ fmt, field_format field = Some fmt
                  ∧ Json.prop fmt "default" = Some d
                  ∧ Json.truthy d = true).
Proof.
  cbv zeta.
  destruct (decide (field_type field = "multiple_choice")) as [Hmc | Hother].
  2: { destruct (mapFieldTypeToSchema_enum_other field Hother) as [-> ->].
       split; intros x; (split; [done | enum_back]). }
  destruct field as [key name t required format relationship].
  cbn [field_type field_format] in *. subst t.
  unfold mapFieldTypeToSchema, when, baseSchema.
  cbn [field_name field_type field_format field_relationship].
  change (one_of "multiple_choice" _) with false.
  change (Js.str_eq "multiple_choice" "number") with false.
  change (Js.str_eq "multiple_choice" "auto_increment") with false.
  change (Js.str_eq "multiple_choice" "currency") with false.
  change (Js.str_eq "multiple_choice" "date_time") with false.
  change (Js.str_eq "multiple_choice" "multiple_choice") with true.
  cbv iota.
  destruct format as [fmt |]; [| enum_cases].
  destruct (Json.prop fmt "options") as [options |] eqn:Hoptions;
    [| enum_cases].
  rewrite (prop_truthy _ _ _ Hoptions), andb_true_l.
  destruct (Json.truthy options) eqn:Htruthy; [| enum_cases].
  destruct (Json.prop fmt "default") as [d |] eqn:Hd;
    [destruct (Json.truthy d) eqn:Hdt |].
  all: enum_cases.
Qed.

Lemma mapFieldTypeToSchema_enum_witness :
  s_enum (mapFieldTypeToSchema Choices.no_options) = Some (JArr [])
  ∧ s_default (mapFieldTypeToSchema Choices.no_options) = None.
Proof.
  split.
  - apply (proj1 (mapFieldTypeToSchema_enum Choices.no_options)).
    split; [done |]. by eexists.
  - reflexivity.
Defined.

(** ** Tags *)

Lemma requireAuthentication_tags (security : ViewSecurity)
    (operation : OperationObject) :
  op_tags (requireAuthentication security operation) = op_tags operation.
Proof. by destruct security. Qed.

Lemma declaredTags_iff (schema : KnackSchema) (t : string) :
  t ∈ declaredTags schema
  ↔ t = "Objects"
    ∨ ∃ scene, scene ∈ app_scenes (application schema)
               ∧ t = "View: " +:+ scene_name scene.
Proof.
  unfold declaredTags, documentTags. rewrite fmap_cons, elem_of_cons.
  cbn [tag_name]. rewrite list_elem_of_fmap. split.
  - intros [-> | (tag & -> & Htag)]; [by left | right].
    apply list_elem_of_In, in_map_iff in Htag as (scene & <- & Hscene).
    exists scene. split; [by apply list_elem_of_In | done].
  - intros [-> | (scene & Hscene & ->)]; [by left | right].
    eexists. split; [| apply list_elem_of_In, in_map;
                         apply list_elem_of_In, Hscene].
    done.
Qed.

Lemma viewOperations_tags (view : KnackView) (scene : KnackScene)
    (schema : KnackSchema) (op : OperationObject) :
  op ∈ viewOperations view scene schema →
  op_tags op = [viewTagName view scene schema].
Proof.
  unfold viewOperations. intros Hop.
  repeat (apply elem_of_cons in Hop as [-> | Hop];
          [unfold generateViewGetOperation, generateViewPostOperation,
             generateViewPutOperation;
           by rewrite requireAuthentication_tags |]).
  by apply elem_of_nil in Hop.
Qed.

Lemma objectOperations_tags (obj : KnackObject) (op : OperationObject) :
  op ∈ objectOperations obj →
  ∃ rest, op_tags op = object_name obj :: rest
          ∧ (rest = [] ∨ rest = ["Builder"]).
Proof.
  unfold objectOperations. intros Hop.
  repeat (apply elem_of_cons in Hop as [-> | Hop];
          [eexists; split; [reflexivity | auto] |]).
  by apply elem_of_nil in Hop.
Qed.

(** X25. The tags the document declares are "Objects" and one tag per
    scene, "View: " followed by the scene's name. Every operation of the
    document is tagged first with the name of an object of the application
    or with the declared tag of a scene of the application (the tag of a
    view whose source object is not found); the only other tag an operation
    carries is "Builder", which the document never declares. *)
Theorem emitted_tags (schema : KnackSchema) :
  (∀ t, t ∈ declaredTags schema
        ↔ t = "Objects"
          ∨ ∃ scene, scene ∈ app_scenes (application schema)
                     ∧ t = "View: " +:+ scene_name scene)
  ∧ ("Builder" ∉ declaredTags schema)
  ∧ ∀ op, emitted schema op →
      ∃ t rest,
        op_tags op = t :: rest
        ∧ (rest = [] ∨ rest = ["Builder"])
        ∧ ((∃ obj, obj ∈ app_objects (application schema)
                   ∧ t = object_name obj)
           ∨ t ∈ declaredTags schema).
Proof.
  split; [apply declaredTags_iff |]. split.
  - intros Hin. apply declaredTags_iff in Hin as [? | (scene & _ & ?)];
      discriminate.
  - intros op Hop.
    apply emitted_from in Hop
      as [(obj & Hobj & Hop) | (scene & view & Hscene & _ & _ & Hop)].
    + apply objectOperations_tags in Hop as (rest & Htags & Hrest).
      exists (object_name obj), rest. split; [done |]. split; [done |].
      left. by exists obj.
    + apply viewOperations_tags in Hop.
      exists (viewTagName view scene schema), []. split; [done |].
      split; [by left |]. unfold viewTagName.
      destruct (find _ _) as [sourceObject |] eqn:Hfind.
      * left. exists sourceObject. split; [| done].
        by apply find_elem_of in Hfind as [Hin _].
      * right. apply declaredTags_iff. right. by exists scene.
Qed.

Lemma emitted_tags_witness :
  ∃ t rest,
    op_tags (generateListRecordsOperation Objects.tasks) = t :: rest
    ∧ (rest = [] ∨ rest = ["Builder"])
    ∧ ((∃ obj, obj ∈ app_objects (application TaskPages.schema)
               ∧ t = object_name obj)
       ∨ t ∈ declaredTags TaskPages.schema).
Proof.
  apply (proj2 (proj2 (emitted_tags TaskPages.schema))).
  apply (emitted_intro _ "/objects/object_2/records"
           (emptyPathItem
            |> with_get (generateListRecordsOperation Objects.tasks)
            |> with_post (generateCreateRecordOperation Objects.tasks))
           "get").
  - vm_compute. reflexivity.
  - unfold operations. simpl. apply elem_of_cons. by left.
Defined.

(** ** The names of the component schemas *)



(** X27. The envelope that [createPaginatedResponseSchema] builds around a
    reference has exactly the properties of the [PaginatedResponse]
    component of the document, each with the same type; its [records] are
    an array whose items are the reference and nothing else; and envelopes
    of different references differ. *)
Theorem createPaginatedResponseSchema_envelope (ref other : string) :
  let response := createPaginatedResponseSchema ref in
  s_type response = Some "object"
  ∧ s_required response = None
  ∧ (∀ k, s_type <$> properties_of response !! k
          = s_type <$> (properties_of
                          <$> generatePaginationResponseSchemas
                              !! "PaginatedResponse") ≫= (.!! k))
  ∧ (s_items <$> properties_of response !! "records")
    = Some (Some (schema_ref ref))
  ∧ (createPaginatedResponseSchema ref = createPaginatedResponseSchema other
     → ref = other).
Proof.
  cbv zeta. split; [done |]. split; [done |]. split; [| split].
  - intros k. unfold createPaginatedResponseSchema, properties_of.
    change (generatePaginationResponseSchemas !! "PaginatedResponse")
      with (Some (described "object"
                    "Standard response format for paginated results"
                  |> upd_properties
                       {[ "records" :=
                            described "array"
                              "Array of records for the current page"
                            |> upd_items
                                 (described "object"
                                    "Record data (varies by endpoint)");
                          "total_pages" :=
                            described "integer"
                              "Total number of pages available";
                          "total_records" :=
                            described "integer"
                              "Total number of records across all pages";
                          "current_page" :=
                            described "integer" "Current page number" ]})).
    unfold described, upd_properties, upd_items, upd_type, upd_description.
    cbn -[lookup insert singletonM].
    destruct (decide (k = "records")) as [-> | H1]; [done |].
    destruct (decide (k = "total_pages")) as [-> | H2]; [done |].
    destruct (decide (k = "total_records")) as [-> | H3]; [done |].
    destruct (decide (k = "current_page")) as [-> | H4]; [done |].
    by rewrite !lookup_insert_ne, !lookup_singleton_ne by done.
  - reflexivity.
  - intros Heq.
    assert (Hitems : (s_items <$> properties_of
                        (createPaginatedResponseSchema ref) !! "records")
                     = (s_items <$> properties_of
                          (createPaginatedResponseSchema other) !! "records"))
      by (by rewrite Heq).
    by injection Hitems.
Qed.
